(** * mario: the rule evaluator of [mario/core.py]

    A shallow embedding of the plumbing-rule evaluator: the clause
    evaluators ([kind_is_func], [arg_is_func], [arg_matches_func],
    [arg_rewrite_func], [arg_istype_func], the [plumb_*] actions) and the
    rule loop [handle_rules], together with the Python string built-ins
    they rely on.

    Conventions.
    - Python exceptions are values of [exn]; a computation is a function
      from the trace of events so far to an outcome and the extended trace
      (the trace survives a raised exception, as the effects of a Python
      program do).
    - The message dictionary and the cache are passed and returned
      explicitly, as the source does ([res, msg, cache = f(msg, ...)]).
    - External collaborators (regular expressions, libmagic, HTTP,
      subprocesses, notifications, temporary files) are the fields of a
      record of capabilities; their answers may depend on the history of
      events.
    - A string is the UTF-8 encoding of a Python [str]; the built-ins
      that classify or count characters decode it.
    - Of the log lines, those of [handle_rules] are events of the trace;
      the diagnostic lines of the clause evaluators are left out, the
      dictionary lookups made to build them are not. *)

From Stdlib Require Import Ascii String List.
From stdpp Require Import base option list strings gmap.

(** ** Python values and exceptions *)

(** [class Kind(Enum)] *)
Inductive Kind := raw | text | url.

#[global] Instance Kind_eq_dec : EqDecision Kind.
Proof. solve_decision. Defined.

(** [Kind[name]]: lookup of an enumeration member by name; [None] stands
    for the [KeyError] the lookup raises. *)
Definition Kind_of_name (name : string) : option Kind :=
  if decide (name = "raw") then Some raw
  else if decide (name = "text") then Some text
  else if decide (name = "url") then Some url
  else None.

Definition Kind_name (k : Kind) : string :=
  match k with raw => "raw" | text => "text" | url => "url" end.

(** The values a message dictionary holds: strings, the message kind, and
    [None] (the value of a capture group that took no part in a match). *)
Inductive pyval :=
  | VStr (s : string)
  | VKind (k : Kind)
  | VNone.

#[global] Instance pyval_eq_dec : EqDecision pyval.
Proof. solve_decision. Defined.

(** [str(v)], as [str.format] renders a value with an empty format spec. *)
Definition py_str (v : pyval) : string :=
  match v with
  | VStr s => s
  | VKind k => "Kind." +:+ Kind_name k
  | VNone => "None"
  end.

Inductive exn :=
  | KeyError (key : string)
  | IndexError
  | ValueError
  | TypeError
  | AttributeError
  | UnboundLocalError (name : string)
  | SystemExit
  | RequestException
  | ReError
  | NotModelled.

#[global] Instance exn_eq_dec : EqDecision exn.
Proof. solve_decision. Defined.

(** Result of a pure Python expression: a value or a raised exception. *)
Inductive res (A : Type) :=
  | Ok (a : A)
  | Raise (e : exn).
Arguments Ok {A} a.
Arguments Raise {A} e.

Definition res_bind {A B} (r : res A) (k : A -> res B) : res B :=
  match r with
  | Ok a => k a
  | Raise e => Raise e
  end.

(** ** Python string built-ins *)

Module PyStr.

(** A [string] holds the UTF-8 encoding of a Python [str].  Searching
    for an ASCII character, splitting at one, replacing a text and slicing
    at the positions [find] returns act on the encoding as they act on the
    text.  The built-ins that classify characters (the white space of
    [str.split()], the class of decimal digits of [re], the digits of a
    field name of [str.format]) or that go character by character
    (iteration, [replace] of the empty text) read whole characters. *)

(** An ASCII digit. *)
Definition is_ascii_digit (c : ascii) : bool :=
  let n := nat_of_ascii c in (48 <=? n)%nat && (n <=? 57)%nat.

(** The white space of ASCII. *)
Definition is_ascii_space (c : ascii) : bool :=
  let n := nat_of_ascii c in
  ((9 <=? n)%nat && (n <=? 13)%nat) || ((28 <=? n)%nat && (n <=? 32)%nat).

Definition is_ascii (c : ascii) : bool := (nat_of_ascii c <? 128)%nat.

(** A continuation byte of a character of several bytes. *)
Definition is_cont (c : ascii) : bool :=
  let n := nat_of_ascii c in (128 <=? n)%nat && (n <? 192)%nat.

(** The number of bytes of the character whose first byte [ch] starts
    with. *)
Definition utf8_len (ch : string) : nat :=
  match ch with
  | EmptyString => 1
  | String c _ =>
      let n := nat_of_ascii c in
      if (n <? 192)%nat then 1
      else if (n <? 224)%nat then 2
      else if (n <? 240)%nat then 3
      else 4
  end.

Fixpoint cont_bits (s : string) (a : N) : option N :=
  match s with
  | EmptyString => Some a
  | String c s' =>
      if is_cont c then cont_bits s' (64 * a + (N_of_ascii c - 128))%N
      else None
  end.

(** The code point of the character encoded by [ch]; [None] when [ch]
    does not start with a lead byte followed by continuation bytes. *)
Definition code_point (ch : string) : option N :=
  match ch with
  | EmptyString => None
  | String c s' =>
      let n := N_of_ascii c in
      if (n <? 128)%N then match s' with EmptyString => Some n | _ => None end
      else if (n <? 192)%N then None
      else cont_bits s' (if (n <? 224)%N then n - 192
                         else if (n <? 240)%N then n - 224
                         else n - 240)%N
  end.

(** The decimal digits of Unicode (general category Nd, version 14.0):
    runs of consecutive code points, each starting at a digit zero, with
    their lengths.  A digit's value is its offset in the run modulo ten. *)
Definition digit_runs : list (N * N) :=
  [(0x30, 10); (0x660, 10); (0x6F0, 10); (0x7C0, 10); (0x966, 10);
   (0x9E6, 10); (0xA66, 10); (0xAE6, 10); (0xB66, 10); (0xBE6, 10);
   (0xC66, 10); (0xCE6, 10); (0xD66, 10); (0xDE6, 10); (0xE50, 10);
   (0xED0, 10); (0xF20, 10); (0x1040, 10); (0x1090, 10); (0x17E0, 10);
   (0x1810, 10); (0x1946, 10); (0x19D0, 10); (0x1A80, 10); (0x1A90, 10);
   (0x1B50, 10); (0x1BB0, 10); (0x1C40, 10); (0x1C50, 10); (0xA620, 10);
   (0xA8D0, 10); (0xA900, 10); (0xA9D0, 10); (0xA9F0, 10); (0xAA50, 10);
   (0xABF0, 10); (0xFF10, 10); (0x104A0, 10); (0x10D30, 10); (0x11066, 10);
   (0x110F0, 10); (0x11136, 10); (0x111D0, 10); (0x112F0, 10); (0x11450, 10);
   (0x114D0, 10); (0x11650, 10); (0x116C0, 10); (0x11730, 10); (0x118E0, 10);
   (0x11950, 10); (0x11C50, 10); (0x11D50, 10); (0x11DA0, 10); (0x16A60, 10);
   (0x16AC0, 10); (0x16B50, 10); (0x1D7CE, 50); (0x1E140, 10); (0x1E2F0, 10);
   (0x1E950, 10); (0x1FBF0, 10)]%N.

Fixpoint decimal_in (runs : list (N * N)) (cp : N) : option N :=
  match runs with
  | [] => None
  | (zero, len) :: rest =>
      if ((zero <=? cp) && (cp <? zero + len))%N
      then Some ((cp - zero) mod 10)%N
      else decimal_in rest cp
  end.

(** The value of the decimal digit with code point [cp]. *)
Definition decimal_of (cp : N) : option N := decimal_in digit_runs cp.

(** The white space of Unicode, as [str.split()] and [str.isspace] see
    it. *)
Definition space_points : list N :=
  [0x9; 0xA; 0xB; 0xC; 0xD; 0x1C; 0x1D; 0x1E; 0x1F; 0x20; 0x85; 0xA0;
   0x1680; 0x2000; 0x2001; 0x2002; 0x2003; 0x2004; 0x2005; 0x2006; 0x2007;
   0x2008; 0x2009; 0x200A; 0x2028; 0x2029; 0x202F; 0x205F; 0x3000]%N.

Definition is_space_char (ch : string) : bool :=
  match code_point ch with
  | Some cp => bool_decide (cp ∈ space_points)
  | None => false
  end.

(** Reading a string byte by byte for decimal digits.  [pending] holds
    the bytes read so far of a character that is not complete. *)
Inductive digit_scan :=
  | NotDigit
  | Digit (value : N)
  | Pending (pending : string).

Definition digit_step (pending : string) (c : ascii) : digit_scan :=
  if is_ascii c then
    if is_ascii_digit c && bool_decide (pending = EmptyString)
    then Digit (N_of_ascii c - 48)%N
    else NotDigit
  else
    let ch := pending +:+ String c EmptyString in
    if (String.length ch <? utf8_len ch)%nat then Pending ch
    else match code_point ch ≫= decimal_of with
         | Some v => Digit v
         | None => NotDigit
         end.

(** Every character of [s] is a decimal digit ([s] may be empty). *)
Fixpoint all_digits_go (pending s : string) : bool :=
  match s with
  | EmptyString => bool_decide (pending = EmptyString)
  | String c s' =>
      match digit_step pending c with
      | NotDigit => false
      | Digit _ => all_digits_go EmptyString s'
      | Pending p => all_digits_go p s'
      end
  end.

Definition all_digits (s : string) : bool := all_digits_go EmptyString s.

(** The number a string of decimal digits denotes, continuing from [a]. *)
Fixpoint decimal_go (pending s : string) (a : N) : N :=
  match s with
  | EmptyString => a
  | String c s' =>
      match digit_step pending c with
      | NotDigit => a
      | Digit v => decimal_go EmptyString s' (10 * a + v)%N
      | Pending p => decimal_go p s' a
      end
  end.

Definition decimal (s : string) : N := decimal_go EmptyString s 0%N.

Fixpoint mem_char (c : ascii) (s : string) : bool :=
  match s with
  | EmptyString => false
  | String d s' => if decide (c = d) then true else mem_char c s'
  end.

Fixpoint rev_acc (s acc : string) : string :=
  match s with
  | EmptyString => acc
  | String c s' => rev_acc s' (String c acc)
  end.

Definition rev (s : string) : string := rev_acc s EmptyString.

Fixpoint lstrip (chars s : string) : string :=
  match s with
  | EmptyString => EmptyString
  | String c s' => if mem_char c chars then lstrip chars s' else s
  end.

(** [s.strip(chars)] *)
Definition strip (chars s : string) : string :=
  rev (lstrip chars (rev (lstrip chars s))).

(** [s.find(sub, start)] for a one-character [sub]: the least index
    [i >= start] with [s[i] = c]; [None] stands for [-1]. *)
Fixpoint find_char (c : ascii) (start : nat) (s : string) : option nat :=
  match s with
  | EmptyString => None
  | String d s' =>
      match start with
      | O => if decide (c = d) then Some O else S <$> find_char c O s'
      | S k => S <$> find_char c k s'
      end
  end.

(** [s[i:j]] for [0 <= i], [0 <= j]. *)
Definition slice (i j : nat) (s : string) : string :=
  String.substring i (Nat.min j (String.length s) - i) s.

(** [s.replace(old, new)]: every non-overlapping occurrence of [old],
    leftmost first.  [skip] counts the characters of an occurrence that
    are still to be passed over. *)
Fixpoint replace_go (old new : string) (skip : nat) (s : string) : string :=
  match s with
  | EmptyString => EmptyString
  | String c s' =>
      match skip with
      | S k => replace_go old new k s'
      | O =>
          if String.prefix old s
          then new +:+ replace_go old new (String.length old - 1) s'
          else String c (replace_go old new O s')
      end
  end.

(** With an empty [old], Python puts [new] before every character and
    at the end. *)
Fixpoint intersperse (new s : string) : string :=
  match s with
  | EmptyString => new
  | String c s' =>
      if is_cont c then String c (intersperse new s')
      else new +:+ String c (intersperse new s')
  end.

Definition replace (old new s : string) : string :=
  match old with
  | EmptyString => intersperse new s
  | _ => replace_go old new O s
  end.

(** [s.split(sep, maxsplit)] for a one-character [sep]. *)
Fixpoint split_char (sep : ascii) (maxsplit : nat) (s : string)
    (cur : string) : list string :=
  match s with
  | EmptyString => [rev cur]
  | String c s' =>
      match maxsplit with
      | O => [rev cur +:+ s]
      | S k =>
          if decide (c = sep)
          then rev cur :: split_char sep k s' EmptyString
          else split_char sep maxsplit s' (String c cur)
      end
  end.

Definition split (sep : ascii) (maxsplit : nat) (s : string) : list string :=
  split_char sep maxsplit s EmptyString.

(** A piece of a split that drops empty pieces. *)
Definition piece (cur : string) : list string :=
  match cur with
  | EmptyString => []
  | _ => [cur]
  end.

(** [s.split()]: split on runs of white space, no empty pieces.  [cur]
    is the piece read so far, [pending] the bytes read so far of a
    character that is not complete. *)
Fixpoint split_ws_go (pending s cur : string) : list string :=
  match s with
  | EmptyString => piece (cur +:+ pending)
  | String c s' =>
      if is_ascii c then
        if is_ascii_space c
        then piece (cur +:+ pending) ++ split_ws_go EmptyString s' EmptyString
        else split_ws_go EmptyString s' (cur +:+ pending +:+ String c EmptyString)
      else
        let ch := pending +:+ String c EmptyString in
        if (String.length ch <? utf8_len ch)%nat then split_ws_go ch s' cur
        else if is_space_char ch
        then piece cur ++ split_ws_go EmptyString s' EmptyString
        else split_ws_go EmptyString s' (cur +:+ ch)
  end.

Definition split_ws (s : string) : list string :=
  split_ws_go EmptyString s EmptyString.

(** [sub in s] *)
Fixpoint contains (sub s : string) : bool :=
  String.prefix sub s ||
  match s with
  | EmptyString => false
  | String _ s' => contains sub s'
  end.

(** The characters of a string, as iterating over it yields them: a
    byte that is not a continuation byte starts a character. *)
Fixpoint chars_go (s cur : string) : list string :=
  match s with
  | EmptyString => piece cur
  | String c s' =>
      if is_cont c then chars_go s' (cur +:+ String c EmptyString)
      else piece cur ++ chars_go s' (String c EmptyString)
  end.

Definition chars (s : string) : list string := chars_go s EmptyString.

(** Decimal rendering of a natural number, [str(i)]. *)
Definition digit (n : nat) : ascii := ascii_of_nat (48 + n).

Fixpoint of_nat_go (fuel n : nat) (acc : string) : string :=
  match fuel with
  | O => acc
  | S f =>
      let acc' := String (digit (n mod 10)) acc in
      if (n <? 10)%nat then acc' else of_nat_go f (n / 10) acc'
  end.

Definition of_nat (n : nat) : string := of_nat_go (S n) n EmptyString.

End PyStr.

(** ** [str.format] with keyword arguments

    The fragment of the format-string language the rule files use:
    literal text, the escapes [{{] and [}}], and replacement fields
    [{name}] with a plain name.  A field with an attribute or index
    access, a conversion or a format spec ([.], [[], [!], [:]) is outside
    the fragment and yields [NotModelled].  No positional arguments are
    ever passed, so an empty or numeric field name raises [IndexError],
    or [ValueError] when the number is above [sys.maxsize]. *)

Module PyFormat.

(** [sys.maxsize] of a 64-bit CPython, the bound of a positional index. *)
Definition sys_maxsize : N := 9223372036854775807%N.

(** A field name of decimal digits is the index of a positional argument:
    too large an index raises [ValueError], any other [IndexError], for
    no positional argument is passed; so does the empty name. *)
Definition format_field (kwargs : gmap string pyval) (name : string)
    : res string :=
  if PyStr.all_digits name then
    if (sys_maxsize <? PyStr.decimal name)%N then Raise ValueError
    else Raise IndexError
  else match kwargs !! name with
       | Some v => Ok (py_str v)
       | None => Raise (KeyError name)
       end.

Definition outside_fragment (c : ascii) : bool :=
  PyStr.mem_char c ".[!:".

(** [field = None]: reading literal text; [field = Some acc]: inside a
    replacement field whose name so far is [acc], reversed. *)
Fixpoint format_go (kwargs : gmap string pyval) (field : option string)
    (s : string) : res string :=
  match field, s with
  | None, EmptyString => Ok EmptyString
  | None, String "{" (String "{" s') =>
      res_bind (format_go kwargs None s') (fun r => Ok (String "{" r))
  | None, String "}" (String "}" s') =>
      res_bind (format_go kwargs None s') (fun r => Ok (String "}" r))
  | None, String "}" _ => Raise ValueError
  | None, String "{" s' => format_go kwargs (Some EmptyString) s'
  | None, String c s' =>
      res_bind (format_go kwargs None s') (fun r => Ok (String c r))
  | Some _, EmptyString => Raise ValueError
  | Some acc, String "}" s' =>
      res_bind (format_field kwargs (PyStr.rev acc)) (fun v =>
      res_bind (format_go kwargs None s') (fun r => Ok (v +:+ r)))
  | Some _, String "{" _ => Raise ValueError
  | Some acc, String c s' =>
      if outside_fragment c then Raise NotModelled
      else format_go kwargs (Some (String c acc)) s'
  end.

Definition format (s : string) (kwargs : gmap string pyval) : res string :=
  format_go kwargs None s.

End PyFormat.

(** ** Helpers of [core.py] *)

(** [closes_group s]: [s] is a run of decimal digits followed by a
    closing brace, that is, an opening brace before [s] starts a match of
    the pattern "brace, digits, brace" of [escape_match_group_references].
    The digits are those of the class of [re] for a text pattern: every
    decimal digit of Unicode. *)
Fixpoint closes_group_go (pending s : string) : bool :=
  match s with
  | EmptyString => false
  | String c s' =>
      if decide (c = "}"%char) then bool_decide (pending = EmptyString)
      else match PyStr.digit_step pending c with
           | PyStr.NotDigit => false
           | PyStr.Digit _ => closes_group_go EmptyString s'
           | PyStr.Pending p => closes_group_go p s'
           end
  end.

Definition closes_group (s : string) : bool := closes_group_go EmptyString s.

(** [re.sub] of the pattern "opening brace, any number of digits, closing
    brace" by the same text with a backslash after the opening brace.  The digits and the closing brace
    of a match contain no opening brace, so copying them is the same as
    resuming after the match. *)
Fixpoint escape_match_group_references (action : string) : string :=
  match action with
  | EmptyString => EmptyString
  | String c s' =>
      if bool_decide (c = "{"%char) && closes_group s'
      then String "{" (String "\" (escape_match_group_references s'))
      else String c (escape_match_group_references s')
  end.

(** The generator [get_var_references], its [while True] loop bounded by
    [fuel]; every turn moves [start] past a closing brace. *)
Fixpoint get_var_references_go (fuel : nat) (s : string) (start : nat)
    : list string :=
  match fuel with
  | O => []
  | S fuel' =>
      let p1 := PyStr.find_char "{" start s in
      let p2 := PyStr.find_char "}" (from_option S O p1) s in
      match p1, p2 with
      | Some i1, Some i2 =>
          PyStr.slice i1 (i2 + 1) s :: get_var_references_go fuel' s (i2 + 1)
      | _, _ => []
      end
  end.

Definition get_var_references (s : string) : list string :=
  get_var_references_go (S (String.length s)) s O.

(** ** The transactional message dictionary *)

(** Modelled from the spec: [mario.util.ElasticDict], the class of the
    message dictionary, is imported by [core.py] but is not among the
    sources.  The model follows the contract of the transactional context:
    [set] records one undo entry per call ("insert" when the key was
    absent, "update" with the prior value otherwise) and then stores the
    value; [get] fails with a missing-variable condition on an absent key;
    [reverse] (the contract's revert) pops the undo entries, most recent
    first, and undoes each, down to an empty log.  [update] is the
    mapping's bulk assignment, one [set] per item in order. *)
Module ElasticDict.

Inductive undo :=
  | UndoInsert (key : string)
  | UndoUpdate (key : string) (prior : pyval).

Record t := mk { live : gmap string pyval; log : list undo }.

(** [ElasticDict(msg)] *)
Definition new (m : gmap string pyval) : t := mk m [].

(** [d[key]] *)
Definition get (key : string) (d : t) : res pyval :=
  match live d !! key with
  | Some v => Ok v
  | None => Raise (KeyError key)
  end.

(** [d[key] = value] *)
Definition set (key : string) (value : pyval) (d : t) : t :=
  let entry :=
    match live d !! key with
    | None => UndoInsert key
    | Some prior => UndoUpdate key prior
    end in
  mk (<[key := value]> (live d)) (entry :: log d).

(** [d.update(items)] *)
Definition update (items : list (string * pyval)) (d : t) : t :=
  foldl (fun d kv => set kv.1 kv.2 d) d items.

Definition undo_entry (m : gmap string pyval) (u : undo) : gmap string pyval :=
  match u with
  | UndoInsert key => delete key m
  | UndoUpdate key prior => <[key := prior]> m
  end.

(** [d.reverse()]; the head of the log is the most recent entry. *)
Definition reverse (d : t) : t :=
  mk (foldl undo_entry (live d) (log d)) [].

End ElasticDict.

(** ** Rules, events and computations *)

(** An element of [line[2:]] of a match line: the target expression or
    kind name (a string) or the pattern list. *)
Inductive arg_item :=
  | AStr (s : string)
  | AList (l : list string).

(** [obj, verb = line[0:2]; arguments = line[2:]] *)
Record match_line := MatchLine {
  m_obj : string;
  m_verb : string;
  m_arguments : list arg_item
}.

(** [obj, verb, action = line] *)
Record action_line := ActionLine {
  a_obj : string;
  a_verb : string;
  a_action : string
}.

(** [rule_name, (match_lines, action_lines) = rule] *)
Record rule := Rule {
  rule_name : string;
  match_lines : list match_line;
  action_lines : list action_line
}.

(** What a run does that can be seen from outside: the log lines of
    [handle_rules], the calls of clause evaluators and of the content-type
    detection, and the calls to external collaborators. *)
Inductive event :=
  | EvMatchingRule (name : string)
  | EvMatchCall (clause : string) (arguments : list arg_item)
  | EvRuleMatched (name : string)
  | EvExecutingAction (clause action name : string)
  | EvNoRuleMatched
  | EvDetect (kind : pyval) (var : string)
  | EvHttpHead (u : string)
  | EvMagic (buf : string)
  | EvSubprocess (argv : list string)
  | EvNotify (title : pyval) (body : string)
  | EvTempFile (name : string) (data : string)
  | EvHttpGet (u : string).

Definition trace := list event.

(** A computation extends the trace and returns a value or raises. *)
Definition M (A : Type) : Type := trace -> res A * trace.

Definition ret {A} (a : A) : M A := fun tr => (Ok a, tr).

Definition raise {A} (e : exn) : M A := fun tr => (Raise e, tr).

Definition bind {A B} (c : M A) (k : A -> M B) : M B :=
  fun tr =>
    match c tr with
    | (Ok a, tr') => k a tr'
    | (Raise e, tr') => (Raise e, tr')
    end.

Definition lift {A} (r : res A) : M A := fun tr => (r, tr).

Definition emit (e : event) : M unit := fun tr => (Ok tt, tr ++ [e]).

(** The history so far, for collaborators whose answer depends on it. *)
Definition history : M trace := fun tr => (Ok tr, tr).

Notation "x <- c ;; k" := (bind c (fun x => k))
  (at level 100, c at next level, right associativity).
Notation "c ;;; k" := (bind c (fun _ => k))
  (at level 100, right associativity).

(** The type cache: [cache = {'type': {}}], a dictionary of dictionaries. *)
Abbreviation cache_t := (gmap string (gmap string string)).

(** Result of [subprocess.call(arguments)]. *)
Inductive call_result :=
  | Exited (status : Z)
  | FileNotFound (strerror : string)
  | CallRaises (e : exn).

(** Result of the streamed download of [plumb_download_func]:
    [requests.get] may raise before the guarded block; inside it an
    [OSError] is caught. *)
Inductive download_result :=
  | Downloaded (filename : string)
  | GetRaises (e : exn)
  | DownloadOSError.

(** The external collaborators. *)
Record Capabilities := {
  (** [re.search(pattern, s)]: [None] for no match, else [m.groups()] *)
  re_search : string -> string -> res (option (list (option string)));
  (** [mimetypes.guess_type(var)[0]] *)
  guess_type : string -> option string;
  (** [requests.head(url).headers['content-type']]; [None] when the
      request fails or the header is absent *)
  http_head : trace -> string -> option string;
  (** [mime_from_buffer(buf)], the libmagic binding; raises [SystemExit]
      when no usable binding is installed *)
  magic_from_buffer : trace -> string -> res (option string);
  subprocess_call : trace -> list string -> call_result;
  (** [notify2.Notification(title, body).show()] *)
  notify_show : trace -> pyval -> string -> res unit;
  (** the name of a fresh [tempfile.NamedTemporaryFile] *)
  temp_file : trace -> res string;
  http_download : trace -> string -> download_result
}.

(** ** The clause evaluators *)

Abbreviation match_result := (bool * ElasticDict.t * cache_t)%type.
Abbreviation action_result := (bool * ElasticDict.t)%type.

(** Truth value of [t], a string or [None]. *)
Definition truthy (t : option string) : bool :=
  match t with
  | Some s => negb (bool_decide (s = EmptyString))
  | None => false
  end.

(** [s.format] with [msg] as keywords *)
Definition format_msg (s : string) (msg : ElasticDict.t) : res string :=
  PyFormat.format s (ElasticDict.live msg).

(** [arg, patterns = arguments] *)
Definition unpack2 (arguments : list arg_item) : res (arg_item * arg_item) :=
  match arguments with
  | [a; b] => Ok (a, b)
  | _ => Raise ValueError
  end.

(** [arg.format] with [msg] as keywords, for an element of a match line; a list has no
    [format] method. *)
Definition format_item (a : arg_item) (msg : ElasticDict.t) : res string :=
  match a with
  | AStr s => format_msg s msg
  | AList _ => Raise AttributeError
  end.

(** [for pattern in patterns]: the elements of a list, the characters of
    a string. *)
Definition iter_item (p : arg_item) : list string :=
  match p with
  | AList l => l
  | AStr s => PyStr.chars s
  end.

(** [x in checks] *)
Definition item_contains (x : string) (checks : arg_item) : bool :=
  match checks with
  | AList l => bool_decide (x ∈ l)
  | AStr s => PyStr.contains x s
  end.

(** The items of the dictionary built from [enumerate(m.groups())]: the
    key of group [i] is a backslash followed by [i] in decimal. *)
Definition group_items (groups : list (option string)) : list (string * pyval) :=
  imap (fun i e => ("\" +:+ PyStr.of_nat i, from_option VStr VNone e)) groups.

(** [acc.replace] applied to the pieces of [pattern.split(',', 2)], the
    body of the local [split]: [replace] takes the old and
    the new text; one piece is an argument too few, and a third piece
    would be a count, which a string is not. *)
Definition rewrite_split (acc pattern : string) : res string :=
  match PyStr.split "," 2 pattern with
  | [old; new] => Ok (PyStr.replace old new acc)
  | _ => Raise TypeError
  end.

(** [reduce(split, patterns, tmp)] *)
Fixpoint reduce_split (patterns : list string) (tmp : string) : res string :=
  match patterns with
  | [] => Ok tmp
  | pattern :: rest => res_bind (rewrite_split tmp pattern) (reduce_split rest)
  end.

(** [log_var_references]: the logged text is left out, the lookups
    [msg[var_name]] it makes are not. *)
Fixpoint log_var_references_go (msg : ElasticDict.t) (vs : list string)
    : res unit :=
  match vs with
  | [] => Ok tt
  | v :: rest =>
      let var_name := PyStr.strip "{}" v in
      res_bind (ElasticDict.get var_name msg) (fun _ =>
      log_var_references_go msg rest)
  end.

Definition log_var_references (msg : ElasticDict.t) (action : string) : res unit :=
  log_var_references_go msg (get_var_references action).

(** The list comprehension over [argument_string.split()]: [arg.format]
    of every piece. *)
Fixpoint format_all (args : list string) (msg : ElasticDict.t) : res (list string) :=
  match args with
  | [] => Ok []
  | a :: rest =>
      res_bind (format_msg a msg) (fun x =>
      res_bind (format_all rest msg) (fun xs => Ok (x :: xs)))
  end.

Section Evaluator.

Variable cap : Capabilities.

Definition kind_is_func (msg : ElasticDict.t) (arguments : list arg_item)
    (cache : cache_t) : M match_result :=
  match ElasticDict.get "kind" msg with
  | Raise (KeyError _) => ret (false, msg, cache)
  | Raise e => raise e
  | Ok kind =>
      match arguments with
      | [] => raise IndexError
      | AList _ :: _ => raise TypeError
      | AStr name :: _ =>
          match Kind_of_name name with
          | None => ret (false, msg, cache)
          | Some k => ret (bool_decide (kind = VKind k), msg, cache)
          end
      end
  end.

Definition arg_is_func (msg : ElasticDict.t) (arguments : list arg_item)
    (cache : cache_t) : M match_result :=
  ac <- lift (unpack2 arguments) ;;
  let '(arg, checks) := ac in
  s <- lift (format_item arg msg) ;;
  ret (item_contains s checks, msg, cache).

Fixpoint arg_matches_loop (patterns : list string) (arg : string)
    (msg : ElasticDict.t) (cache : cache_t) : M match_result :=
  match patterns with
  | [] => ret (false, msg, cache)
  | pattern :: rest =>
      m <- lift (re_search cap pattern arg) ;;
      match m with
      | Some groups =>
          ret (true, ElasticDict.update (group_items groups) msg, cache)
      | None => arg_matches_loop rest arg msg cache
      end
  end.

Definition arg_matches_func (msg : ElasticDict.t) (arguments : list arg_item)
    (cache : cache_t) : M match_result :=
  ap <- lift (unpack2 arguments) ;;
  let '(arg, patterns) := ap in
  arg <- lift (format_item arg msg) ;;
  arg_matches_loop (iter_item patterns) arg msg cache.

Definition arg_rewrite_func (msg : ElasticDict.t) (arguments : list arg_item)
    (cache : cache_t) : M match_result :=
  ap <- lift (unpack2 arguments) ;;
  let '(arg, patterns) := ap in
  match arg with
  | AList _ => raise TypeError
  | AStr arg =>
      let arg := escape_match_group_references arg in
      tmp <- lift (format_msg arg msg) ;;
      let arg := PyStr.strip "{}" arg in
      tmp <- lift (reduce_split (iter_item patterns) tmp) ;;
      ret (true, ElasticDict.set arg (VStr tmp) msg, cache)
  end.

(** [lookup_content_type(url)[0]] *)
Definition lookup_content_type (u : string) : M (option string) :=
  h <- history ;;
  emit (EvHttpHead u) ;;;
  match http_head cap h u with
  | None => ret None
  | Some response =>
      if PyStr.mem_char ";" response
      then ret (head (PyStr.split ";" 1 response))
      else ret (Some response)
  end.

Definition mime_from_buffer (buf : string) : M (option string) :=
  h <- history ;;
  emit (EvMagic buf) ;;;
  lift (magic_from_buffer cap h buf).

Definition detect_mimetype (kind : pyval) (var : string) : M (option string) :=
  if decide (kind = VKind url) then
    let t := guess_type cap var in
    if truthy t then ret t else lookup_content_type var
  else if decide (kind = VKind raw) then mime_from_buffer var
  else if decide (kind = VKind text) then ret (Some "text/plain")
  else ret None.

(** The [for pattern in patterns] loop of [arg_istype_func]; [m] is
    [None] while the variable [m] is unbound. *)
Fixpoint istype_search (patterns : list string) (t : string)
    (m : option (option (list (option string))))
    : res (option (option (list (option string)))) :=
  match patterns with
  | [] => Ok m
  | pattern :: rest =>
      res_bind (re_search cap pattern t) (fun r =>
      match r with
      | Some groups => Ok (Some (Some groups))
      | None => istype_search rest t (Some None)
      end)
  end.

(** The type of [arg]: [type_cache[arg]] when the cache has it, else
    [detect_mimetype(msg['kind'], arg)]. *)
Definition cached_or_detected (msg : ElasticDict.t)
    (type_cache : gmap string string) (arg : string) : M (option string) :=
  match type_cache !! arg with
  | Some t => ret (Some t)
  | None =>
      kind <- lift (ElasticDict.get "kind" msg) ;;
      emit (EvDetect kind arg) ;;;
      detect_mimetype kind arg
  end.

Definition arg_istype_func (msg : ElasticDict.t) (arguments : list arg_item)
    (cache : cache_t) : M match_result :=
  ap <- lift (unpack2 arguments) ;;
  let '(arg, patterns) := ap in
  arg <- lift (format_item arg msg) ;;
  match cache !! "type" with
  | None => raise (KeyError "type")
  | Some type_cache =>
      t <- cached_or_detected msg type_cache arg ;;
      match t with
      | Some ty =>
          if truthy t then
            let cache := <["type" := <[arg := ty]> type_cache]> cache in
            m <- lift (istype_search (iter_item patterns) ty None) ;;
            match m with
            | None => raise (UnboundLocalError "m")
            | Some None => ret (false, msg, cache)
            | Some (Some groups) =>
                ret (true, ElasticDict.update (group_items groups) msg, cache)
            end
          else ret (false, msg, cache)
      | None => ret (false, msg, cache)
      end
  end.

Definition plumb_run_func (msg : ElasticDict.t) (argument_string : string)
    : M action_result :=
  match log_var_references msg argument_string with
  | Raise (KeyError _) => ret (false, msg)
  | Raise e => raise e
  | Ok _ =>
      arguments <- lift (format_all (PyStr.split_ws argument_string) msg) ;;
      h <- history ;;
      emit (EvSubprocess arguments) ;;;
      match subprocess_call cap h arguments with
      | Exited status => ret (bool_decide (status = 0%Z), msg)
      | FileNotFound strerror =>
          match PyStr.split "'" (String.length strerror) strerror !! 1%nat with
          | Some _ => ret (false, msg)
          | None => raise IndexError
          end
      | CallRaises e => raise e
      end
  end.

Definition plumb_notify_func (msg : ElasticDict.t) (arguments : string)
    : M action_result :=
  message <- lift (format_msg arguments msg) ;;
  title <- lift (ElasticDict.get "rule_name" msg) ;;
  h <- history ;;
  emit (EvNotify title message) ;;;
  lift (notify_show cap h title message) ;;;
  ret (true, msg).

Definition plumb_save_func (msg : ElasticDict.t) (arguments : string)
    : M action_result :=
  h <- history ;;
  name <- lift (temp_file cap h) ;;
  data <- lift (ElasticDict.get "data" msg) ;;
  match data with
  | VStr data =>
      emit (EvTempFile name data) ;;;
      ret (true, ElasticDict.set "data_file" (VStr name) msg)
  | _ => raise TypeError
  end.

Definition plumb_download_func (msg : ElasticDict.t) (arguments : string)
    : M action_result :=
  match log_var_references msg arguments with
  | Raise (KeyError _) => ret (false, msg)
  | Raise e => raise e
  | Ok _ =>
      u <- lift (format_msg arguments msg) ;;
      h <- history ;;
      emit (EvHttpGet u) ;;;
      match http_download cap h u with
      | GetRaises e => raise e
      | DownloadOSError => ret (false, msg)
      | Downloaded filename =>
          ret (true, ElasticDict.set "filename" (VStr filename) msg)
      end
  end.

(** The dispatch tables; [None] is the [KeyError] of a missing key. *)
Definition match_clauses (key : string)
    : option (ElasticDict.t -> list arg_item -> cache_t -> M match_result) :=
  if decide (key = "kind is") then Some kind_is_func
  else if decide (key = "arg is") then Some arg_is_func
  else if decide (key = "arg istype") then Some arg_istype_func
  else if decide (key = "arg matches") then Some arg_matches_func
  else if decide (key = "arg rewrite") then Some arg_rewrite_func
  else None.

Definition action_clauses (key : string)
    : option (ElasticDict.t -> string -> M action_result) :=
  if decide (key = "plumb run") then Some plumb_run_func
  else if decide (key = "plumb notify") then Some plumb_notify_func
  else if decide (key = "plumb save") then Some plumb_save_func
  else if decide (key = "plumb download") then Some plumb_download_func
  else None.

(** ** The rule loop *)

Definition match_key (line : match_line) : string :=
  m_obj line +:+ " " +:+ m_verb line.

Definition action_key (line : action_line) : string :=
  a_obj line +:+ " " +:+ a_verb line.

(** [f = match_clauses[obj + ' ' + verb]] and the call
    [f(msg, arguments, cache)], which the trace records. *)
Definition call_match_clause (line : match_line) (msg : ElasticDict.t)
    (cache : cache_t) : M match_result :=
  match match_clauses (match_key line) with
  | None => raise (KeyError (match_key line))
  | Some f =>
      emit (EvMatchCall (match_key line) (m_arguments line)) ;;;
      f msg (m_arguments line) cache
  end.

(** [for line in match_lines: ... else: rule_matched = True] *)
Fixpoint run_match_lines (lines : list match_line) (msg : ElasticDict.t)
    (cache : cache_t) : M match_result :=
  match lines with
  | [] => ret (true, msg, cache)
  | line :: rest =>
      r <- call_match_clause line msg cache ;;
      let '(res, msg, cache) := r in
      if res : bool then run_match_lines rest msg cache
      else ret (false, msg, cache)
  end.

(** [for line in action_lines: ...; if not res: break] *)
Fixpoint run_action_lines (name : string) (lines : list action_line)
    (msg : ElasticDict.t) : M ElasticDict.t :=
  match lines with
  | [] => ret msg
  | line :: rest =>
      emit (EvExecutingAction (action_key line) (a_action line) name) ;;;
      let action := escape_match_group_references (a_action line) in
      match action_clauses (action_key line) with
      | None => raise (KeyError (action_key line))
      | Some f =>
          r <- f msg action ;;
          let '(res, msg) := r in
          if res : bool then run_action_lines name rest msg
          else ret msg
      end
  end.

(** [for rule in rules: ... else: log.info('No rule matched.')], from
    the current message and cache. *)
Fixpoint handle_rules_loop (rules : list rule) (msg : ElasticDict.t)
    (cache : cache_t) : M (ElasticDict.t * cache_t) :=
  match rules with
  | [] => emit EvNoRuleMatched ;;; ret (msg, cache)
  | r :: rest =>
      emit (EvMatchingRule (rule_name r)) ;;;
      x <- run_match_lines (match_lines r) msg cache ;;
      let '(rule_matched, msg, cache) := x in
      if rule_matched : bool then
        emit (EvRuleMatched (rule_name r)) ;;;
        let msg := ElasticDict.set "rule_name" (VStr (rule_name r)) msg in
        msg <- run_action_lines (rule_name r) (action_lines r) msg ;;
        ret (msg, cache)
      else handle_rules_loop rest (ElasticDict.reverse msg) cache
  end.

(** [handle_rules(msg, rules)]; the result is the final state of the
    message and of the cache. *)
Definition handle_rules (msg : ElasticDict.t) (rules : list rule)
    : M (ElasticDict.t * cache_t) :=
  handle_rules_loop rules msg {[ "type" := ∅ ]}.

End Evaluator.

(** ** A small regular-expression engine

    An executable stand-in for [re.search] on the fragment of the pattern
    language made of literal characters, the dot and capturing
    parentheses.  A pattern with any other metacharacter is outside the
    fragment ([NotModelled]).  Without repetition or alternation a pattern
    is a fixed sequence of tokens, so matching at a position is one walk
    along the subject. *)
Module SmallRe.

Inductive tok := TChr (c : ascii) | TAny | TOpen | TClose.

Definition metachar (c : ascii) : bool := PyStr.mem_char c "*+?|[]{}^$\".

Fixpoint tokens (p : string) : res (list tok) :=
  match p with
  | EmptyString => Ok []
  | String c p' =>
      if metachar c then Raise NotModelled
      else
        let t := if bool_decide (c = "."%char) then TAny
                 else if bool_decide (c = "("%char) then TOpen
                 else if bool_decide (c = ")"%char) then TClose
                 else TChr c in
        res_bind (tokens p') (fun ts => Ok (t :: ts))
  end.

(** Parentheses are checked when the pattern is compiled. *)
Fixpoint balanced (ts : list tok) (depth : nat) : bool :=
  match ts with
  | [] => bool_decide (depth = O)
  | TOpen :: ts' => balanced ts' (S depth)
  | TClose :: ts' =>
      match depth with
      | O => false
      | S d => balanced ts' d
      end
  | _ :: ts' => balanced ts' depth
  end.

Definition push (c : ascii) (open : list (nat * string)) : list (nat * string) :=
  map (fun g => (g.1, String c g.2)) open.

Fixpoint push_all (ch : string) (open : list (nat * string))
    : list (nat * string) :=
  match ch with
  | EmptyString => open
  | String c ch' => push_all ch' (push c open)
  end.

(** The continuation bytes a string starts with, and what follows them:
    the dot takes a whole character. *)
Fixpoint char_tail (s : string) : string * string :=
  match s with
  | EmptyString => (EmptyString, EmptyString)
  | String c s' =>
      if PyStr.is_cont c
      then let '(ch, rest) := char_tail s' in (String c ch, rest)
      else (EmptyString, s)
  end.

(** [open]: the groups entered and not yet left, with the text each has
    consumed so far (reversed); [next]: the number of the next group;
    [closed]: the groups already captured. *)
Fixpoint match_here (ts : list tok) (s : string) (open : list (nat * string))
    (next : nat) (closed : list (nat * string)) : option (list (nat * string)) :=
  match ts with
  | [] => Some closed
  | TOpen :: ts' => match_here ts' s ((next, EmptyString) :: open) (S next) closed
  | TClose :: ts' =>
      match open with
      | [] => None
      | (i, acc) :: open' => match_here ts' s open' next ((i, PyStr.rev acc) :: closed)
      end
  | TChr c :: ts' =>
      match s with
      | String d s' =>
          if decide (c = d) then match_here ts' s' (push d open) next closed else None
      | EmptyString => None
      end
  | TAny :: ts' =>
      match s with
      | String d s' =>
          if decide (d = "010"%char) then None
          else if PyStr.is_cont d then None
          else
            let '(ch, s'') := char_tail s' in
            match_here ts' s'' (push_all ch (push d open)) next closed
      | EmptyString => None
      end
  end.

Fixpoint search_from (ts : list tok) (s : string) : option (list (nat * string)) :=
  match match_here ts s [] O [] with
  | Some captured => Some captured
  | None =>
      match s with
      | EmptyString => None
      | String _ s' => search_from ts s'
      end
  end.

Fixpoint count_groups (ts : list tok) : nat :=
  match ts with
  | [] => O
  | TOpen :: ts' => S (count_groups ts')
  | _ :: ts' => count_groups ts'
  end.

Definition group_text (captured : list (nat * string)) (i : nat) : option string :=
  (fun found => found.2.2) <$> list_find (fun g => g.1 = i) captured.

(** [re.search(pattern, s)] followed by [m.groups()] *)
Definition search (pattern s : string) : res (option (list (option string))) :=
  res_bind (tokens pattern) (fun ts =>
  if balanced ts O then
    Ok ((fun captured => map (group_text captured) (seq O (count_groups ts)))
          <$> search_from ts s)
  else Raise ReError).

End SmallRe.

(** A concrete set of collaborators for running the evaluator: the small
    engine, a classifier that knows no type, a process that exits with
    status 0. *)
Definition quiet_cap : Capabilities := {|
  re_search := SmallRe.search;
  guess_type := fun _ => None;
  http_head := fun _ _ => None;
  magic_from_buffer := fun _ _ => Ok None;
  subprocess_call := fun _ _ => Exited 0;
  notify_show := fun _ _ _ => Ok tt;
  temp_file := fun _ => Ok "/tmp/plumber-temp-0";
  http_download := fun _ _ => DownloadOSError
|}.

(** ** Observations on traces and runs *)

(** [emits P c]: [c] only appends to the trace, and every event it
    appends satisfies [P], whether [c] returns or raises. *)
Definition emits {A} (P : event → Prop) (c : M A) : Prop :=
  ∀ tr, ∃ evs, (c tr).2 = tr ++ evs ∧ Forall P evs.

(** The events of the collaborators and of the content-type detection,
    as opposed to the events [handle_rules] itself records. *)
Definition external (e : event) : Prop :=
  match e with
  | EvMatchingRule _ | EvMatchCall _ _ | EvRuleMatched _
  | EvExecutingAction _ _ _ | EvNoRuleMatched => False
  | _ => True
  end.

(** The events of the match loop of a rule: clause calls and what the
    clauses do outside. *)
Definition during_match (e : event) : Prop :=
  match e with
  | EvMatchCall _ _ => True
  | _ => external e
  end.

(** The clause calls a trace records, in order. *)
Definition match_call (e : event) : option (string * list arg_item) :=
  match e with
  | EvMatchCall clause arguments => Some (clause, arguments)
  | _ => None
  end.

Definition match_calls (tr : trace) : list (string * list arg_item) :=
  omap match_call tr.

Definition line_call (line : match_line) : string * list arg_item :=
  (match_key line, m_arguments line).

(** The actions a trace records as executed, in order. *)
Definition executing_action (e : event) : option (string * string * string) :=
  match e with
  | EvExecutingAction clause action name => Some (clause, action, name)
  | _ => None
  end.

Definition executing_actions (tr : trace) : list (string * string * string) :=
  omap executing_action tr.

Definition action_of (name : string) (line : action_line)
    : string * string * string :=
  (action_key line, a_action line, name).

(** The rules a trace records as tried, in order. *)
Definition matching_rule (e : event) : option string :=
  match e with
  | EvMatchingRule name => Some name
  | _ => None
  end.

Definition matching_rules (tr : trace) : list string := omap matching_rule tr.

(** The detections a trace records, in order. *)
Definition detection (e : event) : option (pyval * string) :=
  match e with
  | EvDetect kind var => Some (kind, var)
  | _ => None
  end.

Definition detections (tr : trace) : list (pyval * string) := omap detection tr.

(** [reaches cap rules msg0 cache0 tr0 k msg cache tr]: the loop of
    [handle_rules], started on [msg0], [cache0] and [tr0], comes to try the
    rule of index [k] with message [msg], cache [cache] and trace [tr];
    that is, every rule before had a match clause that returned false. *)
Inductive reaches (cap : Capabilities) (rules : list rule)
    (msg0 : ElasticDict.t) (cache0 : cache_t) (tr0 : trace)
    : nat → ElasticDict.t → cache_t → trace → Prop :=
  | reaches_first : reaches cap rules msg0 cache0 tr0 O msg0 cache0 tr0
  | reaches_next k r msg cache tr msg' cache' tr' :
      reaches cap rules msg0 cache0 tr0 k msg cache tr →
      rules !! k = Some r →
      run_match_lines cap (match_lines r) msg cache
        (tr ++ [EvMatchingRule (rule_name r)]) = (Ok (false, msg', cache'), tr') →
      reaches cap rules msg0 cache0 tr0 (S k) (ElasticDict.reverse msg') cache' tr'.


(** The number of commas of a substitution. *)
Fixpoint commas (s : string) : nat :=
  match s with
  | EmptyString => O
  | String c s' => (if decide (c = ","%char) then 1 else 0) + commas s'
  end.

(** [re.search] accepts the pattern: it does not raise on it. *)
Definition compiles (cap : Capabilities) (t pattern : string) : Prop :=
  ∃ r, re_search cap pattern t = Ok r.

(** [re.search(pattern, t)] finds a match. *)
Definition re_matches (cap : Capabilities) (t pattern : string) : Prop :=
  ∃ groups, re_search cap pattern t = Ok (Some groups).

(** ** Concrete messages and rules *)

(** The message [main] builds for kind raw and data "foo1bar2". *)
Definition scenario_msg : ElasticDict.t :=
  ElasticDict.new {[ "kind" := VKind raw; "data" := VStr "foo1bar2" ]}.

(** The rule [test] of the end-to-end scenario. *)
Definition scenario_rule : rule :=
  Rule "test"
    [MatchLine "kind" "is" [AStr "raw"];
     MatchLine "arg" "matches" [AStr "{data}"; AList ["foo(.)bar(.)"]]]
    [ActionLine "plumb" "run" "echo {\0}{\1}"].

(** A rule whose match clause refers to a variable no message has. *)
Definition missing_rule : rule :=
  Rule "r"
    [MatchLine "arg" "matches" [AStr "{nosuch}"; AList ["foo"]]]
    [ActionLine "plumb" "run" "true"].

(** A rule that does not match [scenario_msg]. *)
Definition text_rule : rule :=
  Rule "text only"
    [MatchLine "arg" "matches" [AStr "{data}"; AList ["foo(.)"]];
     MatchLine "kind" "is" [AStr "text"];
     MatchLine "arg" "is" [AStr "{data}"; AList ["foo1bar2"]]]
    [ActionLine "plumb" "run" "editor {data}"].

(** The message of the rewrite test. *)
Definition oolong_msg : ElasticDict.t :=
  ElasticDict.new {[ "data" := VStr "oolong"; "kind" := VKind raw ]}.

(** A message of kind text, whose type needs no collaborator. *)
Definition text_msg : ElasticDict.t :=
  ElasticDict.new {[ "kind" := VKind text; "data" := VStr "hello" ]}.

(** The cache at the start of a run, and a cache that knows "hello". *)
Definition empty_cache : cache_t := {[ "type" := ∅ ]}.

Definition hello_cache : cache_t := {[ "type" := {[ "hello" := "text/plain" ]} ]}.

(** [emits_post P Q c]: [c] only appends events that satisfy [P], and
    when it returns, its result satisfies [Q]. *)
Definition emits_post {A} (P : event → Prop) (Q : A → Prop) (c : M A) : Prop :=
  ∀ tr, ∃ evs, (c tr).2 = tr ++ evs ∧ Forall P evs ∧ ∀ a, (c tr).1 = Ok a → Q a.

(** A notification, if [e] is one, has the title [title]. *)
Definition titled (title : pyval) (e : event) : Prop :=
  match e with
  | EvNotify t _ => t = title
  | _ => True
  end.

(** A notification, if [e] is one, is titled with the name of one of the
    rules. *)
Definition titled_by_rule (rules : list rule) (e : event) : Prop :=
  match e with
  | EvNotify t _ => ∃ r, r ∈ rules ∧ t = VStr (rule_name r)
  | _ => True
  end.

(** The events of a match loop: the clause calls, the detections and the
    requests of the detection to its collaborators. *)
Definition from_match (e : event) : Prop :=
  match e with
  | EvMatchCall _ _ | EvDetect _ _ | EvHttpHead _ | EvMagic _ => True
  | _ => False
  end.

(** The message an action returns still has the rule name [name]. *)
Definition keeps_rule_name (name : string) (r : action_result) : Prop :=
  ElasticDict.get "rule_name" r.2 = Ok (VStr name).

(** The type cache is there and holds no empty type. *)
Definition cache_ok (cache : cache_t) : Prop :=
  ∃ type_cache,
    cache !! "type" = Some type_cache
    ∧ ∀ arg ty, type_cache !! arg = Some ty → ty ≠ "".

(** [v] has the shape of a reference: it opens with a brace, its last
    character is a closing brace, and it has no closing brace before. *)
Definition is_reference (v : string) : Prop :=
  ∃ n, String.get 0 v = Some "{"%char
       ∧ String.get (S n) v = Some "}"%char
       ∧ String.get (S (S n)) v = None
       ∧ ∀ j, (j ≤ n)%nat → String.get j v ≠ Some "}"%char.

(** Collaborators among which the program to run does not exist. *)
Definition no_program_cap : Capabilities := {|
  re_search := SmallRe.search;
  guess_type := fun _ => None;
  http_head := fun _ _ => Some "text/html; charset=utf-8";
  magic_from_buffer := fun _ _ => Ok None;
  subprocess_call := fun _ _ => FileNotFound "No such file or directory";
  notify_show := fun _ _ _ => Ok tt;
  temp_file := fun _ => Ok "/tmp/plumber-temp-0";
  http_download := fun _ _ => DownloadOSError
|}.

(** A message of kind url. *)
Definition url_msg : ElasticDict.t :=
  ElasticDict.new {[ "kind" := VKind url; "data" := VStr "http://example.org/page";
                     "netloc" := VStr "example.org"; "netpath" := VStr "/page" ]}.

(** ** One action of the action loop *)

(** The body of the action loop for one line: the log line, the escaping
    of the action, the lookup [action_clauses[obj + ' ' + verb]] and the
    call [f(msg, action)]. *)
Definition call_action_clause (cap : Capabilities) (name : string)
    (line : action_line) (msg : ElasticDict.t) : M action_result :=
  emit (EvExecutingAction (action_key line) (a_action line) name) ;;;
  match action_clauses cap (action_key line) with
  | None => raise (KeyError (action_key line))
  | Some f => f msg (escape_match_group_references (a_action line))
  end.

(** [actions_succeed cap name lines msg tr msg' tr']: called one after the
    other from the message [msg] and the trace [tr], each on the message
    the one before returned, the actions [lines] all return true, and they
    leave the message [msg'] and the trace [tr']. *)
Inductive actions_succeed (cap : Capabilities) (name : string)
    : list action_line → ElasticDict.t → trace → ElasticDict.t → trace → Prop :=
  | actions_succeed_nil msg tr : actions_succeed cap name [] msg tr msg tr
  | actions_succeed_cons line rest msg tr msg1 tr1 msg2 tr2 :
      call_action_clause cap name line msg tr = (Ok (true, msg1), tr1) →
      actions_succeed cap name rest msg1 tr1 msg2 tr2 →
      actions_succeed cap name (line :: rest) msg tr msg2 tr2.

(** [ran tr0 tr tried acts]: the trace [tr] extends [tr0] by a run that
    tried the rules named [tried] and executed the actions [acts], in
    order, and no others. *)
Definition ran (tr0 tr : trace) (tried : list string)
    (acts : list (string * string * string)) : Prop :=
  ∃ evs, tr = tr0 ++ evs
         ∧ matching_rules evs = tried
         ∧ executing_actions evs = acts.

(** Collaborators among which the program "false" exits with status 1
    and every other program with status 0. *)
Definition exit_cap : Capabilities := {|
  re_search := SmallRe.search;
  guess_type := fun _ => None;
  http_head := fun _ _ => None;
  magic_from_buffer := fun _ _ => Ok None;
  subprocess_call := fun _ argv =>
    if decide (argv = ["false"]) then Exited 1 else Exited 0;
  notify_show := fun _ _ _ => Ok tt;
  temp_file := fun _ => Ok "/tmp/plumber-temp-0";
  http_download := fun _ _ => DownloadOSError
|}.

(** Collaborators without a usable libmagic binding. *)
Definition no_magic_cap : Capabilities := {|
  re_search := SmallRe.search;
  guess_type := fun _ => None;
  http_head := fun _ _ => None;
  magic_from_buffer := fun _ _ => Raise SystemExit;
  subprocess_call := fun _ _ => Exited 0;
  notify_show := fun _ _ _ => Ok tt;
  temp_file := fun _ => Ok "/tmp/plumber-temp-0";
  http_download := fun _ _ => DownloadOSError
|}.

(** A rule that matches [scenario_msg] and whose second action fails,
    and a rule after it that would match too. *)
Definition failing_rule : rule :=
  Rule "first"
    [MatchLine "kind" "is" [AStr "raw"]]
    [ActionLine "plumb" "run" "true";
     ActionLine "plumb" "run" "false";
     ActionLine "plumb" "run" "echo never"].

Definition later_rule : rule :=
  Rule "later"
    [MatchLine "kind" "is" [AStr "raw"]]
    [ActionLine "plumb" "run" "late"].

(** A rule that finds the type of the data and then fails on the kind of
    [text_msg]. *)
Definition typed_rule : rule :=
  Rule "typed"
    [MatchLine "arg" "istype" [AStr "{data}"; AList ["text/plain"]];
     MatchLine "kind" "is" [AStr "raw"]]
    [ActionLine "plumb" "run" "editor"].

(** ** Classes of strings *)

(** No brace in [s]. *)
Definition no_braces (s : string) : bool :=
  negb (PyStr.mem_char "{" s) && negb (PyStr.mem_char "}" s).

(** Every character of [s] may stand in a plain replacement field: no
    brace and none of the characters that start an attribute, an index, a
    conversion or a format spec. *)
Fixpoint field_chars (s : string) : bool :=
  match s with
  | EmptyString => true
  | String c s' => negb (PyStr.mem_char c "{}.[!:") && field_chars s'
  end.

(** [int(s)] for a string of decimal digits, continuing from [a]. *)
Fixpoint decimal_value (s : string) (a : nat) : nat :=
  match s with
  | EmptyString => a
  | String c s' => decimal_value s' (10 * a + (nat_of_ascii c - 48))
  end.

(** ** Checks of the built-ins on concrete inputs *)

Example replace_oolong :
  PyStr.replace "g" "g jing" (PyStr.replace "oo" "le" "oolong") = "lelong jing".
Proof. reflexivity. Qed.

Example replace_empty_old : PyStr.replace "" "-" "abc" = "-a-b-c-".
Proof. reflexivity. Qed.

Example replace_overlap : PyStr.replace "aa" "b" "aaaaa" = "bba".
Proof. reflexivity. Qed.

Example split_two : PyStr.split "," 2 "a,b,c,d" = ["a"; "b"; "c,d"].
Proof. reflexivity. Qed.

Example split_none : PyStr.split "," 2 "jing" = ["jing"].
Proof. reflexivity. Qed.

Example split_ws_ex : PyStr.split_ws "  echo  {\0}{\1} " = ["echo"; "{\0}{\1}"].
Proof. reflexivity. Qed.

Example strip_ex : PyStr.strip "{}" "{data}" = "data".
Proof. reflexivity. Qed.

Example of_nat_ex : PyStr.of_nat 120 = "120".
Proof. reflexivity. Qed.

Example format_data :
  PyFormat.format "/bla/{data}/bla.py" {[ "data" := VStr "x" ]} = Ok "/bla/x/bla.py".
Proof. reflexivity. Qed.

Example format_missing :
  PyFormat.format "a{nosuch}" {[ "data" := VStr "x" ]} = Raise (KeyError "nosuch").
Proof. reflexivity. Qed.

Example format_positional :
  PyFormat.format "{0}" {[ "data" := VStr "x" ]} = Raise IndexError.
Proof. reflexivity. Qed.

Example format_kind :
  PyFormat.format "{kind}" {[ "kind" := VKind raw ]} = Ok "Kind.raw".
Proof. reflexivity. Qed.

Example backslash_is_one_character : String.length "\0" = 2%nat.
Proof. reflexivity. Qed.

Example escape_ex :
  escape_match_group_references "echo {0}{12} {data} {\1} {}" = "echo {\0}{\12} {data} {\1} {\}".
Proof. reflexivity. Qed.

Example escape_unicode_digits :
  escape_match_group_references "{٣} {12} {a1} {}" = "{\٣} {\12} {a1} {\}".
Proof. reflexivity. Qed.

Example escape_more_digits :
  escape_match_group_references "{０} {𝟎𝟗} {²} {1٣} {٣a}"
  = "{\０} {\𝟎𝟗} {²} {\1٣} {٣a}".
Proof. reflexivity. Qed.

Example format_superscript_is_a_name :
  PyFormat.format "{²}" {[ "data" := VStr "x" ]} = Raise (KeyError "²").
Proof. reflexivity. Qed.

Example format_mixed_digits :
  PyFormat.format "{1٣}" {[ "data" := VStr "x" ]} = Raise IndexError.
Proof. reflexivity. Qed.

Example format_unicode_index :
  PyFormat.format "{٣}" {[ "data" := VStr "x" ]} = Raise IndexError.
Proof. reflexivity. Qed.

Example format_index_maxsize :
  PyFormat.format "{9223372036854775807}" {[ "data" := VStr "x" ]}
  = Raise IndexError.
Proof. reflexivity. Qed.

Example format_index_too_large :
  PyFormat.format "{9223372036854775808}" {[ "data" := VStr "x" ]}
  = Raise ValueError.
Proof. reflexivity. Qed.

Example format_index_leading_zeros :
  PyFormat.format "{00000000000000000000000001}" {[ "data" := VStr "x" ]}
  = Raise IndexError.
Proof. reflexivity. Qed.

Example format_escaped_unicode_digit :
  PyFormat.format "{\٣}" {[ "\٣" := VStr "x" ]} = Ok "x".
Proof. reflexivity. Qed.

(** U+00A0, the no-break space, is white space for [str.split()]. *)
Example split_ws_no_break_space :
  PyStr.split_ws
    ("echo" +:+ String (ascii_of_nat 194) (String (ascii_of_nat 160) "a b"))
  = ["echo"; "a"; "b"].
Proof. reflexivity. Qed.

(** U+3000 and U+0085 are white space, U+200B is not. *)
Example split_ws_unicode :
  PyStr.split_ws
    ("a b　c​d" +:+ String (ascii_of_nat 194) (String (ascii_of_nat 133) "e"))
  = ["a"; "b"; "c​d"; "e"].
Proof. reflexivity. Qed.

Example split_ws_keeps_letters : PyStr.split_ws "čaj  ćla" = ["čaj"; "ćla"].
Proof. reflexivity. Qed.

Example chars_ex : PyStr.chars "aéb" = ["a"; "é"; "b"].
Proof. reflexivity. Qed.

Example replace_empty_old_unicode : PyStr.replace "" "-" "aéb" = "-a-é-b-".
Proof. reflexivity. Qed.

Example get_var_references_basic : get_var_references "{0}" = ["{0}"].
Proof. reflexivity. Qed.

Example get_var_references_multiple_vars :
  get_var_references "{0}www{1}foo {abc}" = ["{0}"; "{1}"; "{abc}"].
Proof. reflexivity. Qed.

Example small_re_groups :
  SmallRe.search "foo(.)bar(.)" "xfoo1bar2y" = Ok (Some [Some "1"; Some "2"]).
Proof. reflexivity. Qed.

Example small_re_nested :
  SmallRe.search "a((.)c)" "zabc" = Ok (Some [Some "bc"; Some "b"]).
Proof. reflexivity. Qed.

(** The dot takes one character, of however many bytes. *)
Example small_re_dot_character :
  SmallRe.search "a(.)b" "čaéb" = Ok (Some [Some "é"]).
Proof. reflexivity. Qed.

Example small_re_unclosed_group : SmallRe.search "(" "text/plain" = Raise ReError.
Proof. reflexivity. Qed.

Example small_re_no_match : SmallRe.search "eggs" "spam" = Ok None.
Proof. reflexivity. Qed.

(** * Properties of the evaluator *)

(** ** Undoing the message dictionary *)

Section ElasticDictFacts.

Implicit Types (d : ElasticDict.t) (m : gmap string pyval).

Lemma undo_entry_set m key value :
  ElasticDict.undo_entry (<[key := value]> m)
    (match m !! key with
     | None => ElasticDict.UndoInsert key
     | Some prior => ElasticDict.UndoUpdate key prior
     end) = m.
Proof.
  destruct (m !! key) as [prior|] eqn:Hkey; simpl.
  - rewrite insert_insert_eq. by apply insert_id.
  - rewrite delete_insert_eq. by apply delete_id.
Qed.

Lemma reverse_set key value d :
  ElasticDict.reverse (ElasticDict.set key value d) = ElasticDict.reverse d.
Proof.
  unfold ElasticDict.reverse, ElasticDict.set; simpl.
  by rewrite undo_entry_set.
Qed.

Lemma reverse_update items d :
  ElasticDict.reverse (ElasticDict.update items d) = ElasticDict.reverse d.
Proof.
  unfold ElasticDict.update. revert d.
  induction items as [|kv items IH]; intros d; simpl; [done|].
  by rewrite IH, reverse_set.
Qed.

Lemma reverse_empty_log d : ElasticDict.log d = [] → ElasticDict.reverse d = d.
Proof. destruct d as [m l]; simpl; intros ->. done. Qed.

Lemma reverse_new m : ElasticDict.reverse (ElasticDict.new m) = ElasticDict.new m.
Proof. done. Qed.

Lemma reverse_reverse d :
  ElasticDict.reverse (ElasticDict.reverse d) = ElasticDict.reverse d.
Proof. done. Qed.

End ElasticDictFacts.

(** ** Stepping through computations *)

Section MonadFacts.

Context {A B : Type}.

Lemma bind_ok (c : M A) (k : A → M B) tr b tr' :
  bind c k tr = (Ok b, tr') →
  ∃ a tr1, c tr = (Ok a, tr1) ∧ k a tr1 = (Ok b, tr').
Proof.
  unfold bind. destruct (c tr) as [[a|e] tr1]; [eauto|discriminate].
Qed.

Lemma bind_eq_ok (c : M A) (k : A → M B) tr a tr1 :
  c tr = (Ok a, tr1) → bind c k tr = k a tr1.
Proof. unfold bind. by intros ->. Qed.

Lemma bind_eq_raise (c : M A) (k : A → M B) tr e tr1 :
  c tr = (Raise e, tr1) → bind c k tr = (Raise e, tr1).
Proof. unfold bind. by intros ->. Qed.

Lemma lift_ok (r : res A) tr a tr' :
  lift r tr = (Ok a, tr') → r = Ok a ∧ tr' = tr.
Proof. unfold lift. by intros [= -> ->]. Qed.

Lemma ret_ok (a a' : A) tr tr' :
  ret a tr = (Ok a', tr') → a' = a ∧ tr' = tr.
Proof. unfold ret. by intros [= -> ->]. Qed.

Lemma raise_ok e tr (a : A) tr' : raise e tr = (Ok a, tr') → False.
Proof. unfold raise. discriminate. Qed.

End MonadFacts.

Lemma emit_ok e tr u tr' : emit e tr = (Ok u, tr') → tr' = tr ++ [e].
Proof. unfold emit. by intros [= <- <-]. Qed.

Lemma history_ok tr h tr' : history tr = (Ok h, tr') → h = tr ∧ tr' = tr.
Proof. unfold history. by intros [= <- <-]. Qed.

(** Take apart a hypothesis saying that a computation returned. *)
Ltac minv_step :=
  match goal with
  | H : bind _ _ _ = (Ok _, _) |- _ =>
      let a := fresh "a" in let tr := fresh "tr" in let Ha := fresh "Hstep" in
      apply bind_ok in H; destruct H as (a & tr & Ha & H)
  | H : lift _ _ = (Ok _, _) |- _ => apply lift_ok in H; destruct H as [H ?]; subst
  | H : ret _ _ = (Ok _, _) |- _ => apply ret_ok in H; destruct H as [H ?]; subst
  | H : raise _ _ = (Ok _, _) |- _ => by apply raise_ok in H
  | H : emit _ _ = (Ok _, _) |- _ => apply emit_ok in H; subst
  | H : history _ = (Ok _, _) |- _ => apply history_ok in H; destruct H as [? ?]; subst
  | H : Ok _ = Ok _ |- _ => injection H as H
  | H : (_, _) = (_, _) |- _ => injection H as ? ?; subst
  end.

Ltac minv := repeat minv_step.

(** The same, also splitting on what the computation branches on. *)
Ltac mcase :=
  match goal with
  | H : (match ?x with _ => _ end) _ = (Ok _, _) |- _ => destruct x eqn:?
  end.

Ltac mauto := repeat (minv_step || mcase).

(** ** What a computation adds to the trace *)

Section EmitsFacts.

Context {A B : Type} (P : event → Prop).

Lemma emits_ret (a : A) : emits P (ret a).
Proof. intros tr. exists []. by rewrite app_nil_r. Qed.

Lemma emits_raise e : emits P (raise (A := A) e).
Proof. intros tr. exists []. by rewrite app_nil_r. Qed.

Lemma emits_lift (r : res A) : emits P (lift r).
Proof. intros tr. exists []. by rewrite app_nil_r. Qed.

Lemma emits_bind (c : M A) (k : A → M B) :
  emits P c → (∀ a, emits P (k a)) → emits P (bind c k).
Proof.
  intros Hc Hk tr. unfold bind.
  destruct (Hc tr) as (evs & Heq & Hevs).
  destruct (c tr) as [[a|e] tr1]; simpl in *; subst.
  - destruct (Hk a (tr ++ evs)) as (evs' & -> & Hevs').
    exists (evs ++ evs'). rewrite app_assoc. split; [done|].
    by apply Forall_app.
  - by exists evs.
Qed.

End EmitsFacts.

Lemma emits_history P : emits P history.
Proof. intros tr. exists []. by rewrite app_nil_r. Qed.

Lemma emits_emit (P : event → Prop) e : P e → emits P (emit e).
Proof. intros He tr. exists [e]. split; [done|]. by constructor. Qed.

Lemma emits_weaken {A} (P Q : event → Prop) (c : M A) :
  (∀ e, P e → Q e) → emits P c → emits Q c.
Proof.
  intros HPQ Hc tr. destruct (Hc tr) as (evs & ? & Hevs).
  exists evs. split; [done|]. eapply Forall_impl; eauto.
Qed.

Ltac emits_step :=
  first
    [ apply emits_ret | apply emits_raise | apply emits_lift
    | apply emits_history
    | apply emits_emit; exact I
    | apply emits_bind; [|intros ?]
    | match goal with
      | |- emits _ (match ?x with _ => _ end) => destruct x
      | |- emits _ (if ?b then _ else _) => destruct b
      | |- emits _ (let '(_, _) := ?x in _) => destruct x
      end ].

Section ClauseEvents.

Variable cap : Capabilities.

Lemma kind_is_func_external msg arguments cache :
  emits external (kind_is_func msg arguments cache).
Proof. unfold kind_is_func. repeat emits_step. Qed.

Lemma arg_is_func_external msg arguments cache :
  emits external (arg_is_func msg arguments cache).
Proof. unfold arg_is_func. repeat emits_step. Qed.

Lemma arg_matches_loop_external patterns arg msg cache :
  emits external (arg_matches_loop cap patterns arg msg cache).
Proof.
  induction patterns as [|p ps IH]; simpl; repeat emits_step. apply IH.
Qed.

Lemma arg_matches_func_external msg arguments cache :
  emits external (arg_matches_func cap msg arguments cache).
Proof.
  unfold arg_matches_func. repeat emits_step.
  apply arg_matches_loop_external.
Qed.

Lemma arg_rewrite_func_external msg arguments cache :
  emits external (arg_rewrite_func msg arguments cache).
Proof. unfold arg_rewrite_func. repeat emits_step. Qed.

Lemma detect_mimetype_external kind var :
  emits external (detect_mimetype cap kind var).
Proof.
  unfold detect_mimetype, lookup_content_type, mime_from_buffer.
  repeat emits_step.
Qed.

Lemma cached_or_detected_external msg type_cache arg :
  emits external (cached_or_detected cap msg type_cache arg).
Proof.
  unfold cached_or_detected. repeat emits_step.
  apply detect_mimetype_external.
Qed.

Lemma arg_istype_func_external msg arguments cache :
  emits external (arg_istype_func cap msg arguments cache).
Proof.
  unfold arg_istype_func.
  repeat first [apply cached_or_detected_external | emits_step].
Qed.

Lemma match_clauses_external key f msg arguments cache :
  match_clauses cap key = Some f → emits external (f msg arguments cache).
Proof.
  unfold match_clauses. intros Hf.
  repeat case_decide; simplify_eq;
    auto using kind_is_func_external, arg_is_func_external,
      arg_istype_func_external, arg_matches_func_external,
      arg_rewrite_func_external.
Qed.

Lemma plumb_run_func_external msg s : emits external (plumb_run_func cap msg s).
Proof. unfold plumb_run_func. repeat emits_step. Qed.

Lemma plumb_notify_func_external msg s : emits external (plumb_notify_func cap msg s).
Proof. unfold plumb_notify_func. repeat emits_step. Qed.

Lemma plumb_save_func_external msg s : emits external (plumb_save_func cap msg s).
Proof. unfold plumb_save_func. repeat emits_step. Qed.

Lemma plumb_download_func_external msg s :
  emits external (plumb_download_func cap msg s).
Proof. unfold plumb_download_func. repeat emits_step. Qed.

Lemma action_clauses_external key f msg action :
  action_clauses cap key = Some f → emits external (f msg action).
Proof.
  unfold action_clauses. intros Hf.
  repeat case_decide; simplify_eq;
    auto using plumb_run_func_external, plumb_notify_func_external,
      plumb_save_func_external, plumb_download_func_external.
Qed.

End ClauseEvents.

(** External events are none of the events [handle_rules] records. *)
Section Projections.

Lemma match_calls_external evs : Forall external evs → match_calls evs = [].
Proof.
  unfold match_calls. induction 1 as [|e evs He _ IH]; [done|].
  destruct e; simpl in *; done.
Qed.

Lemma executing_actions_external evs :
  Forall external evs → executing_actions evs = [].
Proof.
  unfold executing_actions. induction 1 as [|e evs He _ IH]; [done|].
  destruct e; simpl in *; done.
Qed.

Lemma matching_rules_external evs :
  Forall external evs → matching_rules evs = [].
Proof.
  unfold matching_rules. induction 1 as [|e evs He _ IH]; [done|].
  destruct e; simpl in *; done.
Qed.

Lemma match_calls_app tr1 tr2 :
  match_calls (tr1 ++ tr2) = match_calls tr1 ++ match_calls tr2.
Proof. apply omap_app. Qed.

Lemma executing_actions_app tr1 tr2 :
  executing_actions (tr1 ++ tr2) = executing_actions tr1 ++ executing_actions tr2.
Proof. apply omap_app. Qed.

Lemma matching_rules_app tr1 tr2 :
  matching_rules (tr1 ++ tr2) = matching_rules tr1 ++ matching_rules tr2.
Proof. apply omap_app. Qed.

End Projections.

(** ** The match loop *)

Section MatchLoop.

Variable cap : Capabilities.

(** A clause call that returns has recorded the call and, after it,
    external events only. *)
Lemma call_match_clause_trace line msg cache tr :
  ∃ evs, (call_match_clause cap line msg cache tr).2 = tr ++ evs
         ∧ Forall (λ e, external e ∨ e = EvMatchCall (match_key line) (m_arguments line)) evs
         ∧ ∀ r, (call_match_clause cap line msg cache tr).1 = Ok r →
                match_calls evs = [line_call line].
Proof.
  unfold call_match_clause.
  destruct (match_clauses cap (match_key line)) as [f|] eqn:Hf.
  - destruct (match_clauses_external cap _ _ msg (m_arguments line) cache Hf
                (tr ++ [EvMatchCall (match_key line) (m_arguments line)]))
      as (evs & Heq & Hevs).
    exists (EvMatchCall (match_key line) (m_arguments line) :: evs).
    unfold bind, emit. simpl.
    destruct (f msg (m_arguments line) cache _) as [[r|e] tr1]; simpl in *;
      subst; rewrite <- app_assoc; simpl; (split; [done|]); split.
    + constructor; [by right|]. eapply Forall_impl; [exact Hevs|]. intros ? ?; by left.
    + intros _ _. unfold match_calls; simpl.
      fold (match_calls evs). by rewrite match_calls_external.
    + constructor; [by right|]. eapply Forall_impl; [exact Hevs|]. intros ? ?; by left.
    + discriminate.
  - exists []. rewrite app_nil_r. simpl. split; [done|]. split; [done|].
    discriminate.
Qed.

Lemma call_match_clause_calls line msg cache tr r tr' :
  call_match_clause cap line msg cache tr = (Ok r, tr') →
  ∃ evs, tr' = tr ++ evs ∧ match_calls evs = [line_call line].
Proof.
  intros Hcall.
  destruct (call_match_clause_trace line msg cache tr) as (evs & Heq & _ & Hcalls).
  rewrite Hcall in Heq, Hcalls. simpl in *. eauto.
Qed.

Lemma run_match_lines_cons line rest msg cache tr b msg1 cache1 tr1 :
  call_match_clause cap line msg cache tr = (Ok (b, msg1, cache1), tr1) →
  run_match_lines cap (line :: rest) msg cache tr =
    if b then run_match_lines cap rest msg1 cache1 tr1
    else (Ok (false, msg1, cache1), tr1).
Proof.
  intros Hcall. simpl. rewrite (bind_eq_ok _ _ _ _ _ Hcall).
  by destruct b.
Qed.

Lemma run_match_lines_cons_inv line rest msg cache tr b msg' cache' tr' :
  run_match_lines cap (line :: rest) msg cache tr = (Ok (b, msg', cache'), tr') →
  ∃ b1 msg1 cache1 tr1,
    call_match_clause cap line msg cache tr = (Ok (b1, msg1, cache1), tr1)
    ∧ (if b1 then run_match_lines cap rest msg1 cache1 tr1
                  = (Ok (b, msg', cache'), tr')
       else b = false ∧ msg' = msg1 ∧ cache' = cache1 ∧ tr' = tr1).
Proof.
  simpl. intros H. apply bind_ok in H as ([[b1 msg1] cache1] & tr1 & Hcall & H).
  exists b1, msg1, cache1, tr1. split; [done|].
  destruct b1; [done|]. apply ret_ok in H as [[= -> -> ->] ->]. done.
Qed.

End MatchLoop.

(** C3. Short-circuit conjunction of the match clauses of a rule: when
    the clauses [pre] have all returned true and the next clause [line]
    returns false, the match loop over [pre ++ line :: post] ends right
    there, with the message, cache and trace that [line] left; the clause
    calls the trace records are those of [pre] and of [line], in declared
    order, and none of [post]. *)
Theorem match_clauses_short_circuit cap pre line post msg cache tr
    msg1 cache1 tr1 msg2 cache2 tr2 :
  run_match_lines cap pre msg cache tr = (Ok (true, msg1, cache1), tr1) →
  call_match_clause cap line msg1 cache1 tr1 = (Ok (false, msg2, cache2), tr2) →
  run_match_lines cap (pre ++ line :: post) msg cache tr
    = (Ok (false, msg2, cache2), tr2)
  ∧ ∃ evs, tr2 = tr ++ evs ∧ match_calls evs = line_call <$> (pre ++ [line]).
Proof.
  revert msg cache tr.
  induction pre as [|l pre IH]; intros msg cache tr Hpre Hline.
  - apply ret_ok in Hpre as [[= -> ->] ->].
    split.
    + simpl app. by rewrite (run_match_lines_cons _ _ _ _ _ _ _ _ _ _ Hline).
    + by apply call_match_clause_calls in Hline.
  - apply run_match_lines_cons_inv in Hpre
      as (b1 & msga & cachea & tra & Hl & Hrest).
    destruct b1; [|by destruct Hrest].
    destruct (IH _ _ _ Hrest Hline) as [Hrun (evs & -> & Hevs)].
    split.
    + simpl app. by rewrite (run_match_lines_cons _ _ _ _ _ _ _ _ _ _ Hl).
    + apply call_match_clause_calls in Hl as (evs0 & -> & Hevs0).
      exists (evs0 ++ evs). rewrite app_assoc. split; [done|].
      rewrite match_calls_app, Hevs0, Hevs. done.
Qed.

(** ** Match clauses change the message through [set] only *)

Section MatchReverse.

Variable cap : Capabilities.

Lemma kind_is_func_msg msg arguments cache tr b msg' cache' tr' :
  kind_is_func msg arguments cache tr = (Ok (b, msg', cache'), tr') →
  msg' = msg ∧ cache' = cache ∧ tr' = tr.
Proof. unfold kind_is_func. intros H. mauto; done. Qed.

Lemma arg_is_func_msg msg arguments cache tr b msg' cache' tr' :
  arg_is_func msg arguments cache tr = (Ok (b, msg', cache'), tr') →
  msg' = msg ∧ cache' = cache ∧ tr' = tr.
Proof. unfold arg_is_func. intros H. mauto; done. Qed.

Lemma arg_matches_loop_msg patterns arg msg cache tr b msg' cache' tr' :
  arg_matches_loop cap patterns arg msg cache tr = (Ok (b, msg', cache'), tr') →
  ElasticDict.reverse msg' = ElasticDict.reverse msg ∧ cache' = cache ∧ tr' = tr.
Proof.
  induction patterns as [|p ps IH]; simpl; intros H.
  - by apply ret_ok in H as [[= -> -> ->] ->].
  - minv. mcase; [|by apply IH].
    apply ret_ok in H as [[= -> -> ->] ->]. by rewrite reverse_update.
Qed.

Lemma arg_matches_func_msg msg arguments cache tr b msg' cache' tr' :
  arg_matches_func cap msg arguments cache tr = (Ok (b, msg', cache'), tr') →
  ElasticDict.reverse msg' = ElasticDict.reverse msg ∧ cache' = cache ∧ tr' = tr.
Proof.
  unfold arg_matches_func. intros H. minv. mcase. minv.
  by apply arg_matches_loop_msg in H.
Qed.

Lemma arg_rewrite_func_msg msg arguments cache tr b msg' cache' tr' :
  arg_rewrite_func msg arguments cache tr = (Ok (b, msg', cache'), tr') →
  ElasticDict.reverse msg' = ElasticDict.reverse msg ∧ cache' = cache ∧ tr' = tr
  ∧ b = true.
Proof.
  unfold arg_rewrite_func. intros H. mauto. by rewrite reverse_set.
Qed.

Lemma arg_istype_func_msg msg arguments cache tr b msg' cache' tr' :
  arg_istype_func cap msg arguments cache tr = (Ok (b, msg', cache'), tr') →
  ElasticDict.reverse msg' = ElasticDict.reverse msg.
Proof.
  unfold arg_istype_func. intros H. mauto; by rewrite ?reverse_update.
Qed.

Lemma match_clauses_reverse key f msg arguments cache tr b msg' cache' tr' :
  match_clauses cap key = Some f →
  f msg arguments cache tr = (Ok (b, msg', cache'), tr') →
  ElasticDict.reverse msg' = ElasticDict.reverse msg.
Proof.
  unfold match_clauses. intros Hf H.
  repeat case_decide; simplify_eq;
    first [ by apply kind_is_func_msg in H as (-> & _)
          | by apply arg_is_func_msg in H as (-> & _)
          | by apply arg_istype_func_msg in H
          | by apply arg_matches_func_msg in H as (? & _)
          | by apply arg_rewrite_func_msg in H as (? & _) ].
Qed.

Lemma call_match_clause_reverse line msg cache tr b msg' cache' tr' :
  call_match_clause cap line msg cache tr = (Ok (b, msg', cache'), tr') →
  ElasticDict.reverse msg' = ElasticDict.reverse msg.
Proof.
  unfold call_match_clause. intros H.
  destruct (match_clauses cap (match_key line)) as [f|] eqn:Hf;
    [|by apply raise_ok in H].
  minv. by eapply match_clauses_reverse.
Qed.

Lemma run_match_lines_reverse lines msg cache tr b msg' cache' tr' :
  run_match_lines cap lines msg cache tr = (Ok (b, msg', cache'), tr') →
  ElasticDict.reverse msg' = ElasticDict.reverse msg.
Proof.
  revert msg cache tr. induction lines as [|l lines IH]; intros msg cache tr H.
  - by apply ret_ok in H as [[= -> -> ->] ->].
  - apply run_match_lines_cons_inv in H as (b1 & msg1 & cache1 & tr1 & Hl & H).
    apply call_match_clause_reverse in Hl. rewrite <- Hl.
    destruct b1; [by eapply IH|]. by destruct H as (_ & -> & _).
Qed.

(** One failed rule: the loop goes on with the rest of the rules and the
    message it had when it came to this rule. *)
Lemma handle_rules_loop_failed r rest msg cache tr msg' cache' tr' :
  run_match_lines cap (match_lines r) msg cache
    (tr ++ [EvMatchingRule (rule_name r)]) = (Ok (false, msg', cache'), tr') →
  handle_rules_loop cap (r :: rest) msg cache tr
    = handle_rules_loop cap rest (ElasticDict.reverse msg) cache' tr'.
Proof.
  intros H. simpl. unfold bind at 1, emit at 1.
  rewrite (bind_eq_ok _ _ _ _ _ H).
  by rewrite (run_match_lines_reverse _ _ _ _ _ _ _ _ H).
Qed.

(** The loop from the start is the loop from wherever it has come to. *)
Lemma reaches_loop rules msg0 cache0 tr0 k msg cache tr :
  reaches cap rules msg0 cache0 tr0 k msg cache tr →
  handle_rules_loop cap rules msg0 cache0 tr0
    = handle_rules_loop cap (drop k rules) msg cache tr.
Proof.
  induction 1 as [|k r msg cache tr msg' cache' tr' Hreach IH Hr Hrun].
  - by rewrite drop_0.
  - rewrite IH. rewrite (drop_S _ _ _ Hr).
    rewrite (handle_rules_loop_failed _ _ _ _ _ _ _ _ Hrun).
    by rewrite (run_match_lines_reverse _ _ _ _ _ _ _ _ Hrun).
Qed.

Lemma reaches_reverse rules msg0 cache0 tr0 k msg cache tr :
  reaches cap rules msg0 cache0 tr0 k msg cache tr →
  msg = msg0 ∨ msg = ElasticDict.reverse msg0.
Proof.
  induction 1 as [|k r msg cache tr msg' cache' tr' Hreach IH Hr Hrun];
    [by left|right].
  rewrite (run_match_lines_reverse _ _ _ _ _ _ _ _ Hrun).
  by destruct IH as [->| ->].
Qed.

End MatchReverse.

(** C1. Rollback atomicity.  The message dictionary that [main] hands to
    [handle_rules] is a fresh [ElasticDict]; whenever the loop comes to
    try a rule, all rules before it having failed to match, the message
    is that fresh dictionary again, with the same keys and values and an
    empty undo log, and the run is the run of the remaining rules on it:
    a failed rule leaves nothing behind in the message. *)
Theorem rollback_atomicity cap (m : gmap string pyval) rules tr0 k msg cache tr :
  reaches cap rules (ElasticDict.new m) {[ "type" := ∅ ]} tr0 k msg cache tr →
  msg = ElasticDict.new m
  ∧ handle_rules cap (ElasticDict.new m) rules tr0
      = handle_rules_loop cap (drop k rules) (ElasticDict.new m) cache tr.
Proof.
  intros Hreach.
  assert (msg = ElasticDict.new m) as ->.
  { by destruct (reaches_reverse _ _ _ _ _ _ _ _ _ Hreach) as [->| ->]. }
  split; [done|]. unfold handle_rules. by apply reaches_loop.
Qed.

(** ** The rule loop *)

Section RuleLoop.

Variable cap : Capabilities.

Lemma during_match_quiet evs :
  Forall during_match evs →
  executing_actions evs = [] ∧ matching_rules evs = [].
Proof.
  unfold executing_actions, matching_rules.
  induction 1 as [|e evs He _ [IH1 IH2]]; [done|].
  destruct e; simpl in *; done.
Qed.

Lemma call_match_clause_during_match line msg cache :
  emits during_match (call_match_clause cap line msg cache).
Proof.
  intros tr.
  destruct (call_match_clause_trace cap line msg cache tr) as (evs & Heq & Hevs & _).
  exists evs. split; [done|]. eapply Forall_impl; [exact Hevs|].
  intros e [He| ->]; [by destruct e|done].
Qed.

Lemma run_match_lines_during_match lines msg cache :
  emits during_match (run_match_lines cap lines msg cache).
Proof.
  revert msg cache. induction lines as [|l lines IH]; intros msg cache; simpl.
  - apply emits_ret.
  - apply emits_bind; [apply call_match_clause_during_match|].
    intros [[[] msg1] cache1]; [apply IH|apply emits_ret].
Qed.

(** The action loop records a prefix of the action lines of the rule,
    and tries no rule. *)
Lemma run_action_lines_trace name lines msg tr :
  ∃ evs n, (run_action_lines cap name lines msg tr).2 = tr ++ evs
           ∧ executing_actions evs = action_of name <$> take n lines
           ∧ matching_rules evs = [].
Proof.
  revert msg tr. induction lines as [|l lines IH]; intros msg tr; simpl.
  - exists [], O. by rewrite app_nil_r.
  - unfold bind at 1, emit at 1.
    destruct (action_clauses cap (action_key l)) as [f|] eqn:Hf.
    + destruct (action_clauses_external cap _ _ msg
                  (escape_match_group_references (a_action l)) Hf
                  (tr ++ [EvExecutingAction (action_key l) (a_action l) name]))
        as (evs1 & Heq1 & Hevs1).
      unfold bind.
      destruct (f msg _ _) as [[[[] msg1]|e] tr1]; simpl in Heq1; subst tr1.
      * destruct (IH msg1 ((tr ++ [EvExecutingAction (action_key l) (a_action l) name]) ++ evs1))
          as (evs & n & -> & Hacts & Hrules).
        exists (EvExecutingAction (action_key l) (a_action l) name :: evs1 ++ evs), (S n).
        split; [by rewrite <- !app_assoc|].
        change (EvExecutingAction (action_key l) (a_action l) name :: evs1 ++ evs)
          with ([EvExecutingAction (action_key l) (a_action l) name] ++ evs1 ++ evs).
        rewrite !executing_actions_app, !matching_rules_app.
        rewrite (executing_actions_external evs1), (matching_rules_external evs1) by done.
        rewrite Hacts, Hrules. done.
      * exists (EvExecutingAction (action_key l) (a_action l) name :: evs1), 1%nat.
        split; [by rewrite <- !app_assoc|].
        change (EvExecutingAction (action_key l) (a_action l) name :: evs1)
          with ([EvExecutingAction (action_key l) (a_action l) name] ++ evs1).
        rewrite !executing_actions_app, !matching_rules_app.
        rewrite (executing_actions_external evs1), (matching_rules_external evs1) by done.
        done.
      * exists (EvExecutingAction (action_key l) (a_action l) name :: evs1), 1%nat.
        split; [by rewrite <- !app_assoc|].
        change (EvExecutingAction (action_key l) (a_action l) name :: evs1)
          with ([EvExecutingAction (action_key l) (a_action l) name] ++ evs1).
        rewrite !executing_actions_app, !matching_rules_app.
        rewrite (executing_actions_external evs1), (matching_rules_external evs1) by done.
        done.
    + exists [EvExecutingAction (action_key l) (a_action l) name], 1%nat.
      done.
Qed.

(** The loop on a rule that matches: its actions run and the loop ends. *)
Lemma handle_rules_loop_matched r rest msg cache tr msg1 cache1 tr1 :
  run_match_lines cap (match_lines r) msg cache
    (tr ++ [EvMatchingRule (rule_name r)]) = (Ok (true, msg1, cache1), tr1) →
  handle_rules_loop cap (r :: rest) msg cache tr
    = (msg2 <- run_action_lines cap (rule_name r) (action_lines r)
                 (ElasticDict.set "rule_name" (VStr (rule_name r)) msg1) ;;
       ret (msg2, cache1)) (tr1 ++ [EvRuleMatched (rule_name r)]).
Proof.
  intros H. simpl. unfold bind at 1, emit at 1.
  rewrite (bind_eq_ok _ _ _ _ _ H). done.
Qed.

(** Up to the rule the loop has come to, the trace records the rules
    before it as tried and no action as executed. *)
Lemma reaches_trace rules msg0 cache0 tr0 k msg cache tr :
  reaches cap rules msg0 cache0 tr0 k msg cache tr →
  ∃ evs, tr = tr0 ++ evs
         ∧ executing_actions evs = []
         ∧ matching_rules evs = rule_name <$> take k rules.
Proof.
  induction 1 as [|k r msg cache tr msg' cache' tr' Hreach IH Hr Hrun].
  - exists []. by rewrite app_nil_r, take_0.
  - destruct IH as (evs & -> & Hacts & Hrules).
    destruct (run_match_lines_during_match (match_lines r) msg cache
                ((tr0 ++ evs) ++ [EvMatchingRule (rule_name r)]))
      as (evs1 & Heq & Hevs1).
    rewrite Hrun in Heq. simpl in Heq. subst tr'.
    apply during_match_quiet in Hevs1 as [Hacts1 Hrules1].
    exists (evs ++ [EvMatchingRule (rule_name r)] ++ evs1).
    split; [by rewrite <- !app_assoc|].
    rewrite !executing_actions_app, !matching_rules_app.
    rewrite Hacts, Hacts1, Hrules, Hrules1.
    rewrite (take_S_r _ _ _ Hr), fmap_app. done.
Qed.

End RuleLoop.

Section FirstMatch.

Variable cap : Capabilities.

(** Whatever the rules and the message, the actions a run executes are
    a prefix of the action lines of one rule. *)
Lemma handle_rules_loop_actions rules msg cache tr :
  ∃ evs k n,
    (handle_rules_loop cap rules msg cache tr).2 = tr ++ evs
    ∧ executing_actions evs
      = from_option (λ r, action_of (rule_name r) <$> take n (action_lines r))
          [] (rules !! k).
Proof.
  revert msg cache tr. induction rules as [|r rest IH]; intros msg cache tr.
  - exists [EvNoRuleMatched], O, O. done.
  - destruct (run_match_lines_during_match cap (match_lines r) msg cache
                (tr ++ [EvMatchingRule (rule_name r)])) as (evs1 & Heq & Hevs1).
    apply during_match_quiet in Hevs1 as [Hacts1 _].
    destruct (run_match_lines cap (match_lines r) msg cache
                (tr ++ [EvMatchingRule (rule_name r)]))
      as [[[[[] msg1] cache1]|e] tr1] eqn:Hrun; simpl in Heq; subst tr1.
    + rewrite (handle_rules_loop_matched _ _ _ _ _ _ _ _ _ Hrun).
      destruct (run_action_lines_trace cap (rule_name r) (action_lines r)
                  (ElasticDict.set "rule_name" (VStr (rule_name r)) msg1)
                  (((tr ++ [EvMatchingRule (rule_name r)]) ++ evs1)
                     ++ [EvRuleMatched (rule_name r)]))
        as (evs2 & n & Heq2 & Hacts2 & _).
      exists ([EvMatchingRule (rule_name r)] ++ evs1
                ++ [EvRuleMatched (rule_name r)] ++ evs2), O, n.
      split.
      * unfold bind.
        destruct (run_action_lines _ _ _ _ _) as [[msg2|e] tr2];
          simpl in *; subst tr2; by rewrite <- !app_assoc.
      * rewrite !executing_actions_app, Hacts1, Hacts2. done.
    + rewrite (handle_rules_loop_failed _ _ _ _ _ _ _ _ _ Hrun).
      destruct (IH (ElasticDict.reverse msg) cache1
                  ((tr ++ [EvMatchingRule (rule_name r)]) ++ evs1))
        as (evs & k & n & -> & Hacts).
      exists ([EvMatchingRule (rule_name r)] ++ evs1 ++ evs), (S k), n.
      split; [by rewrite <- !app_assoc|].
      rewrite !executing_actions_app, Hacts1, Hacts. done.
    + exists ([EvMatchingRule (rule_name r)] ++ evs1), O, O.
      split.
      * simpl. unfold bind at 1, emit at 1.
        rewrite (bind_eq_raise _ _ _ _ _ Hrun). simpl. by rewrite <- !app_assoc.
      * rewrite !executing_actions_app, Hacts1. done.
Qed.

(** One turn of the action loop. *)
Lemma run_action_lines_cons name line rest msg tr :
  run_action_lines cap name (line :: rest) msg tr
  = match call_action_clause cap name line msg tr with
    | (Ok (true, msg1), tr1) => run_action_lines cap name rest msg1 tr1
    | (Ok (false, msg1), tr1) => (Ok msg1, tr1)
    | (Raise e, tr1) => (Raise e, tr1)
    end.
Proof.
  cbn [run_action_lines]. unfold call_action_clause, bind, emit, raise.
  destruct (action_clauses cap (action_key line)) as [f|]; [|done].
  by destruct (f _ _ _) as [[[[] msg1]|e] tr1].
Qed.

Lemma call_action_clause_trace name line msg tr :
  ∃ evs,
    (call_action_clause cap name line msg tr).2
    = tr ++ EvExecutingAction (action_key line) (a_action line) name :: evs
    ∧ Forall external evs.
Proof.
  unfold call_action_clause, bind, emit.
  destruct (action_clauses cap (action_key line)) as [f|] eqn:Hf.
  - destruct (action_clauses_external cap _ _ msg
                (escape_match_group_references (a_action line)) Hf
                (tr ++ [EvExecutingAction (action_key line) (a_action line) name]))
      as (evs & Heq & Hevs).
    exists evs. split; [|done]. rewrite Heq. by rewrite <- app_assoc.
  - exists []. done.
Qed.

(** Actions that return true are passed, and the loop goes on with the
    actions after them. *)
Lemma actions_succeed_run name pre rest msg tr msg2 tr2 :
  actions_succeed cap name pre msg tr msg2 tr2 →
  run_action_lines cap name (pre ++ rest) msg tr
  = run_action_lines cap name rest msg2 tr2.
Proof.
  induction 1 as [|line pre msg tr msg1 tr1 msg2 tr2 Hcall _ IH]; [done|].
  rewrite <- app_comm_cons, run_action_lines_cons, Hcall. exact IH.
Qed.

Lemma actions_succeed_trace name pre msg tr msg2 tr2 :
  actions_succeed cap name pre msg tr msg2 tr2 →
  ∃ evs, tr2 = tr ++ evs
         ∧ matching_rules evs = []
         ∧ executing_actions evs = action_of name <$> pre.
Proof.
  induction 1 as [|line pre msg tr msg1 tr1 msg2 tr2 Hcall _ IH].
  - exists []. by rewrite app_nil_r.
  - destruct (call_action_clause_trace name line msg tr) as (evs1 & Heq1 & Hevs1).
    rewrite Hcall in Heq1. simpl in Heq1. subst tr1.
    destruct IH as (evs & -> & Hrules & Hacts).
    exists ((EvExecutingAction (action_key line) (a_action line) name :: evs1) ++ evs).
    split; [by rewrite <- !app_assoc|].
    change (EvExecutingAction (action_key line) (a_action line) name :: evs1)
      with ([EvExecutingAction (action_key line) (a_action line) name] ++ evs1).
    rewrite !executing_actions_app, !matching_rules_app.
    rewrite (executing_actions_external evs1), (matching_rules_external evs1) by done.
    rewrite Hacts, Hrules. done.
Qed.

(** The trace of a run that has come to rule [k], matched it and called
    the actions [acts] of it. *)
Lemma ran_matched rules msg0 cache0 tr0 k r msg cache tr msg1 cache1 tr1 evs acts :
  reaches cap rules msg0 cache0 tr0 k msg cache tr →
  rules !! k = Some r →
  run_match_lines cap (match_lines r) msg cache
    (tr ++ [EvMatchingRule (rule_name r)]) = (Ok (true, msg1, cache1), tr1) →
  matching_rules evs = [] →
  executing_actions evs = acts →
  ran tr0 ((tr1 ++ [EvRuleMatched (rule_name r)]) ++ evs)
    (rule_name <$> take (S k) rules) acts.
Proof.
  intros Hreach Hr Hrun Hrules2 Hacts2.
  apply reaches_trace in Hreach as (evs0 & -> & Hacts & Hrules).
  destruct (run_match_lines_during_match cap (match_lines r) msg cache
              ((tr0 ++ evs0) ++ [EvMatchingRule (rule_name r)]))
    as (evs1 & Heq1 & Hevs1).
  rewrite Hrun in Heq1. simpl in Heq1. subst tr1.
  apply during_match_quiet in Hevs1 as [Hacts1 Hrules1].
  exists (evs0 ++ [EvMatchingRule (rule_name r)] ++ evs1
            ++ [EvRuleMatched (rule_name r)] ++ evs).
  split; [by rewrite <- !app_assoc|].
  rewrite !executing_actions_app, !matching_rules_app.
  rewrite Hacts, Hacts1, Hacts2, Hrules, Hrules1, Hrules2.
  rewrite (take_S_r _ _ _ Hr), fmap_app. done.
Qed.

End FirstMatch.

(** C2. First match wins.  Whatever the rules and the message, the
    actions a run executes are a prefix of the action lines of a single
    rule.  And when the rules before index [k] have each failed to match
    and every match clause of rule [k] returns true, the actions of rule
    [k] are called in order, each on the message the one before returned,
    for as long as they return true, and the run ends with rule [k]:
    - when all of them return true, the run returns the message the last
      one returned, and the actions executed are all the action lines of
      rule [k];
    - when one of them returns false, the run returns the message that
      action returned; the actions executed are those before it and
      itself, and none after it;
    - when one of them raises, the run raises the same, with the same
      actions executed.
    In each case the rules tried are the first [k + 1] rules: no rule
    after [k] is tried, whatever the actions return. *)
Theorem first_match_wins cap msg0 rules tr0 :
  (∃ evs k n,
     (handle_rules cap msg0 rules tr0).2 = tr0 ++ evs
     ∧ executing_actions evs
       = from_option (λ r, action_of (rule_name r) <$> take n (action_lines r))
           [] (rules !! k))
  ∧ ∀ k r msg cache tr msg1 cache1 tr1 pre msg2 tr2,
      reaches cap rules msg0 {[ "type" := ∅ ]} tr0 k msg cache tr →
      rules !! k = Some r →
      run_match_lines cap (match_lines r) msg cache
        (tr ++ [EvMatchingRule (rule_name r)]) = (Ok (true, msg1, cache1), tr1) →
      actions_succeed cap (rule_name r) pre
        (ElasticDict.set "rule_name" (VStr (rule_name r)) msg1)
        (tr1 ++ [EvRuleMatched (rule_name r)]) msg2 tr2 →
      (action_lines r = pre →
       handle_rules cap msg0 rules tr0 = (Ok (msg2, cache1), tr2)
       ∧ ran tr0 tr2 (rule_name <$> take (S k) rules)
           (action_of (rule_name r) <$> action_lines r))
      ∧ (∀ line post msg3 tr3,
           action_lines r = pre ++ line :: post →
           call_action_clause cap (rule_name r) line msg2 tr2
             = (Ok (false, msg3), tr3) →
           handle_rules cap msg0 rules tr0 = (Ok (msg3, cache1), tr3)
           ∧ ran tr0 tr3 (rule_name <$> take (S k) rules)
               (action_of (rule_name r) <$> pre ++ [line]))
      ∧ (∀ line post e tr3,
           action_lines r = pre ++ line :: post →
           call_action_clause cap (rule_name r) line msg2 tr2 = (Raise e, tr3) →
           handle_rules cap msg0 rules tr0 = (Raise e, tr3)
           ∧ ran tr0 tr3 (rule_name <$> take (S k) rules)
               (action_of (rule_name r) <$> pre ++ [line])).
Proof.
  split; [unfold handle_rules; apply handle_rules_loop_actions|].
  intros k r msg cache tr msg1 cache1 tr1 pre msg2 tr2 Hreach Hr Hrun Hpre.
  assert (∀ post,
            action_lines r = pre ++ post →
            handle_rules cap msg0 rules tr0
            = (msg' <- run_action_lines cap (rule_name r) post msg2 ;;
               ret (msg', cache1)) tr2) as Heq.
  { intros post Hlines. unfold handle_rules.
    rewrite (reaches_loop _ _ _ _ _ _ _ _ _ Hreach), (drop_S _ _ _ Hr).
    rewrite (handle_rules_loop_matched _ _ _ _ _ _ _ _ _ Hrun).
    unfold bind. by rewrite Hlines, (actions_succeed_run _ _ _ _ _ _ _ _ Hpre). }
  destruct (actions_succeed_trace _ _ _ _ _ _ _ Hpre) as (evs & -> & Hrules & Hacts).
  split; [|split].
  - intros Hlines. split.
    + rewrite (Heq []) by (by rewrite app_nil_r). done.
    + rewrite Hlines. by eapply ran_matched.
  - intros line post msg3 tr3 Hlines Hcall. split.
    + rewrite (Heq (line :: post)) by done. unfold bind.
      by rewrite run_action_lines_cons, Hcall.
    + destruct (call_action_clause_trace cap (rule_name r) line msg2
                  ((tr1 ++ [EvRuleMatched (rule_name r)]) ++ evs))
        as (evs1 & Heq1 & Hevs1).
      rewrite Hcall in Heq1. simpl in Heq1. subst tr3.
      rewrite <- app_assoc. eapply ran_matched; try done.
      * rewrite matching_rules_app, Hrules. simpl.
        by rewrite (matching_rules_external evs1).
      * rewrite executing_actions_app, Hacts, fmap_app. simpl.
        by rewrite (executing_actions_external evs1).
  - intros line post e tr3 Hlines Hcall. split.
    + rewrite (Heq (line :: post)) by done. unfold bind.
      by rewrite run_action_lines_cons, Hcall.
    + destruct (call_action_clause_trace cap (rule_name r) line msg2
                  ((tr1 ++ [EvRuleMatched (rule_name r)]) ++ evs))
        as (evs1 & Heq1 & Hevs1).
      rewrite Hcall in Heq1. simpl in Heq1. subst tr3.
      rewrite <- app_assoc. eapply ran_matched; try done.
      * rewrite matching_rules_app, Hrules. simpl.
        by rewrite (matching_rules_external evs1).
      * rewrite executing_actions_app, Hacts, fmap_app. simpl.
        by rewrite (executing_actions_external evs1).
Qed.

(** ** The bounded loops have fuel enough *)

Section Fuel.

Lemma find_char_bounds c start s i :
  PyStr.find_char c start s = Some i → (start ≤ i < String.length s)%nat.
Proof.
  revert start i. induction s as [|d s IH]; intros start i; simpl; [done|].
  destruct start as [|k].
  - destruct (decide (c = d)); [intros [= <-]; lia|].
    destruct (PyStr.find_char c 0 s) as [j|] eqn:Hj; [|done].
    intros [= <-]. apply IH in Hj. lia.
  - destruct (PyStr.find_char c k s) as [j|] eqn:Hj; [|done].
    intros [= <-]. apply IH in Hj. lia.
Qed.

(** Once [start] is past the end, the loop of [get_var_references] ends
    at once; before that, every turn moves [start] forward: any fuel above
    the distance to the end gives the same references. *)
Lemma get_var_references_go_fuel fuel1 fuel2 s start :
  (String.length s < start + fuel1)%nat →
  (String.length s < start + fuel2)%nat →
  get_var_references_go fuel1 s start = get_var_references_go fuel2 s start.
Proof.
  revert fuel2 start. induction fuel1 as [|fuel1 IH]; intros fuel2 start H1 H2.
  - destruct fuel2 as [|fuel2]; [done|]. simpl.
    destruct (PyStr.find_char "{" start s) as [i1|] eqn:Hp1; [|done].
    apply find_char_bounds in Hp1. lia.
  - destruct fuel2 as [|fuel2]; simpl.
    + destruct (PyStr.find_char "{" start s) as [i1|] eqn:Hp1; [|done].
      apply find_char_bounds in Hp1. lia.
    + destruct (PyStr.find_char "{" start s) as [i1|] eqn:Hp1; [|done]. simpl.
      destruct (PyStr.find_char "}" (S i1) s) as [i2|] eqn:Hp2; [|done].
      apply find_char_bounds in Hp1, Hp2.
      f_equal. apply IH; lia.
Qed.

Lemma get_var_references_fuel fuel s :
  (String.length s < fuel)%nat →
  get_var_references s = get_var_references_go fuel s O.
Proof. intros H. apply get_var_references_go_fuel; simpl; lia. Qed.

(** The decimal rendering of [n] takes at most [n + 1] turns. *)
Lemma of_nat_go_fuel fuel1 fuel2 n acc :
  (n < fuel1)%nat → (n < fuel2)%nat →
  PyStr.of_nat_go fuel1 n acc = PyStr.of_nat_go fuel2 n acc.
Proof.
  revert fuel2 n acc. induction fuel1 as [|fuel1 IH]; intros fuel2 n acc H1 H2; [lia|].
  destruct fuel2 as [|fuel2]; [lia|]. cbn [PyStr.of_nat_go].
  destruct (n <? 10)%nat eqn:Hn; [done|].
  apply Nat.ltb_ge in Hn.
  assert (n / 10 < n)%nat by (apply Nat.div_lt; lia).
  apply IH; lia.
Qed.

End Fuel.

(** ** [kind is] *)

Lemma Kind_of_name_None name :
  name ∉ ["raw"; "text"; "url"] → Kind_of_name name = None.
Proof.
  intros Hname. unfold Kind_of_name.
  repeat case_decide; subst; try done; exfalso; apply Hname; set_solver.
Qed.

(** C9. A [kind is] clause whose first argument is not one of the kind
    names raw, text, url, or whose message has no kind field, returns
    false; it raises nothing and returns the message, the cache and the
    trace as they were. *)
Theorem kind_is_fails_closed msg arguments cache tr :
  (ElasticDict.live msg !! "kind" = None
   ∨ ∃ name rest, arguments = AStr name :: rest ∧ name ∉ ["raw"; "text"; "url"]) →
  kind_is_func msg arguments cache tr = (Ok (false, msg, cache), tr).
Proof.
  intros Hfail. unfold kind_is_func, ElasticDict.get.
  destruct (ElasticDict.live msg !! "kind") as [kind|] eqn:Hkind; [|done].
  destruct Hfail as [?|(name & rest & -> & Hname)]; [done|].
  by rewrite (Kind_of_name_None _ Hname).
Qed.

(** ** [arg rewrite] *)

Section Rewrite.

Lemma split_char_length sep n s cur :
  length (PyStr.split_char sep n s cur)
  = S (Nat.min n (length (filter (λ c, c = sep) (list_ascii_of_string s)))).
Proof.
  revert n cur. induction s as [|c s IH]; intros n cur; simpl.
  - by rewrite Nat.min_0_r.
  - destruct n as [|n]; [done|].
    rewrite filter_cons.
    destruct (decide (c = sep)) as [Hc|Hc]; simpl; by rewrite IH.
Qed.

Lemma commas_filter s :
  commas s = length (filter (λ c, c = ","%char) (list_ascii_of_string s)).
Proof.
  induction s as [|c s IH]; simpl; [done|].
  rewrite filter_cons. case_decide; simpl; by rewrite IH.
Qed.

(** A substitution with exactly one comma splits into the old and the
    new text; any other makes [replace] raise. *)
Lemma rewrite_split_pair acc pattern :
  commas pattern = 1%nat →
  ∃ old new, PyStr.split "," 2 pattern = [old; new]
             ∧ rewrite_split acc pattern = Ok (PyStr.replace old new acc).
Proof.
  intros Hc. unfold rewrite_split.
  pose proof (split_char_length "," 2 pattern EmptyString) as Hlen.
  rewrite <- commas_filter, Hc in Hlen. unfold PyStr.split.
  destruct (PyStr.split_char _ _ _ _) as [|old [|new [|]]]; try done.
  by exists old, new.
Qed.

Lemma rewrite_split_not_pair acc pattern :
  commas pattern ≠ 1%nat → rewrite_split acc pattern = Raise TypeError.
Proof.
  intros Hc. unfold rewrite_split.
  pose proof (split_char_length "," 2 pattern EmptyString) as Hlen.
  rewrite <- commas_filter in Hlen. unfold PyStr.split.
  destruct (PyStr.split_char _ _ _ _) as [|old [|new [|]]]; try done.
  cbn [length] in Hlen. lia.
Qed.

Lemma reduce_split_pairs patterns tmp :
  Forall (λ p, commas p = 1%nat) patterns → ∃ tmp', reduce_split patterns tmp = Ok tmp'.
Proof.
  intros Hps. revert tmp.
  induction Hps as [|p ps Hp _ IH]; intros tmp; simpl; [by eexists|].
  destruct (rewrite_split_pair tmp p Hp) as (old & new & _ & ->). simpl.
  apply IH.
Qed.

End Rewrite.


(** C7, as amended.  When the target resolves against the message, the
    rewrite clause never returns false, and it returns true whenever
    every substitution has exactly one comma.  (The rewritten text is
    then bound under the escaped target stripped of the braces at its two
    ends.) *)
Theorem rewrite_succeeds msg target patterns cache tr tmp :
  format_msg (escape_match_group_references target) msg = Ok tmp →
  (∀ msg' cache' tr',
     arg_rewrite_func msg [AStr target; AList patterns] cache tr
     ≠ (Ok (false, msg', cache'), tr'))
  ∧ (Forall (λ p, commas p = 1%nat) patterns →
     ∃ tmp',
       reduce_split patterns tmp = Ok tmp'
       ∧ arg_rewrite_func msg [AStr target; AList patterns] cache tr
         = (Ok (true,
                ElasticDict.set
                  (PyStr.strip "{}" (escape_match_group_references target))
                  (VStr tmp') msg,
                cache), tr)).
Proof.
  intros Hfmt. split.
  - intros msg' cache' tr' H.
    by apply arg_rewrite_func_msg in H as (_ & _ & _ & ?).
  - intros Hps.
    destruct (reduce_split_pairs patterns tmp Hps) as (tmp' & Hred).
    exists tmp'. split; [done|].
    unfold arg_rewrite_func, bind, lift, ret; simpl.
    by rewrite Hfmt, Hred.
Qed.

(** ** Computing a run step by step *)

Section Steps.

Variable cap : Capabilities.

Lemma call_match_clause_eq line f msg cache tr :
  match_clauses cap (match_key line) = Some f →
  call_match_clause cap line msg cache tr
  = f msg (m_arguments line) cache
      (tr ++ [EvMatchCall (match_key line) (m_arguments line)]).
Proof. unfold call_match_clause. by intros ->. Qed.

Lemma run_match_lines_raised line rest msg cache tr e tr1 :
  call_match_clause cap line msg cache tr = (Raise e, tr1) →
  run_match_lines cap (line :: rest) msg cache tr = (Raise e, tr1).
Proof. intros H. simpl. by rewrite (bind_eq_raise _ _ _ _ _ H). Qed.

Lemma handle_rules_loop_raised r rest msg cache tr e tr1 :
  run_match_lines cap (match_lines r) msg cache
    (tr ++ [EvMatchingRule (rule_name r)]) = (Raise e, tr1) →
  handle_rules_loop cap (r :: rest) msg cache tr = (Raise e, tr1).
Proof.
  intros H. simpl. unfold bind at 1, emit at 1.
  by rewrite (bind_eq_raise _ _ _ _ _ H).
Qed.

(** [plumb run] once its variables are bound and its pieces resolve:
    the process is called with the resolved pieces. *)
Lemma plumb_run_func_call msg argument_string argv tr :
  log_var_references msg argument_string = Ok tt →
  format_all (PyStr.split_ws argument_string) msg = Ok argv →
  (plumb_run_func cap msg argument_string tr).2 = tr ++ [EvSubprocess argv].
Proof.
  intros Hlog Hfmt. unfold plumb_run_func. rewrite Hlog.
  unfold bind, lift, history, emit. rewrite Hfmt.
  destruct (subprocess_call cap tr argv) as [status|strerror|e]; try done.
  by destruct (_ !! 1%nat).
Qed.

Lemma run_action_lines_one name line f msg tr :
  action_clauses cap (action_key line) = Some f →
  (run_action_lines cap name [line] msg tr).2
  = (f msg (escape_match_group_references (a_action line))
       (tr ++ [EvExecutingAction (action_key line) (a_action line) name])).2.
Proof.
  intros Hf. simpl. unfold bind at 1, emit at 1. rewrite Hf. unfold bind.
  by destruct (f _ _ _) as [[[[] msg1]|e] tr1].
Qed.

(** An action that returns false ends the action loop: the actions
    after it are not run. *)
Lemma run_action_lines_failed name line rest f msg tr msg1 tr1 :
  action_clauses cap (action_key line) = Some f →
  f msg (escape_match_group_references (a_action line))
    (tr ++ [EvExecutingAction (action_key line) (a_action line) name])
  = (Ok (false, msg1), tr1) →
  run_action_lines cap name (line :: rest) msg tr = (Ok msg1, tr1).
Proof.
  intros Hf Hcall. simpl. unfold bind at 1, emit at 1. rewrite Hf.
  by rewrite (bind_eq_ok _ _ _ _ _ Hcall).
Qed.

End Steps.

(** C4, at a failing input.  A match clause whose target refers to a
    variable the message does not have raises [KeyError] out of
    [handle_rules]: the rule is not failed, the message is not rolled
    back and no later rule is tried.  The action [plumb run], on the same
    message and the same missing variable, returns false instead. *)
Theorem missing_variable_propagates cap rest tr :
  handle_rules cap scenario_msg (missing_rule :: rest) tr
  = (Raise (KeyError "nosuch"),
     tr ++ [EvMatchingRule "r";
            EvMatchCall "arg matches" [AStr "{nosuch}"; AList ["foo"]]])
  ∧ plumb_run_func cap scenario_msg "echo {nosuch}" tr
    = (Ok (false, scenario_msg), tr).
Proof.
  split; [|reflexivity].
  unfold handle_rules.
  apply handle_rules_loop_raised, run_match_lines_raised.
  rewrite (call_match_clause_eq cap _ (arg_matches_func cap)) by reflexivity.
  rewrite <- app_assoc. reflexivity.
Qed.

Lemma scenario_match cap tr :
  re_search cap "foo(.)bar(.)" "foo1bar2" = Ok (Some [Some "1"; Some "2"]) →
  run_match_lines cap (match_lines scenario_rule) scenario_msg {[ "type" := ∅ ]} tr
  = (Ok (true,
         ElasticDict.update [("\0", VStr "1"); ("\1", VStr "2")] scenario_msg,
         {[ "type" := ∅ ]}),
     tr ++ [EvMatchCall "kind is" [AStr "raw"];
            EvMatchCall "arg matches" [AStr "{data}"; AList ["foo(.)bar(.)"]]]).
Proof.
  intros H. unfold scenario_rule. cbn [match_lines].
  erewrite run_match_lines_cons; last first.
  { rewrite (call_match_clause_eq cap _ kind_is_func) by reflexivity. reflexivity. }
  cbv iota.
  erewrite run_match_lines_cons; last first.
  { rewrite (call_match_clause_eq cap _ (arg_matches_func cap)) by reflexivity.
    unfold arg_matches_func.
    change (unpack2 _) with (Ok (AStr "{data}", AList ["foo(.)bar(.)"])).
    rewrite (bind_eq_ok _ _ _ (AStr "{data}", AList ["foo(.)bar(.)"]) _ eq_refl).
    cbv iota beta.
    rewrite (bind_eq_ok _ _ _ "foo1bar2" _ eq_refl).
    simpl arg_matches_loop. rewrite H. unfold bind, lift, ret. reflexivity. }
  cbv iota. rewrite <- app_assoc. reflexivity.
Qed.

(** C5. The end-to-end scenario.  On the message with kind raw and data
    "foo1bar2", with a regular-expression engine that finds the groups
    "1" and "2" of foo(.)bar(.) in the data, the rule [test] matches, its
    match clauses bind the variables \0 to "1" and \1 to "2", and the run
    calls the external process with the argument vector echo, 12, whatever
    rules follow. *)
Theorem scenario_foo1bar2 cap rest tr :
  re_search cap "foo(.)bar(.)" "foo1bar2" = Ok (Some [Some "1"; Some "2"]) →
  let msg1 := ElasticDict.update [("\0", VStr "1"); ("\1", VStr "2")] scenario_msg in
  run_match_lines cap (match_lines scenario_rule) scenario_msg {[ "type" := ∅ ]}
    (tr ++ [EvMatchingRule "test"])
  = (Ok (true, msg1, {[ "type" := ∅ ]}),
     tr ++ [EvMatchingRule "test";
            EvMatchCall "kind is" [AStr "raw"];
            EvMatchCall "arg matches" [AStr "{data}"; AList ["foo(.)bar(.)"]]])
  ∧ ElasticDict.get "\0" msg1 = Ok (VStr "1")
  ∧ ElasticDict.get "\1" msg1 = Ok (VStr "2")
  ∧ (handle_rules cap scenario_msg (scenario_rule :: rest) tr).2
    = tr ++ [EvMatchingRule "test";
             EvMatchCall "kind is" [AStr "raw"];
             EvMatchCall "arg matches" [AStr "{data}"; AList ["foo(.)bar(.)"]];
             EvRuleMatched "test";
             EvExecutingAction "plumb run" "echo {\0}{\1}" "test";
             EvSubprocess ["echo"; "12"]].
Proof.
  intros H msg1.
  pose proof (scenario_match cap (tr ++ [EvMatchingRule "test"]) H) as Hmatch.
  rewrite <- app_assoc in Hmatch. simpl app in Hmatch.
  split; [exact Hmatch|]. split; [reflexivity|]. split; [reflexivity|].
  unfold handle_rules.
  rewrite (handle_rules_loop_matched cap scenario_rule rest _ _ _ _ _ _ Hmatch).
  unfold bind at 1.
  match goal with
  | |- (match ?c with _ => _ end).2 = _ =>
      assert (c.2 = tr ++ [EvMatchingRule "test";
             EvMatchCall "kind is" [AStr "raw"];
             EvMatchCall "arg matches" [AStr "{data}"; AList ["foo(.)bar(.)"]];
             EvRuleMatched "test";
             EvExecutingAction "plumb run" "echo {\0}{\1}" "test";
             EvSubprocess ["echo"; "12"]]) as Htr;
      [|by destruct c as [[msg2|e] tr2]]
  end.
  unfold scenario_rule. cbn [action_lines rule_name].
  rewrite (run_action_lines_one cap _ _ (plumb_run_func cap)) by reflexivity.
  rewrite (plumb_run_func_call cap _ _ ["echo"; "12"]) by reflexivity.
  rewrite <- !app_assoc. reflexivity.
Qed.

(** ** [arg istype] and the type cache *)

Section IsType.

Variable cap : Capabilities.

(** The search loop over patterns that all compile: it ends on the
    first pattern that matches; with none, [m] is bound to no match
    unless the list is empty. *)
Lemma istype_search_spec patterns ty m :
  Forall (compiles cap ty) patterns →
  (Exists (re_matches cap ty) patterns
   ∧ ∃ groups, istype_search cap patterns ty m = Ok (Some (Some groups)))
  ∨ (¬ Exists (re_matches cap ty) patterns
     ∧ istype_search cap patterns ty m
       = Ok (match patterns with [] => m | _ => Some None end)).
Proof.
  intros Hps. revert m.
  induction Hps as [|p ps [r Hp] _ IH]; intros m; simpl.
  - right. split; [by intros ?%Exists_nil|done].
  - rewrite Hp. simpl. destruct r as [groups|].
    + left. split; [|by eexists]. apply Exists_cons_hd. by exists groups.
    + destruct (IH (Some None)) as [[Hex Hres]|[Hnex Hres]].
      * left. split; [by apply Exists_cons_tl|done].
      * right. split.
        -- intros [[groups Hg]|?]%Exists_cons; [congruence|done].
        -- rewrite Hres. by destruct ps.
Qed.

(** The search loop ends on the first pattern that is found. *)
Lemma istype_search_found pre p post ty m groups :
  Forall (λ q, re_search cap q ty = Ok None) pre →
  re_search cap p ty = Ok (Some groups) →
  istype_search cap (pre ++ p :: post) ty m = Ok (Some (Some groups)).
Proof.
  intros Hpre Hp. revert m.
  induction Hpre as [|q pre Hq _ IH]; intros m; simpl.
  - by rewrite Hp.
  - rewrite Hq. simpl. apply IH.
Qed.

Lemma istype_search_none patterns ty m :
  Forall (λ q, re_search cap q ty = Ok None) patterns →
  istype_search cap patterns ty m
  = Ok (match patterns with [] => m | _ => Some None end).
Proof.
  intros Hps. revert m.
  induction Hps as [|q ps Hq _ IH]; intros m; simpl; [done|].
  rewrite Hq. simpl. rewrite IH. by destruct ps.
Qed.

(** What the search loop has seen when it returns. *)
Lemma istype_search_inv patterns ty m r :
  istype_search cap patterns ty m = Ok r →
  (patterns = [] ∧ r = m)
  ∨ (Exists (re_matches cap ty) patterns ∧ ∃ groups, r = Some (Some groups))
  ∨ (patterns ≠ [] ∧ Forall (λ q, re_search cap q ty = Ok None) patterns
     ∧ r = Some None).
Proof.
  revert m. induction patterns as [|p ps IH]; intros m; simpl.
  - intros [= <-]. by left.
  - destruct (re_search cap p ty) as [[groups|]|e] eqn:Hp; simpl; [| |done].
    + intros [= <-]. right. left. split; [|by eexists].
      apply Exists_cons_hd. by exists groups.
    + intros H. right.
      destruct (IH _ H) as [[-> ->]|[[Hex Hr]|(Hne & Hps & ->)]].
      * right. split; [done|]. split; [|done]. by repeat constructor.
      * left. split; [by apply Exists_cons_tl|done].
      * right. split; [done|]. split; [|done]. by constructor.
Qed.

Lemma re_matches_none patterns ty :
  Forall (λ q, re_search cap q ty = Ok None) patterns →
  ¬ Exists (re_matches cap ty) patterns.
Proof.
  intros Hps Hex. apply Exists_exists in Hex as (p & Hp & groups & Hg).
  rewrite Forall_forall in Hps. specialize (Hps p Hp). congruence.
Qed.

(** [arg istype] once the target has resolved and the type has been
    looked up or detected. *)
Lemma arg_istype_func_eq msg target patterns cache tr arg type_cache t tr1 :
  format_msg target msg = Ok arg →
  cache !! "type" = Some type_cache →
  cached_or_detected cap msg type_cache arg tr = (Ok t, tr1) →
  arg_istype_func cap msg [AStr target; AList patterns] cache tr
  = match t with
    | Some ty =>
        if truthy t then
          match istype_search cap patterns ty None with
          | Ok None => (Raise (UnboundLocalError "m"), tr1)
          | Ok (Some None) =>
              (Ok (false, msg, <["type" := <[arg := ty]> type_cache]> cache), tr1)
          | Ok (Some (Some groups)) =>
              (Ok (true, ElasticDict.update (group_items groups) msg,
                   <["type" := <[arg := ty]> type_cache]> cache), tr1)
          | Raise e => (Raise e, tr1)
          end
        else (Ok (false, msg, cache), tr1)
    | None => (Ok (false, msg, cache), tr1)
    end.
Proof.
  intros Hfmt Hcache Ht. unfold arg_istype_func, bind, lift; simpl.
  rewrite Hfmt, Hcache, Ht.
  destruct t as [ty|]; [|done]. destruct (truthy (Some ty)); [|done].
  by destruct (istype_search cap patterns ty None) as [[[groups|]|]|e].
Qed.

Lemma arg_istype_func_raised msg target patterns cache tr arg type_cache e tr1 :
  format_msg target msg = Ok arg →
  cache !! "type" = Some type_cache →
  cached_or_detected cap msg type_cache arg tr = (Raise e, tr1) →
  arg_istype_func cap msg [AStr target; AList patterns] cache tr = (Raise e, tr1).
Proof.
  intros Hfmt Hcache Ht. unfold arg_istype_func, bind, lift; simpl.
  by rewrite Hfmt, Hcache, Ht.
Qed.

(** [arg istype] on a type that is found: the type is stored for the
    value, and the patterns are searched in order. *)
Lemma arg_istype_func_found msg target pre p post cache tr arg type_cache ty tr1 groups :
  format_msg target msg = Ok arg →
  cache !! "type" = Some type_cache →
  cached_or_detected cap msg type_cache arg tr = (Ok (Some ty), tr1) →
  truthy (Some ty) = true →
  Forall (λ q, re_search cap q ty = Ok None) pre →
  re_search cap p ty = Ok (Some groups) →
  arg_istype_func cap msg [AStr target; AList (pre ++ p :: post)] cache tr
  = (Ok (true, ElasticDict.update (group_items groups) msg,
         <["type" := <[arg := ty]> type_cache]> cache), tr1).
Proof.
  intros Hfmt Hcache Ht Htrue Hpre Hp.
  rewrite (arg_istype_func_eq _ _ _ _ _ _ _ _ _ Hfmt Hcache Ht), Htrue.
  by rewrite (istype_search_found _ _ _ _ _ _ Hpre Hp).
Qed.

Lemma arg_istype_func_not_found msg target patterns cache tr arg type_cache ty tr1 :
  format_msg target msg = Ok arg →
  cache !! "type" = Some type_cache →
  cached_or_detected cap msg type_cache arg tr = (Ok (Some ty), tr1) →
  truthy (Some ty) = true →
  patterns ≠ [] →
  Forall (λ q, re_search cap q ty = Ok None) patterns →
  arg_istype_func cap msg [AStr target; AList patterns] cache tr
  = (Ok (false, msg, <["type" := <[arg := ty]> type_cache]> cache), tr1).
Proof.
  intros Hfmt Hcache Ht Htrue Hne Hps.
  rewrite (arg_istype_func_eq _ _ _ _ _ _ _ _ _ Hfmt Hcache Ht), Htrue.
  rewrite (istype_search_none _ _ _ Hps). by destruct patterns.
Qed.

(** What the patterns were when [arg istype] returns on a type that is
    found. *)
Lemma arg_istype_func_returns msg target patterns cache tr arg type_cache ty tr1
    b msg' cache' tr' :
  format_msg target msg = Ok arg →
  cache !! "type" = Some type_cache →
  cached_or_detected cap msg type_cache arg tr = (Ok (Some ty), tr1) →
  truthy (Some ty) = true →
  arg_istype_func cap msg [AStr target; AList patterns] cache tr
    = (Ok (b, msg', cache'), tr') →
  cache' = <["type" := <[arg := ty]> type_cache]> cache
  ∧ tr' = tr1
  ∧ if b then Exists (re_matches cap ty) patterns
    else ¬ Exists (re_matches cap ty) patterns.
Proof.
  intros Hfmt Hcache Ht Htrue.
  rewrite (arg_istype_func_eq _ _ _ _ _ _ _ _ _ Hfmt Hcache Ht), Htrue.
  destruct (istype_search cap patterns ty None) as [r|e] eqn:Hs; [|done].
  destruct (istype_search_inv _ _ _ _ Hs) as [[-> ->]|[[Hex [g ->]]|(Hne & Hps & ->)]].
  - done.
  - by intros [= <- <- <- <-].
  - intros [= <- <- <- <-]. repeat split. by apply re_matches_none.
Qed.




End IsType.

(** C8, as amended.  [arg istype] fails closed when no type is found,
    and only then.  Once the target has resolved:
    - when looking the type up in the cache or detecting it yields no type
      ([None] or the empty string), the clause returns false without
      raising, and the message and the cache are returned as they were;
    - when the detection raises, the clause raises the same: the failure
      of the classifier is not caught;
    - when a type is found, the clause returns true, with the groups bound,
      as soon as [re.search] finds a pattern of the list in the type, the
      patterns before it having been searched without a match; it returns
      false when the list is not empty and [re.search] finds none of its
      patterns; and whenever it returns, it returns true exactly when
      [re.search] finds one of the patterns in the type. *)
Theorem istype_fails_closed cap msg target patterns cache tr arg type_cache :
  format_msg target msg = Ok arg →
  cache !! "type" = Some type_cache →
  (∀ t tr1,
     cached_or_detected cap msg type_cache arg tr = (Ok t, tr1) →
     truthy t = false →
     arg_istype_func cap msg [AStr target; AList patterns] cache tr
     = (Ok (false, msg, cache), tr1))
  ∧ (∀ e tr1,
       cached_or_detected cap msg type_cache arg tr = (Raise e, tr1) →
       arg_istype_func cap msg [AStr target; AList patterns] cache tr
       = (Raise e, tr1))
  ∧ (∀ ty tr1,
       cached_or_detected cap msg type_cache arg tr = (Ok (Some ty), tr1) →
       truthy (Some ty) = true →
       (∀ pre p post groups,
          patterns = pre ++ p :: post →
          Forall (λ q, re_search cap q ty = Ok None) pre →
          re_search cap p ty = Ok (Some groups) →
          arg_istype_func cap msg [AStr target; AList patterns] cache tr
          = (Ok (true, ElasticDict.update (group_items groups) msg,
                 <["type" := <[arg := ty]> type_cache]> cache), tr1))
       ∧ (patterns ≠ [] →
          Forall (λ q, re_search cap q ty = Ok None) patterns →
          arg_istype_func cap msg [AStr target; AList patterns] cache tr
          = (Ok (false, msg, <["type" := <[arg := ty]> type_cache]> cache), tr1))
       ∧ (∀ b msg' cache' tr',
            arg_istype_func cap msg [AStr target; AList patterns] cache tr
              = (Ok (b, msg', cache'), tr') →
            b = true ↔ Exists (re_matches cap ty) patterns)).
Proof.
  intros Hfmt Hcache. split; [|split].
  - intros t tr1 Ht Hfalse.
    rewrite (arg_istype_func_eq cap _ _ patterns _ _ _ _ _ _ Hfmt Hcache Ht).
    destruct t as [ty|]; [|done]. by rewrite Hfalse.
  - intros e tr1 Ht. by eapply arg_istype_func_raised.
  - intros ty tr1 Ht Htrue. split; [|split].
    + intros pre p post groups -> Hpre Hp. by eapply arg_istype_func_found.
    + intros Hne Hps. by eapply arg_istype_func_not_found.
    + intros b msg' cache' tr' Hrun.
      destruct (arg_istype_func_returns cap _ _ _ _ _ _ _ _ _ _ _ _ _
                  Hfmt Hcache Ht Htrue Hrun) as (_ & _ & Hb).
      destruct b; [done|]. split; [done|]. intros Hex. by destruct Hb.
Qed.


(** ** The theorems at concrete inputs *)

(** The rule [text_rule] binds \0 and then fails on the kind; the loop
    comes to [scenario_rule] with the message as it was. *)
Lemma rollback_atomicity_witness :
  reaches quiet_cap [text_rule; scenario_rule] scenario_msg empty_cache [] 1
    (ElasticDict.reverse (ElasticDict.update [("\0", VStr "1")] scenario_msg))
    empty_cache
    [EvMatchingRule "text only";
     EvMatchCall "arg matches" [AStr "{data}"; AList ["foo(.)"]];
     EvMatchCall "kind is" [AStr "text"]]
  ∧ ElasticDict.reverse (ElasticDict.update [("\0", VStr "1")] scenario_msg)
    = scenario_msg
  ∧ handle_rules quiet_cap scenario_msg [text_rule; scenario_rule] []
    = handle_rules_loop quiet_cap [scenario_rule] scenario_msg empty_cache
        [EvMatchingRule "text only";
         EvMatchCall "arg matches" [AStr "{data}"; AList ["foo(.)"]];
         EvMatchCall "kind is" [AStr "text"]].
Proof.
  assert (reaches quiet_cap [text_rule; scenario_rule] scenario_msg empty_cache [] 1
            (ElasticDict.reverse (ElasticDict.update [("\0", VStr "1")] scenario_msg))
            empty_cache
            [EvMatchingRule "text only";
             EvMatchCall "arg matches" [AStr "{data}"; AList ["foo(.)"]];
             EvMatchCall "kind is" [AStr "text"]]) as Hreach.
  { apply (reaches_next quiet_cap _ _ _ _ 0 text_rule scenario_msg empty_cache []);
      [apply reaches_first | reflexivity | vm_compute; reflexivity]. }
  split; [exact Hreach|].
  exact (rollback_atomicity quiet_cap
           {[ "kind" := VKind raw; "data" := VStr "foo1bar2" ]}
           [text_rule; scenario_rule] [] 1 _ _ _ Hreach).
Defined.

(** With [exit_cap], [text_rule] fails, [failing_rule] matches and its
    second action fails: the third action is not executed and
    [later_rule], which would match, is not tried. *)
Lemma first_match_wins_witness :
  handle_rules exit_cap scenario_msg [text_rule; failing_rule; later_rule] []
  = (Ok (ElasticDict.set "rule_name" (VStr "first")
           (ElasticDict.reverse (ElasticDict.update [("\0", VStr "1")] scenario_msg)),
         empty_cache),
     [EvMatchingRule "text only";
      EvMatchCall "arg matches" [AStr "{data}"; AList ["foo(.)"]];
      EvMatchCall "kind is" [AStr "text"];
      EvMatchingRule "first";
      EvMatchCall "kind is" [AStr "raw"];
      EvRuleMatched "first";
      EvExecutingAction "plumb run" "true" "first";
      EvSubprocess ["true"];
      EvExecutingAction "plumb run" "false" "first";
      EvSubprocess ["false"]])
  ∧ ran []
      [EvMatchingRule "text only";
       EvMatchCall "arg matches" [AStr "{data}"; AList ["foo(.)"]];
       EvMatchCall "kind is" [AStr "text"];
       EvMatchingRule "first";
       EvMatchCall "kind is" [AStr "raw"];
       EvRuleMatched "first";
       EvExecutingAction "plumb run" "true" "first";
       EvSubprocess ["true"];
       EvExecutingAction "plumb run" "false" "first";
       EvSubprocess ["false"]]
      ["text only"; "first"]
      [("plumb run", "true", "first"); ("plumb run", "false", "first")].
Proof.
  assert (reaches exit_cap [text_rule; failing_rule; later_rule]
            scenario_msg {[ "type" := ∅ ]} [] 1
            (ElasticDict.reverse (ElasticDict.update [("\0", VStr "1")] scenario_msg))
            empty_cache
            [EvMatchingRule "text only";
             EvMatchCall "arg matches" [AStr "{data}"; AList ["foo(.)"]];
             EvMatchCall "kind is" [AStr "text"]]) as Hreach.
  { apply (reaches_next exit_cap _ _ _ _ 0 text_rule scenario_msg empty_cache []);
      [apply reaches_first | reflexivity | vm_compute; reflexivity]. }
  assert (actions_succeed exit_cap "first" [ActionLine "plumb" "run" "true"]
            (ElasticDict.set "rule_name" (VStr "first")
               (ElasticDict.reverse
                  (ElasticDict.update [("\0", VStr "1")] scenario_msg)))
            ([EvMatchingRule "text only";
              EvMatchCall "arg matches" [AStr "{data}"; AList ["foo(.)"]];
              EvMatchCall "kind is" [AStr "text"];
              EvMatchingRule "first";
              EvMatchCall "kind is" [AStr "raw"]] ++ [EvRuleMatched "first"])
            (ElasticDict.set "rule_name" (VStr "first")
               (ElasticDict.reverse
                  (ElasticDict.update [("\0", VStr "1")] scenario_msg)))
            [EvMatchingRule "text only";
             EvMatchCall "arg matches" [AStr "{data}"; AList ["foo(.)"]];
             EvMatchCall "kind is" [AStr "text"];
             EvMatchingRule "first";
             EvMatchCall "kind is" [AStr "raw"];
             EvRuleMatched "first";
             EvExecutingAction "plumb run" "true" "first";
             EvSubprocess ["true"]]) as Hpre.
  { apply (actions_succeed_cons exit_cap "first" (ActionLine "plumb" "run" "true") []
             _ _ _ _ _ _ ltac:(vm_compute; reflexivity)).
    apply actions_succeed_nil. }
  exact (proj1 (proj2 (proj2 (first_match_wins exit_cap scenario_msg
                                [text_rule; failing_rule; later_rule] [])
                         1 failing_rule _ _ _
                         (ElasticDict.reverse
                            (ElasticDict.update [("\0", VStr "1")] scenario_msg))
                         empty_cache
                         [EvMatchingRule "text only";
                          EvMatchCall "arg matches" [AStr "{data}"; AList ["foo(.)"]];
                          EvMatchCall "kind is" [AStr "text"];
                          EvMatchingRule "first";
                          EvMatchCall "kind is" [AStr "raw"]]
                         [ActionLine "plumb" "run" "true"] _ _
                         Hreach eq_refl ltac:(vm_compute; reflexivity) Hpre))
           (ActionLine "plumb" "run" "false")
           [ActionLine "plumb" "run" "echo never"] _ _ eq_refl
           ltac:(vm_compute; reflexivity)).
Defined.

Lemma match_clauses_short_circuit_witness :
  run_match_lines quiet_cap (match_lines text_rule) scenario_msg empty_cache []
  = (Ok (false, ElasticDict.update [("\0", VStr "1")] scenario_msg, empty_cache),
     [EvMatchCall "arg matches" [AStr "{data}"; AList ["foo(.)"]];
      EvMatchCall "kind is" [AStr "text"]])
  ∧ ∃ evs,
      [EvMatchCall "arg matches" [AStr "{data}"; AList ["foo(.)"]];
       EvMatchCall "kind is" [AStr "text"]] = [] ++ evs
      ∧ match_calls evs
        = [("arg matches", [AStr "{data}"; AList ["foo(.)"]]);
           ("kind is", [AStr "text"])].
Proof.
  apply (match_clauses_short_circuit quiet_cap
           [MatchLine "arg" "matches" [AStr "{data}"; AList ["foo(.)"]]]
           (MatchLine "kind" "is" [AStr "text"])
           [MatchLine "arg" "is" [AStr "{data}"; AList ["foo1bar2"]]]
           scenario_msg empty_cache []
           (ElasticDict.update [("\0", VStr "1")] scenario_msg) empty_cache
           [EvMatchCall "arg matches" [AStr "{data}"; AList ["foo(.)"]]]);
    vm_compute; reflexivity.
Defined.

Lemma scenario_foo1bar2_witness :
  (handle_rules quiet_cap scenario_msg [scenario_rule] []).2
  = [EvMatchingRule "test";
     EvMatchCall "kind is" [AStr "raw"];
     EvMatchCall "arg matches" [AStr "{data}"; AList ["foo(.)bar(.)"]];
     EvRuleMatched "test";
     EvExecutingAction "plumb run" "echo {\0}{\1}" "test";
     EvSubprocess ["echo"; "12"]].
Proof.
  apply (scenario_foo1bar2 quiet_cap [] []). vm_compute; reflexivity.
Defined.


Lemma rewrite_succeeds_witness :
  ∃ tmp',
    reduce_split ["oo,le"; "g,g jing"] "oolong" = Ok tmp'
    ∧ arg_rewrite_func oolong_msg [AStr "{data}"; AList ["oo,le"; "g,g jing"]] empty_cache []
      = (Ok (true, ElasticDict.set "data" (VStr tmp') oolong_msg, empty_cache), []).
Proof.
  apply (rewrite_succeeds oolong_msg "{data}" ["oo,le"; "g,g jing"] empty_cache [] "oolong").
  - vm_compute; reflexivity.
  - repeat constructor.
Defined.

(** The rewrite clause on a message that has the variable of its
    target.  With a substitution that has no comma, or two: the pieces of
    the substitution are the arguments of [replace], which takes an old
    and a new text, and for a third argument a count.  With a target whose
    brace is not closed: [format] rejects it. *)
Lemma rewrite_raises_with_bound_variable :
  arg_rewrite_func oolong_msg [AStr "{data}"; AList ["jing"]] empty_cache []
  = (Raise TypeError, [])
  ∧ arg_rewrite_func oolong_msg [AStr "{data}"; AList ["g,g jing,long"]] empty_cache []
    = (Raise TypeError, [])
  ∧ arg_rewrite_func oolong_msg [AStr "{data"; AList ["oo,le"]] empty_cache []
    = (Raise ValueError, []).
Proof. repeat split; vm_compute; reflexivity. Qed.

Lemma kind_is_fails_closed_witness :
  kind_is_func scenario_msg [AStr "image"] empty_cache []
  = (Ok (false, scenario_msg, empty_cache), [])
  ∧ kind_is_func (ElasticDict.new ∅) [AStr "raw"] empty_cache []
    = (Ok (false, ElasticDict.new ∅, empty_cache), []).
Proof.
  split.
  - apply (kind_is_fails_closed scenario_msg [AStr "image"] empty_cache []).
    right. exists "image", []. split; [reflexivity|].
    intros H. repeat (apply elem_of_cons in H as [H|H]; [discriminate H|]).
    by apply elem_of_nil in H.
  - apply (kind_is_fails_closed (ElasticDict.new ∅) [AStr "raw"] empty_cache []).
    left. reflexivity.
Defined.

(** With [quiet_cap] libmagic knows no type for the raw data; with
    [no_magic_cap] it cannot be called; a message of kind text has the
    type text/plain. *)
Lemma istype_fails_closed_witness :
  arg_istype_func quiet_cap scenario_msg [AStr "{data}"; AList ["text/plain"]]
    empty_cache []
  = (Ok (false, scenario_msg, empty_cache),
     [EvDetect (VKind raw) "foo1bar2"; EvMagic "foo1bar2"])
  ∧ arg_istype_func no_magic_cap scenario_msg [AStr "{data}"; AList ["text/plain"]]
      empty_cache []
    = (Raise SystemExit, [EvDetect (VKind raw) "foo1bar2"; EvMagic "foo1bar2"])
  ∧ arg_istype_func quiet_cap text_msg
      [AStr "{data}"; AList ["image"; "text/(.)lain"; "text"]] empty_cache []
    = (Ok (true, ElasticDict.update (group_items [Some "p"]) text_msg,
           <["type" := <["hello" := "text/plain"]> ∅]> empty_cache),
       [EvDetect (VKind text) "hello"])
  ∧ arg_istype_func quiet_cap text_msg [AStr "{data}"; AList ["image"; "html"]]
      empty_cache []
    = (Ok (false, text_msg, <["type" := <["hello" := "text/plain"]> ∅]> empty_cache),
       [EvDetect (VKind text) "hello"]).
Proof.
  split; [|split; [|split]].
  - apply (proj1 (istype_fails_closed quiet_cap scenario_msg "{data}" ["text/plain"]
                    empty_cache [] "foo1bar2" ∅
                    ltac:(vm_compute; reflexivity) ltac:(vm_compute; reflexivity))
             None [EvDetect (VKind raw) "foo1bar2"; EvMagic "foo1bar2"]);
      vm_compute; reflexivity.
  - apply (proj1 (proj2 (istype_fails_closed no_magic_cap scenario_msg "{data}"
                           ["text/plain"] empty_cache [] "foo1bar2" ∅
                           ltac:(vm_compute; reflexivity)
                           ltac:(vm_compute; reflexivity)))
             SystemExit [EvDetect (VKind raw) "foo1bar2"; EvMagic "foo1bar2"]).
    vm_compute; reflexivity.
  - apply (proj1 (proj2 (proj2 (istype_fails_closed quiet_cap text_msg "{data}"
                                  ["image"; "text/(.)lain"; "text"] empty_cache []
                                  "hello" ∅
                                  ltac:(vm_compute; reflexivity)
                                  ltac:(vm_compute; reflexivity)))
                    "text/plain" [EvDetect (VKind text) "hello"]
                    ltac:(vm_compute; reflexivity) ltac:(vm_compute; reflexivity))
             ["image"] "text/(.)lain" ["text"] [Some "p"] eq_refl).
    + repeat constructor.
    + vm_compute; reflexivity.
  - apply (proj1 (proj2 (proj2 (proj2 (istype_fails_closed quiet_cap text_msg "{data}"
                                  ["image"; "html"] empty_cache []
                                  "hello" ∅
                                  ltac:(vm_compute; reflexivity)
                                  ltac:(vm_compute; reflexivity)))
                    "text/plain" [EvDetect (VKind text) "hello"]
                    ltac:(vm_compute; reflexivity) ltac:(vm_compute; reflexivity)))).
    + discriminate.
    + repeat constructor.
Defined.

(** The failure of the classifier reaches the caller; and so does the
    error of a pattern that [re] rejects, although a later pattern of the
    list is found in the detected type. *)
Lemma istype_raises_to_its_caller :
  arg_istype_func no_magic_cap scenario_msg [AStr "{data}"; AList ["text/plain"]]
    empty_cache []
  = (Raise SystemExit, [EvDetect (VKind raw) "foo1bar2"; EvMagic "foo1bar2"])
  ∧ re_matches quiet_cap "text/plain" "text/plain"
  ∧ arg_istype_func quiet_cap text_msg [AStr "{data}"; AList ["("; "text/plain"]]
      empty_cache []
    = (Raise ReError, [EvDetect (VKind text) "hello"]).
Proof.
  split; [vm_compute; reflexivity|]. split; [|vm_compute; reflexivity].
  exists []. vm_compute; reflexivity.
Qed.


(** * Further properties of the code *)

(** ** Strings *)

Section StringFacts.

Lemma app_cons c (s t : string) : String c s +:+ t = String c (s +:+ t).
Proof. done. Qed.

Lemma app_empty_r (s : string) : s +:+ "" = s.
Proof. induction s as [|c s IH]; [done|]. by rewrite app_cons, IH. Qed.

Lemma app_assoc_s (s t u : string) : (s +:+ t) +:+ u = s +:+ (t +:+ u).
Proof. induction s as [|c s IH]; [done|]. by rewrite !app_cons, IH. Qed.

Lemma rev_acc_app s acc : PyStr.rev_acc s acc = PyStr.rev_acc s "" +:+ acc.
Proof.
  revert acc. induction s as [|c s IH]; intros acc; simpl; [done|].
  rewrite (IH (String c acc)), (IH (String c "")).
  by rewrite app_assoc_s.
Qed.

Lemma rev_cons c s : PyStr.rev (String c s) = PyStr.rev s +:+ String c "".
Proof. unfold PyStr.rev. simpl. apply rev_acc_app. Qed.

Lemma rev_app (s t : string) : PyStr.rev (s +:+ t) = PyStr.rev t +:+ PyStr.rev s.
Proof.
  induction s as [|c s IH].
  - change ("" +:+ t) with t. by rewrite app_empty_r.
  - by rewrite app_cons, !rev_cons, IH, app_assoc_s.
Qed.

Lemma rev_involutive s : PyStr.rev (PyStr.rev s) = s.
Proof.
  induction s as [|c s IH]; [done|].
  by rewrite rev_cons, rev_app, IH.
Qed.

Lemma rev_rev_acc s acc : PyStr.rev (PyStr.rev_acc s acc) = PyStr.rev acc +:+ s.
Proof.
  rewrite rev_acc_app, rev_app. fold (PyStr.rev s). by rewrite rev_involutive.
Qed.

Lemma mem_char_app c (s t : string) :
  PyStr.mem_char c (s +:+ t) = PyStr.mem_char c s || PyStr.mem_char c t.
Proof.
  induction s as [|d s IH]; [done|]. rewrite app_cons. simpl.
  by destruct (decide (c = d)).
Qed.


Lemma length_app_s (s t : string) :
  String.length (s +:+ t) = (String.length s + String.length t)%nat.
Proof. induction s as [|c s IH]; [done|]. rewrite app_cons. simpl. by rewrite IH. Qed.

End StringFacts.

(** ** Escaping numbered references *)

Section Escape.

Lemma digit_step_open pending : PyStr.digit_step pending "{" = PyStr.NotDigit.
Proof. reflexivity. Qed.

Lemma digit_step_close pending : PyStr.digit_step pending "}" = PyStr.NotDigit.
Proof. reflexivity. Qed.

Lemma digit_step_backslash pending :
  PyStr.digit_step pending "\" = PyStr.NotDigit.
Proof. reflexivity. Qed.

Lemma closes_group_go_open pending s :
  closes_group_go pending (String "{" s) = false.
Proof. reflexivity. Qed.

Lemma closes_group_go_backslash pending s :
  closes_group_go pending (String "\" s) = false.
Proof. reflexivity. Qed.

Lemma closes_group_go_escape pending s :
  closes_group_go pending (escape_match_group_references s)
  = closes_group_go pending s.
Proof.
  revert pending. induction s as [|c s IH]; intros pending; [done|].
  cbn [escape_match_group_references].
  destruct (bool_decide (c = "{"%char)) eqn:Hc; cbn [andb].
  - apply bool_decide_eq_true in Hc as ->.
    destruct (closes_group s); by rewrite !closes_group_go_open.
  - cbn [closes_group_go]. destruct (decide (c = "}"%char)); [done|].
    destruct (PyStr.digit_step pending c); [done|apply IH|apply IH].
Qed.

Lemma closes_group_escape s :
  closes_group (escape_match_group_references s) = closes_group s.
Proof. apply closes_group_go_escape. Qed.

(** X1. Escaping is idempotent: an action that has been escaped is left
    as it is by a second escaping. *)
Theorem escape_idempotent s :
  escape_match_group_references (escape_match_group_references s)
  = escape_match_group_references s.
Proof.
  induction s as [|c s IH]; [done|]. cbn [escape_match_group_references].
  destruct (bool_decide (c = "{"%char) && closes_group s) eqn:Hc.
  - cbn [escape_match_group_references].
    unfold closes_group at 1. rewrite closes_group_go_backslash.
    rewrite andb_false_r, (bool_decide_eq_false_2 ("\"%char = "{"%char)) by done.
    cbn [andb]. by rewrite IH.
  - cbn [escape_match_group_references].
    rewrite closes_group_escape, Hc. by rewrite IH.
Qed.

Lemma escape_no_open s :
  PyStr.mem_char "{" s = false → escape_match_group_references s = s.
Proof.
  induction s as [|c s IH]; [done|]. cbn [escape_match_group_references PyStr.mem_char].
  destruct (decide ("{"%char = c)) as [<-|Hc]; [done|].
  intros Hs. rewrite bool_decide_eq_false_2 by congruence. cbn [andb].
  by rewrite IH.
Qed.

Lemma all_digits_go_no_open pending ds :
  PyStr.all_digits_go pending ds = true → PyStr.mem_char "{" ds = false.
Proof.
  revert pending. induction ds as [|c ds IH]; intros pending; [done|].
  cbn [PyStr.all_digits_go PyStr.mem_char].
  destruct (decide ("{"%char = c)) as [<-|Hc].
  - by rewrite digit_step_open.
  - destruct (PyStr.digit_step pending c); [done|apply IH|apply IH].
Qed.

Lemma all_digits_no_open ds :
  PyStr.all_digits ds = true → PyStr.mem_char "{" ds = false.
Proof. apply all_digits_go_no_open. Qed.

Lemma closes_group_go_digits pending ds rest :
  PyStr.all_digits_go pending ds = true →
  closes_group_go pending (ds +:+ String "}" rest) = true.
Proof.
  revert pending. induction ds as [|c ds IH]; intros pending.
  - cbn [PyStr.all_digits_go]. intros ->%bool_decide_eq_true. done.
  - rewrite app_cons. cbn [PyStr.all_digits_go closes_group_go].
    destruct (decide (c = "}"%char)) as [->|Hc].
    + by rewrite digit_step_close.
    + destruct (PyStr.digit_step pending c); [done|apply IH|apply IH].
Qed.

Lemma closes_group_digits ds rest :
  PyStr.all_digits ds = true → closes_group (ds +:+ String "}" rest) = true.
Proof. apply closes_group_go_digits. Qed.

Lemma escape_numbered ds :
  PyStr.all_digits ds = true →
  escape_match_group_references (String "{" (ds +:+ "}"))
  = String "{" (String "\" (ds +:+ "}")).
Proof.
  intros Hds. cbn [escape_match_group_references].
  rewrite (closes_group_digits ds "" Hds).
  rewrite bool_decide_eq_true_2 by done. cbn [andb].
  rewrite escape_no_open; [done|].
  rewrite mem_char_app, (all_digits_no_open ds Hds). done.
Qed.

End Escape.

(** ** Resolving references *)

Section Format.

Implicit Types (kwargs : gmap string pyval).

Lemma format_go_literal kwargs c s :
  c ≠ "{"%char → c ≠ "}"%char →
  PyFormat.format_go kwargs None (String c s)
  = res_bind (PyFormat.format_go kwargs None s) (λ r, Ok (String c r)).
Proof.
  intros H1 H2.
  destruct c as [[] [] [] [] [] [] [] []]; try reflexivity;
    by (exfalso; (apply H1 || apply H2)).
Qed.

Lemma format_go_field_char kwargs acc c s :
  c ≠ "{"%char → c ≠ "}"%char →
  PyFormat.format_go kwargs (Some acc) (String c s)
  = if PyFormat.outside_fragment c then Raise NotModelled
    else PyFormat.format_go kwargs (Some (String c acc)) s.
Proof.
  intros H1 H2.
  destruct c as [[] [] [] [] [] [] [] []]; try reflexivity;
    by (exfalso; (apply H1 || apply H2)).
Qed.

Lemma field_chars_cons c s :
  field_chars (String c s) = true →
  c ≠ "{"%char ∧ c ≠ "}"%char ∧ PyFormat.outside_fragment c = false
  ∧ field_chars s = true.
Proof.
  simpl. intros [Hc Hs]%andb_true_iff. apply negb_true_iff in Hc.
  repeat split; try done; try (intros ->; discriminate Hc).
  unfold PyFormat.outside_fragment. simpl in *.
  repeat (destruct (decide _); [done|]). done.
Qed.

(** A plain field: its characters are collected up to the closing
    brace, and the name is looked up. *)
Lemma format_go_field kwargs acc body rest :
  field_chars body = true →
  PyFormat.format_go kwargs (Some acc) (body +:+ String "}" rest)
  = res_bind (PyFormat.format_field kwargs (PyStr.rev acc +:+ body)) (λ v,
    res_bind (PyFormat.format_go kwargs None rest) (λ r, Ok (v +:+ r))).
Proof.
  revert acc. induction body as [|c body IH]; intros acc Hbody.
  - by rewrite app_empty_r.
  - apply field_chars_cons in Hbody as (H1 & H2 & H3 & Hbody).
    rewrite app_cons, format_go_field_char, H3 by done.
    rewrite IH by done. rewrite rev_cons, app_assoc_s. done.
Qed.

(** [s.format] of the single reference to [name]. *)
Lemma format_reference kwargs name :
  field_chars name = true →
  PyFormat.format (String "{" (name +:+ "}")) kwargs
  = PyFormat.format_field kwargs name.
Proof.
  intros Hname. unfold PyFormat.format.
  assert (PyFormat.format_go kwargs None (String "{" (name +:+ "}"))
          = PyFormat.format_go kwargs (Some "") (name +:+ "}")) as ->.
  { destruct name as [|c name]; [done|].
    apply field_chars_cons in Hname as (H1 & H2 & _).
    rewrite app_cons.
    destruct c as [[] [] [] [] [] [] [] []]; try reflexivity;
      by (exfalso; (apply H1 || apply H2)). }
  rewrite format_go_field by done. simpl.
  change (PyStr.rev "" +:+ name) with name.
  destruct (PyFormat.format_field kwargs name) as [v|e]; simpl; [|done].
  by rewrite app_empty_r.
Qed.

(** Text without braces resolves to itself. *)
Lemma format_no_braces kwargs s :
  no_braces s = true → PyFormat.format s kwargs = Ok s.
Proof.
  unfold no_braces, PyFormat.format. induction s as [|c s IH]; [done|].
  intros [H1 H2]%andb_true_iff.
  apply negb_true_iff in H1, H2. simpl in H1, H2.
  destruct (decide ("{"%char = c)) as [<-|Hc1]; [done|].
  destruct (decide ("}"%char = c)) as [<-|Hc2]; [done|].
  rewrite format_go_literal by congruence.
  rewrite IH; [done|]. by rewrite H1, H2.
Qed.

Lemma digit_step_field_char pending c :
  PyStr.digit_step pending c ≠ PyStr.NotDigit →
  PyStr.mem_char c "{}.[!:" = false.
Proof.
  intros H. cbn [PyStr.mem_char].
  repeat (destruct (decide _) as [->|]; [by destruct H|]). done.
Qed.

Lemma all_digits_go_field_chars pending ds :
  PyStr.all_digits_go pending ds = true → field_chars ds = true.
Proof.
  revert pending. induction ds as [|c ds IH]; intros pending; [done|].
  cbn [PyStr.all_digits_go field_chars]. intros H.
  rewrite (digit_step_field_char pending) by (intros Hn; by rewrite Hn in H).
  cbn [negb andb].
  destruct (PyStr.digit_step pending c); [done|by eapply IH|by eapply IH].
Qed.

Lemma digits_field_chars ds : PyStr.all_digits ds = true → field_chars ds = true.
Proof. apply all_digits_go_field_chars. Qed.

Lemma all_digits_backslash ds : PyStr.all_digits (String "\" ds) = false.
Proof. reflexivity. Qed.

End Format.

Lemma escaped_number_format ds msg :
  PyStr.all_digits ds = true →
  format_msg (escape_match_group_references (String "{" (ds +:+ "}"))) msg
  = match ElasticDict.live msg !! String "\" ds with
    | Some v => Ok (py_str v)
    | None => Raise (KeyError (String "\" ds))
    end.
Proof.
  intros Hds. unfold format_msg.
  rewrite escape_numbered by done.
  change (String "\" (ds +:+ "}")) with (String "\" ds +:+ "}").
  rewrite format_reference.
  - unfold PyFormat.format_field. by rewrite all_digits_backslash.
  - cbn [field_chars]. by rewrite digits_field_chars.
Qed.

(** X2. Numbered references.  For every string of decimal digits [ds],
    the reference "{ds}" of an action or of a rewrite target, once
    escaped, resolves to the value of the message variable named by a
    backslash followed by [ds], and raises [KeyError] with that name when
    the message has no such variable; without the escaping [str.format]
    takes the number for the index of a positional argument and raises
    [IndexError], or [ValueError] when the number is above [sys.maxsize]. *)
Theorem numbered_reference_resolves ds msg :
  PyStr.all_digits ds = true →
  format_msg (escape_match_group_references (String "{" (ds +:+ "}"))) msg
  = match ElasticDict.live msg !! String "\" ds with
    | Some v => Ok (py_str v)
    | None => Raise (KeyError (String "\" ds))
    end
  ∧ format_msg (String "{" (ds +:+ "}")) msg
    = Raise (if (PyFormat.sys_maxsize <? PyStr.decimal ds)%N
             then ValueError else IndexError).
Proof.
  intros Hds. split; [by apply escaped_number_format|].
  unfold format_msg.
  rewrite format_reference by (by apply digits_field_chars).
  unfold PyFormat.format_field. rewrite Hds.
  by destruct (PyFormat.sys_maxsize <? PyStr.decimal ds)%N.
Qed.

(** ** Capture groups as variables *)

Section Captures.

Lemma digit_is_digit d :
  (d < 10)%nat → PyStr.is_ascii_digit (PyStr.digit d) = true.
Proof. intros Hd. do 10 (destruct d as [|d]; [reflexivity|]). lia. Qed.

Lemma digit_value d : (d < 10)%nat → (nat_of_ascii (PyStr.digit d) - 48 = d)%nat.
Proof. intros Hd. do 10 (destruct d as [|d]; [reflexivity|]). lia. Qed.

Lemma all_digits_digit d acc :
  (d < 10)%nat →
  PyStr.all_digits (String (PyStr.digit d) acc) = PyStr.all_digits acc.
Proof. intros Hd. do 10 (destruct d as [|d]; [reflexivity|]). lia. Qed.

Lemma of_nat_go_digits fuel n acc :
  PyStr.all_digits acc = true → PyStr.all_digits (PyStr.of_nat_go fuel n acc) = true.
Proof.
  revert n acc. induction fuel as [|fuel IH]; intros n acc Hacc; [done|].
  cbn [PyStr.of_nat_go].
  assert (PyStr.all_digits (String (PyStr.digit (n mod 10)) acc) = true) as Hacc'.
  { rewrite all_digits_digit; [done|]. apply Nat.mod_upper_bound. lia. }
  destruct (n <? 10)%nat; [done|]. by apply IH.
Qed.

Lemma of_nat_digits n : PyStr.all_digits (PyStr.of_nat n) = true.
Proof. by apply of_nat_go_digits. Qed.

Lemma of_nat_go_value fuel n acc :
  (n < fuel)%nat →
  decimal_value (PyStr.of_nat_go fuel n acc) 0 = decimal_value acc n.
Proof.
  revert n acc. induction fuel as [|fuel IH]; intros n acc Hn; [lia|].
  cbn [PyStr.of_nat_go].
  destruct (n <? 10)%nat eqn:Hlt.
  - apply Nat.ltb_lt in Hlt. cbn [decimal_value].
    rewrite digit_value by (apply Nat.mod_upper_bound; lia).
    rewrite Nat.mod_small by done. f_equal.
  - apply Nat.ltb_ge in Hlt.
    assert (n / 10 < n)%nat by (apply Nat.div_lt; lia).
    rewrite IH by lia. cbn [decimal_value].
    rewrite digit_value by (apply Nat.mod_upper_bound; lia).
    f_equal. pose proof (Nat.div_mod_eq n 10). lia.
Qed.

(** The decimal rendering can be read back. *)
Lemma of_nat_value n : decimal_value (PyStr.of_nat n) 0 = n.
Proof. unfold PyStr.of_nat. by rewrite of_nat_go_value by lia. Qed.

Lemma of_nat_inj n m : PyStr.of_nat n = PyStr.of_nat m → n = m.
Proof. intros H. by rewrite <- (of_nat_value n), H, of_nat_value. Qed.

Lemma update_snoc items key value d :
  ElasticDict.update (items ++ [(key, value)]) d
  = ElasticDict.set key value (ElasticDict.update items d).
Proof. unfold ElasticDict.update. by rewrite foldl_app. Qed.

Lemma group_items_snoc groups g :
  group_items (groups ++ [g])
  = group_items groups
    ++ [(String "\" (PyStr.of_nat (length groups)), from_option VStr VNone g)].
Proof. unfold group_items. rewrite imap_app. simpl. by rewrite Nat.add_0_r. Qed.

(** After the groups of a match have been bound, the variable of group
    [i] holds the text of group [i]. *)
Lemma update_group_items_lookup groups msg i g :
  groups !! i = Some g →
  ElasticDict.live (ElasticDict.update (group_items groups) msg)
    !! String "\" (PyStr.of_nat i)
  = Some (from_option VStr VNone g).
Proof.
  revert i g. induction groups as [|g' groups IH] using rev_ind; intros i g Hi.
  - by rewrite lookup_nil in Hi.
  - rewrite group_items_snoc, update_snoc. simpl.
    destruct (decide (i = length groups)) as [->|Hne].
    + rewrite lookup_app_r, Nat.sub_diag in Hi by lia. injection Hi as ->.
      by rewrite lookup_insert_eq.
    + rewrite lookup_insert_ne.
      * apply IH. rewrite lookup_app_l in Hi; [done|].
        apply lookup_lt_Some in Hi. rewrite length_app in Hi. simpl in Hi. lia.
      * intros [= Heq]. by apply of_nat_inj in Heq.
Qed.

Lemma arg_matches_loop_inv cap patterns arg msg cache tr msg' cache' tr' :
  arg_matches_loop cap patterns arg msg cache tr = (Ok (true, msg', cache'), tr') →
  ∃ pattern groups,
    pattern ∈ patterns
    ∧ re_search cap pattern arg = Ok (Some groups)
    ∧ msg' = ElasticDict.update (group_items groups) msg.
Proof.
  induction patterns as [|p ps IH]; simpl; intros H.
  - by apply ret_ok in H as [[=] _].
  - minv. mcase.
    + apply ret_ok in H as [[= -> ->] _].
      eexists p, _. split; [by left|done].
    + destruct (IH H) as (q & groups & Hq & Hs & ->).
      exists q, groups. split; [by right|done].
Qed.

End Captures.

(** X3. Capture round trip.  When [arg matches] returns true, some
    pattern of its list was found in the resolved target, and in the
    message it returns the reference "{i}" of a later action, once
    escaped, resolves to the text of group [i] of that match, for every
    group of the match (to "None" for a group that took no part). *)
Theorem captured_groups_resolve cap msg target patterns cache tr msg' cache' tr' :
  arg_matches_func cap msg [AStr target; AList patterns] cache tr
    = (Ok (true, msg', cache'), tr') →
  ∃ arg pattern groups,
    format_msg target msg = Ok arg
    ∧ pattern ∈ patterns
    ∧ re_search cap pattern arg = Ok (Some groups)
    ∧ ∀ i g, groups !! i = Some g →
        format_msg
          (escape_match_group_references (String "{" (PyStr.of_nat i +:+ "}")))
          msg'
        = Ok (from_option id "None" g).
Proof.
  unfold arg_matches_func. intros H.
  change (unpack2 [AStr target; AList patterns])
    with (Ok (AStr target, AList patterns)) in H.
  rewrite (bind_eq_ok _ _ _ (AStr target, AList patterns) _ eq_refl) in H.
  cbv beta iota in H. minv. simpl in Hstep.
  apply arg_matches_loop_inv in H as (pattern & groups & Hp & Hs & ->).
  eexists _, pattern, groups. repeat split; try done.
  intros i g Hi.
  rewrite (escaped_number_format (PyStr.of_nat i)
             (ElasticDict.update (group_items groups) msg) (of_nat_digits i)).
  rewrite (update_group_items_lookup _ _ _ _ Hi). by destruct g.
Qed.

(** ** More on the match clauses *)

Section MatchClauses.

Variable cap : Capabilities.

Lemma arg_matches_func_eq msg target patterns cache tr arg :
  format_msg target msg = Ok arg →
  arg_matches_func cap msg [AStr target; AList patterns] cache tr
  = arg_matches_loop cap patterns arg msg cache tr.
Proof.
  intros Hfmt. unfold arg_matches_func, bind, lift; simpl. by rewrite Hfmt.
Qed.

Lemma arg_matches_loop_skip pre rest arg msg cache tr :
  Forall (λ q, re_search cap q arg = Ok None) pre →
  arg_matches_loop cap (pre ++ rest) arg msg cache tr
  = arg_matches_loop cap rest arg msg cache tr.
Proof.
  induction 1 as [|q pre Hq _ IH]; [done|]. simpl.
  unfold bind at 1, lift at 1. by rewrite Hq.
Qed.

Lemma Kind_of_name_name k : Kind_of_name (Kind_name k) = Some k.
Proof. by destruct k. Qed.

Lemma reduce_split_raises pre pattern post tmp :
  Forall (λ p, commas p = 1%nat) pre →
  commas pattern ≠ 1%nat →
  reduce_split (pre ++ pattern :: post) tmp = Raise TypeError.
Proof.
  intros Hpre Hp. revert tmp.
  induction Hpre as [|p pre Hp1 _ IH]; intros tmp; simpl.
  - by rewrite rewrite_split_not_pair.
  - destruct (rewrite_split_pair tmp p Hp1) as (old & new & _ & ->). simpl.
    apply IH.
Qed.

End MatchClauses.

(** X4. [arg matches] tries its patterns in order and the first one found
    wins: when the target resolves to [arg], the patterns [pre] are not
    found in it and [pattern] is found with [groups], the clause returns
    true with the groups of [pattern] bound, whatever patterns follow;
    when no pattern of the list is found (the empty list included) it
    returns false and the message is the one it was given.  In both cases
    the cache and the trace are untouched. *)
Theorem arg_matches_first_success cap msg target cache tr arg :
  format_msg target msg = Ok arg →
  (∀ pre pattern post groups,
     Forall (λ q, re_search cap q arg = Ok None) pre →
     re_search cap pattern arg = Ok (Some groups) →
     arg_matches_func cap msg [AStr target; AList (pre ++ pattern :: post)] cache tr
     = (Ok (true, ElasticDict.update (group_items groups) msg, cache), tr))
  ∧ (∀ patterns,
       Forall (λ q, re_search cap q arg = Ok None) patterns →
       arg_matches_func cap msg [AStr target; AList patterns] cache tr
       = (Ok (false, msg, cache), tr)).
Proof.
  intros Hfmt. split.
  - intros pre pattern post groups Hpre Hp.
    rewrite (arg_matches_func_eq cap _ _ _ _ _ _ Hfmt).
    rewrite arg_matches_loop_skip by done. simpl.
    unfold bind, lift. by rewrite Hp.
  - intros patterns Hps.
    rewrite (arg_matches_func_eq cap _ _ _ _ _ _ Hfmt).
    rewrite <- (app_nil_r patterns). by rewrite arg_matches_loop_skip.
Qed.

(** X5. Only [arg istype] touches the type cache: a call of any other
    match clause that returns leaves the cache as it was and adds nothing
    to the trace but the record of the call itself (no detection and no
    request is recorded; what [arg matches] asks of [re.search] is not an
    event of the trace). *)
Theorem only_istype_uses_cache cap line msg cache tr b msg' cache' tr' :
  match_key line ≠ "arg istype" →
  call_match_clause cap line msg cache tr = (Ok (b, msg', cache'), tr') →
  cache' = cache
  ∧ tr' = tr ++ [EvMatchCall (match_key line) (m_arguments line)].
Proof.
  unfold call_match_clause, match_clauses. intros Hkey H.
  repeat case_decide; minv;
    first [ by apply kind_is_func_msg in H as (_ & -> & ->)
          | by apply arg_is_func_msg in H as (_ & -> & ->)
          | done
          | by apply arg_matches_func_msg in H as (_ & -> & ->)
          | by apply arg_rewrite_func_msg in H as (_ & -> & -> & _)
          | by apply raise_ok in H ].
Qed.

(** X6. On a message that has a kind, [kind is K] for a kind name [K]
    returns true exactly when the kind of the message is the member named
    [K]; the message, the cache and the trace are returned as they were,
    and arguments after the first are ignored. *)
Theorem kind_is_exact msg kind k rest cache tr :
  ElasticDict.get "kind" msg = Ok kind →
  kind_is_func msg (AStr (Kind_name k) :: rest) cache tr
  = (Ok (bool_decide (kind = VKind k), msg, cache), tr).
Proof.
  intros Hkind. unfold kind_is_func. rewrite Hkind.
  by rewrite Kind_of_name_name.
Qed.

(** X7. With a detected type and an empty pattern list, [arg istype]
    raises [UnboundLocalError]: the variable [m] of the search loop is
    read without ever having been bound.  (With an empty list
    [arg matches] returns false instead, by X4.) *)
Theorem istype_empty_patterns_raises cap msg target cache tr arg type_cache ty tr1 :
  format_msg target msg = Ok arg →
  cache !! "type" = Some type_cache →
  cached_or_detected cap msg type_cache arg tr = (Ok (Some ty), tr1) →
  ty ≠ "" →
  arg_istype_func cap msg [AStr target; AList []] cache tr
  = (Raise (UnboundLocalError "m"), tr1).
Proof.
  intros Hfmt Hcache Ht Hty.
  rewrite (arg_istype_func_eq cap _ _ [] _ _ _ _ _ _ Hfmt Hcache Ht).
  unfold truthy. by rewrite bool_decide_eq_false_2.
Qed.

(** X8. A substitution of [arg rewrite] that is not one [old,new] pair
    (no comma, or two or more) makes the clause raise [TypeError], once
    the target has resolved and the substitutions before it have been
    applied; nothing is bound. *)
Theorem rewrite_malformed_substitution msg target pre pattern post cache tr tmp :
  format_msg (escape_match_group_references target) msg = Ok tmp →
  Forall (λ p, commas p = 1%nat) pre →
  commas pattern ≠ 1%nat →
  arg_rewrite_func msg [AStr target; AList (pre ++ pattern :: post)] cache tr
  = (Raise TypeError, tr).
Proof.
  intros Hfmt Hpre Hp.
  unfold arg_rewrite_func, bind, lift; simpl.
  by rewrite Hfmt, reduce_split_raises.
Qed.

(** ** Names in braces *)

Section Names.

Lemma mem_char_cons_ne c d s :
  c ≠ d → PyStr.mem_char c (String d s) = PyStr.mem_char c s.
Proof. intros Hne. simpl. by destruct (decide (c = d)). Qed.


Lemma no_braces_cons c s :
  no_braces (String c s) = true →
  c ≠ "{"%char ∧ c ≠ "}"%char ∧ no_braces s = true.
Proof.
  unfold no_braces. simpl. intros [H1 H2]%andb_true_iff.
  apply negb_true_iff in H1, H2.
  destruct (decide ("{"%char = c)) as [<-|]; [done|].
  destruct (decide ("}"%char = c)) as [<-|]; [done|].
  by rewrite H1, H2.
Qed.



Lemma no_braces_app (s t : string) :
  no_braces (s +:+ t) = no_braces s && no_braces t.
Proof.
  unfold no_braces. rewrite !mem_char_app.
  by destruct (PyStr.mem_char "{" s), (PyStr.mem_char "}" s),
    (PyStr.mem_char "{" t), (PyStr.mem_char "}" t).
Qed.





End Names.


(** ** Splitting *)

Section Splitting.

Lemma split_char_none sep s cur :
  PyStr.split_char sep O s cur = [PyStr.rev cur +:+ s].
Proof. destruct s; simpl; [by rewrite app_empty_r|done]. Qed.

(** The first piece of a split at the first separator. *)
Lemma split_char_first sep s cur :
  PyStr.mem_char sep s = true →
  ∃ a b, PyStr.split_char sep 1 s cur = [PyStr.rev cur +:+ a; b]
         ∧ s = a +:+ String sep b
         ∧ PyStr.mem_char sep a = false.
Proof.
  revert cur. induction s as [|c s IH]; intros cur; [done|].
  cbn [PyStr.split_char PyStr.mem_char].
  destruct (decide (c = sep)) as [->|Hne].
  - intros _. exists "", s. rewrite split_char_none, app_empty_r. done.
  - rewrite decide_False by congruence. intros Hs.
    destruct (IH (String c cur) Hs) as (a & b & -> & -> & Ha).
    exists (String c a), b. rewrite rev_cons, app_assoc_s.
    split; [done|]. split; [done|].
    by rewrite mem_char_cons_ne by congruence.
Qed.

Lemma mem_char_count sep s :
  PyStr.mem_char sep s = true
  ↔ (0 < length (filter (λ c, c = sep) (list_ascii_of_string s)))%nat.
Proof.
  induction s as [|c s IH]; simpl; [split; [done|lia]|].
  rewrite filter_cons.
  destruct (decide (sep = c)) as [->|Hne].
  - rewrite decide_True by done. simpl. split; [lia|done].
  - rewrite decide_False by congruence. done.
Qed.

Lemma count_le_length sep s :
  (length (filter (λ c, c = sep) (list_ascii_of_string s)) ≤ String.length s)%nat.
Proof.
  induction s as [|c s IH]; simpl; [done|].
  rewrite filter_cons. destruct (decide (c = sep)); simpl; lia.
Qed.

(** [s.split(sep)[1]] exists exactly when [sep] occurs in [s]. *)
Lemma split_second sep s :
  is_Some (PyStr.split sep (String.length s) s !! 1%nat)
  ↔ PyStr.mem_char sep s = true.
Proof.
  rewrite lookup_lt_is_Some. unfold PyStr.split. rewrite split_char_length.
  rewrite mem_char_count. pose proof (count_le_length sep s). lia.
Qed.

End Splitting.

(** X10. [lookup_content_type] drops the parameters of the header: when
    the request gives a content-type header, the type returned has no
    semicolon and is the header itself or the part of the header before
    its first semicolon; when the request fails or has no such header, no
    type is returned.  Either way exactly one HEAD request is recorded. *)
Theorem content_type_without_parameters cap u tr :
  match http_head cap tr u with
  | None => lookup_content_type cap u tr = (Ok None, tr ++ [EvHttpHead u])
  | Some response =>
      ∃ ct, lookup_content_type cap u tr = (Ok (Some ct), tr ++ [EvHttpHead u])
            ∧ PyStr.mem_char ";" ct = false
            ∧ (response = ct ∨ ∃ rest, response = ct +:+ String ";" rest)
  end.
Proof.
  unfold lookup_content_type, bind, history, emit.
  destruct (http_head cap tr u) as [response|]; [|done].
  destruct (PyStr.mem_char ";" response) eqn:Hsemi.
  - destruct (split_char_first ";" response "" Hsemi) as (a & b & Hsplit & -> & Ha).
    unfold PyStr.split. rewrite Hsplit.
    exists a. split; [done|]. split; [done|]. right. by exists b.
  - exists response. split; [done|]. split; [done|]. by left.
Qed.

(** ** [plumb run] and [plumb download] *)

Section Actions.

Variable cap : Capabilities.

Lemma find_char_absent c start s :
  PyStr.mem_char c s = false → PyStr.find_char c start s = None.
Proof.
  revert start. induction s as [|d s IH]; intros start; [done|].
  cbn [PyStr.mem_char PyStr.find_char].
  destruct (decide (c = d)); [done|]. intros Hs.
  destruct start; by rewrite IH.
Qed.

Lemma get_var_references_no_open s :
  PyStr.mem_char "{" s = false → get_var_references s = [].
Proof.
  intros Hs. unfold get_var_references. cbn [get_var_references_go].
  by rewrite find_char_absent.
Qed.

Lemma piece_no_braces cur :
  no_braces cur = true → Forall (λ p, no_braces p = true) (PyStr.piece cur).
Proof. intros Hcur. destruct cur; [done|]. by constructor. Qed.

Lemma split_ws_go_no_braces pending s cur :
  no_braces pending = true → no_braces s = true → no_braces cur = true →
  Forall (λ p, no_braces p = true) (PyStr.split_ws_go pending s cur).
Proof.
  revert pending cur. induction s as [|c s IH]; intros pending cur Hp Hs Hcur.
  - cbn [PyStr.split_ws_go]. apply piece_no_braces.
    by rewrite no_braces_app, Hcur, Hp.
  - apply no_braces_cons in Hs as (H1 & H2 & Hs). cbn [PyStr.split_ws_go].
    assert (no_braces (String c "") = true) as Hc.
    { unfold no_braces. by rewrite !mem_char_cons_ne by congruence. }
    destruct (PyStr.is_ascii c).
    + destruct (PyStr.is_ascii_space c).
      * apply Forall_app. split; [|by apply IH].
        apply piece_no_braces. by rewrite no_braces_app, Hcur, Hp.
      * apply IH; [done|done|]. by rewrite !no_braces_app, Hcur, Hp, Hc.
    + cbv zeta.
      destruct (String.length (pending +:+ String c "") <? PyStr.utf8_len _)%nat.
      * apply IH; [|done|done]. by rewrite no_braces_app, Hp, Hc.
      * destruct (PyStr.is_space_char _).
        -- apply Forall_app. split; [by apply piece_no_braces|by apply IH].
        -- apply IH; [done|done|]. by rewrite !no_braces_app, Hcur, Hp, Hc.
Qed.

Lemma format_all_no_braces args msg :
  Forall (λ p, no_braces p = true) args → format_all args msg = Ok args.
Proof.
  induction 1 as [|a args Ha _ IH]; [done|]. simpl.
  unfold format_msg. by rewrite format_no_braces, IH.
Qed.

Lemma get_raises key msg e :
  ElasticDict.get key msg = Raise e → e = KeyError key.
Proof.
  unfold ElasticDict.get. destruct (ElasticDict.live msg !! key); congruence.
Qed.

(** A reference to a variable the message does not have makes the
    lookups of [log_var_references] raise [KeyError]. *)
Lemma log_var_references_go_missing msg vs :
  Exists (λ v, ElasticDict.live msg !! PyStr.strip "{}" v = None) vs →
  ∃ key, log_var_references_go msg vs = Raise (KeyError key).
Proof.
  induction 1 as [v vs Hv|v vs _ IH]; simpl.
  - unfold ElasticDict.get. rewrite Hv. by eexists.
  - destruct (ElasticDict.get (PyStr.strip "{}" v) msg) as [x|e] eqn:Hget; [done|].
    apply get_raises in Hget as ->. by eexists.
Qed.

End Actions.

(** X11. A missing executable.  When the variables of the argument string
    are bound, its pieces resolve and the process cannot be started for
    want of the file, [plumb run] returns false if the text of the error
    has an apostrophe in it, and otherwise raises [IndexError] from
    inside its handler, which reads the second apostrophe-separated piece
    of that text.  The call is recorded and the message is not changed. *)
Theorem run_missing_executable cap msg argument_string argv tr strerror :
  log_var_references msg argument_string = Ok tt →
  format_all (PyStr.split_ws argument_string) msg = Ok argv →
  subprocess_call cap tr argv = FileNotFound strerror →
  plumb_run_func cap msg argument_string tr
  = (if PyStr.mem_char "'" strerror then Ok (false, msg) else Raise IndexError,
     tr ++ [EvSubprocess argv]).
Proof.
  intros Hlog Hfmt Hcall. unfold plumb_run_func. rewrite Hlog.
  unfold bind, lift, history, emit. rewrite Hfmt, Hcall.
  pose proof (split_second "'" strerror) as Hsplit.
  destruct (PyStr.split "'" (String.length strerror) strerror !! 1%nat) as [x|].
  - rewrite (proj1 Hsplit) by eauto. done.
  - destruct (PyStr.mem_char "'" strerror); [|done].
    by destruct (proj2 Hsplit eq_refl).
Qed.

(** X12. A command without references.  For an argument string with no
    brace in it, [plumb run] looks up no variable and calls the process
    with the pieces of the string between white space, unchanged; it
    returns true exactly when the process exits with status 0, and the
    message is not changed. *)
Theorem run_plain_command cap msg argument_string tr :
  no_braces argument_string = true →
  (plumb_run_func cap msg argument_string tr).2
  = tr ++ [EvSubprocess (PyStr.split_ws argument_string)]
  ∧ ∀ status,
      subprocess_call cap tr (PyStr.split_ws argument_string) = Exited status →
      plumb_run_func cap msg argument_string tr
      = (Ok (bool_decide (status = 0%Z), msg),
         tr ++ [EvSubprocess (PyStr.split_ws argument_string)]).
Proof.
  intros Hnb.
  assert (log_var_references msg argument_string = Ok tt) as Hlog.
  { unfold log_var_references. rewrite get_var_references_no_open; [done|].
    apply andb_true_iff in Hnb as [Ho _]. by apply negb_true_iff in Ho. }
  assert (format_all (PyStr.split_ws argument_string) msg
          = Ok (PyStr.split_ws argument_string)) as Hfmt.
  { apply format_all_no_braces. by apply split_ws_go_no_braces. }
  split.
  - by apply plumb_run_func_call.
  - intros status Hcall. unfold plumb_run_func. rewrite Hlog.
    unfold bind, lift, history, emit. by rewrite Hfmt, Hcall.
Qed.

(** X13. A reference to an unbound variable fails the action quietly:
    when one of the references [get_var_references] finds in the argument
    string names a variable the message does not have, [plumb run] and
    [plumb download] return false with the message as it was and call no
    collaborator (the trace is untouched). *)
Theorem unbound_reference_fails_action cap msg argument_string v tr :
  v ∈ get_var_references argument_string →
  ElasticDict.live msg !! PyStr.strip "{}" v = None →
  plumb_run_func cap msg argument_string tr = (Ok (false, msg), tr)
  ∧ plumb_download_func cap msg argument_string tr = (Ok (false, msg), tr).
Proof.
  intros Hv Hmissing.
  destruct (log_var_references_go_missing msg (get_var_references argument_string))
    as (key & Hlog).
  { apply Exists_exists. eauto. }
  unfold plumb_run_func, plumb_download_func, log_var_references.
  by rewrite Hlog.
Qed.

(** ** Runs in which no rule matches *)

(** X14. When every rule of the list has failed to match, the run
    returns with the log line "No rule matched" as its last event; every
    rule has been tried once, in the order of the list, and no action has
    been executed. *)
Theorem no_rule_matched cap msg0 rules tr0 msg cache tr :
  reaches cap rules msg0 {[ "type" := ∅ ]} tr0 (length rules) msg cache tr →
  handle_rules cap msg0 rules tr0 = (Ok (msg, cache), tr ++ [EvNoRuleMatched])
  ∧ ∃ evs, tr = tr0 ++ evs
           ∧ executing_actions evs = []
           ∧ matching_rules evs = rule_name <$> rules.
Proof.
  intros Hreach. split.
  - unfold handle_rules. rewrite (reaches_loop _ _ _ _ _ _ _ _ _ Hreach).
    by rewrite drop_all.
  - apply reaches_trace in Hreach as (evs & -> & Hacts & Hrules).
    exists evs. by rewrite firstn_all in Hrules.
Qed.

(** ** Results and events together *)

Section EmitsPost.

Context {A B : Type} (P : event → Prop).

Lemma emits_post_ret (Q : A → Prop) a : Q a → emits_post P Q (ret a).
Proof.
  intros Ha tr. exists []. rewrite app_nil_r.
  split; [done|]. split; [done|]. by intros ? [= <-].
Qed.

Lemma emits_post_raise (Q : A → Prop) e : emits_post P Q (raise e).
Proof. intros tr. exists []. by rewrite app_nil_r. Qed.

Lemma emits_post_lift (Q : A → Prop) (r : res A) :
  (∀ a, r = Ok a → Q a) → emits_post P Q (lift r).
Proof.
  intros Hr tr. exists []. rewrite app_nil_r.
  split; [done|]. split; [done|]. intros a. simpl. apply Hr.
Qed.

Lemma emits_post_bind (R : A → Prop) (Q : B → Prop) (c : M A) (k : A → M B) :
  emits_post P R c → (∀ a, R a → emits_post P Q (k a)) →
  emits_post P Q (bind c k).
Proof.
  intros Hc Hk tr. unfold bind.
  destruct (Hc tr) as (evs & Heq & Hevs & Hres).
  destruct (c tr) as [[a|e] tr1]; simpl in *; subst.
  - destruct (Hk a (Hres a eq_refl) (tr ++ evs)) as (evs' & Heq' & Hevs' & Hres').
    exists (evs ++ evs'). rewrite Heq', app_assoc.
    split; [done|]. split; [by apply Forall_app|done].
  - exists evs. split; [done|]. split; [done|]. done.
Qed.

Lemma emits_post_of_emits (c : M A) : emits P c → emits_post P (λ _, True) c.
Proof.
  intros Hc tr. destruct (Hc tr) as (evs & ? & ?). by exists evs.
Qed.

Lemma emits_post_weaken (P' : event → Prop) (Q Q' : A → Prop) (c : M A) :
  (∀ e, P e → P' e) → (∀ a, Q a → Q' a) →
  emits_post P Q c → emits_post P' Q' c.
Proof.
  intros HP HQ Hc tr. destruct (Hc tr) as (evs & ? & Hevs & Hres).
  exists evs. split; [done|]. split; [by eapply Forall_impl|auto].
Qed.

End EmitsPost.

Lemma emits_post_emit (P : event → Prop) (Q : unit → Prop) e :
  P e → Q tt → emits_post P Q (emit e).
Proof.
  intros He Hq tr. exists [e]. split; [done|]. split; [by constructor|].
  by intros [] _.
Qed.

Lemma emits_post_history (P : event → Prop) :
  emits_post P (λ _, True) history.
Proof. intros tr. exists []. by rewrite app_nil_r. Qed.

(** ** What the match phase may do *)

Ltac from_match_step :=
  first
    [ apply emits_ret | apply emits_raise | apply emits_lift
    | apply emits_history
    | apply emits_emit; exact I
    | apply emits_bind; [|intros ?]
    | match goal with
      | |- emits _ (match ?x with _ => _ end) => destruct x
      end ].

Section MatchPhase.

Variable cap : Capabilities.

Lemma arg_matches_loop_from_match patterns arg msg cache :
  emits from_match (arg_matches_loop cap patterns arg msg cache).
Proof.
  induction patterns as [|p ps IH]; simpl; repeat from_match_step. apply IH.
Qed.

Lemma cached_or_detected_from_match msg type_cache arg :
  emits from_match (cached_or_detected cap msg type_cache arg).
Proof.
  unfold cached_or_detected, detect_mimetype, lookup_content_type,
    mime_from_buffer.
  repeat from_match_step.
Qed.

Lemma match_clauses_from_match key f msg arguments cache :
  match_clauses cap key = Some f → emits from_match (f msg arguments cache).
Proof.
  unfold match_clauses. intros Hf. repeat case_decide; simplify_eq.
  - unfold kind_is_func. repeat from_match_step.
  - unfold arg_is_func. repeat from_match_step.
  - unfold arg_istype_func.
    repeat first [apply cached_or_detected_from_match | from_match_step].
  - unfold arg_matches_func.
    repeat first [apply arg_matches_loop_from_match | from_match_step].
  - unfold arg_rewrite_func. repeat from_match_step.
Qed.

Lemma call_match_clause_from_match line msg cache :
  emits from_match (call_match_clause cap line msg cache).
Proof.
  unfold call_match_clause.
  destruct (match_clauses cap (match_key line)) as [f|] eqn:Hf;
    [|apply emits_raise].
  apply emits_bind; [by apply emits_emit|]. intros _.
  by eapply match_clauses_from_match.
Qed.

Lemma run_match_lines_from_match lines msg cache :
  emits from_match (run_match_lines cap lines msg cache).
Proof.
  revert msg cache. induction lines as [|l lines IH]; intros msg cache; simpl.
  - apply emits_ret.
  - apply emits_bind; [apply call_match_clause_from_match|].
    intros [[[] msg1] cache1]; [apply IH|apply emits_ret].
Qed.

End MatchPhase.

(** X16. Matching starts nothing: whatever the match lines, the message
    and the collaborators, and whether the loop returns or raises, the
    match loop of a rule adds to the trace only clause calls, detections
    and the detection's own requests (a HEAD request, a call of
    libmagic); it never starts a process, shows a notification, writes a
    file or downloads. *)
Theorem matching_starts_nothing cap lines msg cache tr :
  ∃ evs, (run_match_lines cap lines msg cache tr).2 = tr ++ evs
         ∧ Forall from_match evs.
Proof. apply run_match_lines_from_match. Qed.

(** ** The rule name during the actions *)

Section RuleName.

Variable cap : Capabilities.

Lemma get_set_ne key key' value msg :
  key ≠ key' →
  ElasticDict.get key (ElasticDict.set key' value msg) = ElasticDict.get key msg.
Proof.
  intros Hne. unfold ElasticDict.get, ElasticDict.set. simpl.
  by rewrite lookup_insert_ne.
Qed.

Lemma plumb_run_func_titled name msg s :
  ElasticDict.get "rule_name" msg = Ok (VStr name) →
  emits_post (titled (VStr name)) (keeps_rule_name name) (plumb_run_func cap msg s).
Proof.
  intros Hname. unfold plumb_run_func.
  destruct (log_var_references msg s) as [[]|[]];
    try apply emits_post_raise; try (by apply emits_post_ret).
  eapply emits_post_bind with (R := λ _, True); [by apply emits_post_lift|].
  intros argv _.
  eapply emits_post_bind; [apply emits_post_history|]. intros h _.
  eapply emits_post_bind with (R := λ _, True); [by apply emits_post_emit|].
  intros _ _.
  destruct (subprocess_call cap h argv) as [status|strerror|e];
    try apply emits_post_raise; try (by apply emits_post_ret).
  destruct (_ !! 1%nat); [by apply emits_post_ret|apply emits_post_raise].
Qed.

Lemma plumb_notify_func_titled name msg s :
  ElasticDict.get "rule_name" msg = Ok (VStr name) →
  emits_post (titled (VStr name)) (keeps_rule_name name) (plumb_notify_func cap msg s).
Proof.
  intros Hname. unfold plumb_notify_func.
  eapply emits_post_bind with (R := λ _, True); [by apply emits_post_lift|].
  intros message _.
  eapply emits_post_bind with (R := λ title, title = VStr name).
  { apply emits_post_lift. intros title Ht. congruence. }
  intros title ->.
  eapply emits_post_bind; [apply emits_post_history|]. intros h _.
  eapply emits_post_bind with (R := λ _, True); [by apply emits_post_emit|].
  intros _ _.
  eapply emits_post_bind with (R := λ _, True); [by apply emits_post_lift|].
  intros _ _. by apply emits_post_ret.
Qed.

Lemma plumb_save_func_titled name msg s :
  ElasticDict.get "rule_name" msg = Ok (VStr name) →
  emits_post (titled (VStr name)) (keeps_rule_name name) (plumb_save_func cap msg s).
Proof.
  intros Hname. unfold plumb_save_func.
  eapply emits_post_bind; [apply emits_post_history|]. intros h _.
  eapply emits_post_bind with (R := λ _, True); [by apply emits_post_lift|].
  intros file _.
  eapply emits_post_bind with (R := λ _, True); [by apply emits_post_lift|].
  intros [data| |] _; try apply emits_post_raise.
  eapply emits_post_bind with (R := λ _, True); [by apply emits_post_emit|].
  intros _ _. apply emits_post_ret.
  unfold keeps_rule_name. simpl. by rewrite get_set_ne.
Qed.

Lemma plumb_download_func_titled name msg s :
  ElasticDict.get "rule_name" msg = Ok (VStr name) →
  emits_post (titled (VStr name)) (keeps_rule_name name) (plumb_download_func cap msg s).
Proof.
  intros Hname. unfold plumb_download_func.
  destruct (log_var_references msg s) as [[]|[]];
    try apply emits_post_raise; try (by apply emits_post_ret).
  eapply emits_post_bind with (R := λ _, True); [by apply emits_post_lift|].
  intros u _.
  eapply emits_post_bind; [apply emits_post_history|]. intros h _.
  eapply emits_post_bind with (R := λ _, True); [by apply emits_post_emit|].
  intros _ _.
  destruct (http_download cap h u) as [filename|e|];
    try apply emits_post_raise; try (by apply emits_post_ret).
  apply emits_post_ret. unfold keeps_rule_name. simpl. by rewrite get_set_ne.
Qed.

Lemma action_clauses_titled key f name msg action :
  action_clauses cap key = Some f →
  ElasticDict.get "rule_name" msg = Ok (VStr name) →
  emits_post (titled (VStr name)) (keeps_rule_name name) (f msg action).
Proof.
  unfold action_clauses. intros Hf Hname.
  repeat case_decide; simplify_eq;
    auto using plumb_run_func_titled, plumb_notify_func_titled,
      plumb_save_func_titled, plumb_download_func_titled.
Qed.

Lemma run_action_lines_titled name lines msg :
  ElasticDict.get "rule_name" msg = Ok (VStr name) →
  emits_post (titled (VStr name)) (λ _, True) (run_action_lines cap name lines msg).
Proof.
  revert msg. induction lines as [|l lines IH]; intros msg Hname; simpl.
  - by apply emits_post_ret.
  - eapply emits_post_bind with (R := λ _, True); [by apply emits_post_emit|].
    intros _ _.
    destruct (action_clauses cap (action_key l)) as [f|] eqn:Hf;
      [|apply emits_post_raise].
    eapply emits_post_bind; [by eapply action_clauses_titled|].
    intros [[] msg1] Hkeep; [by apply IH|by apply emits_post_ret].
Qed.

Lemma titled_titled_by_rule rules r e :
  r ∈ rules → titled (VStr (rule_name r)) e → titled_by_rule rules e.
Proof. intros Hr. destruct e; simpl; try done. intros ->. by exists r. Qed.

Lemma from_match_titled_by_rule rules e : from_match e → titled_by_rule rules e.
Proof. by destruct e. Qed.

Lemma handle_rules_loop_titled all rules msg cache :
  rules ⊆ all →
  emits_post (titled_by_rule all) (λ _, True) (handle_rules_loop cap rules msg cache).
Proof.
  revert msg cache. induction rules as [|r rules IH]; intros msg cache Hsub; simpl.
  - eapply emits_post_bind with (R := λ _, True); [by apply emits_post_emit|].
    intros _ _. by apply emits_post_ret.
  - assert (r ∈ all) as Hr by (apply Hsub; by left).
    assert (rules ⊆ all) as Hrules by (intros x Hx; apply Hsub; by right).
    eapply emits_post_bind with (R := λ _, True); [by apply emits_post_emit|].
    intros _ _.
    eapply emits_post_bind with (R := λ _, True).
    { eapply emits_post_weaken; [apply from_match_titled_by_rule|done|].
      apply emits_post_of_emits, run_match_lines_from_match. }
    intros [[[] msg1] cache1] _; [|by apply IH].
    eapply emits_post_bind with (R := λ _, True); [by apply emits_post_emit|].
    intros _ _.
    eapply emits_post_bind with (R := λ _, True);
      [|intros; by apply emits_post_ret].
    eapply emits_post_weaken; [intros e; by apply titled_titled_by_rule|done|].
    apply run_action_lines_titled.
    unfold ElasticDict.get, ElasticDict.set. simpl. by rewrite lookup_insert_eq.
Qed.

End RuleName.

(** X15. Every notification of a run is titled with the name of a rule
    of the list: [handle_rules] binds the rule name before the actions
    run, no action rebinds it, and [plumb notify] reads it back, so
    within a run [plumb notify] never fails for want of a rule name. *)
Theorem notifications_titled_by_rule cap msg rules tr :
  ∃ evs, (handle_rules cap msg rules tr).2 = tr ++ evs
         ∧ Forall (titled_by_rule rules) evs.
Proof.
  destruct (handle_rules_loop_titled cap rules rules msg {[ "type" := ∅ ]}
              (reflexivity _) tr) as (evs & Heq & Hevs & _).
  by exists evs.
Qed.

(** ** The type cache during a run *)

Section CacheInvariant.

Variable cap : Capabilities.

Lemma truthy_nonempty ty : truthy (Some ty) = true → ty ≠ "".
Proof. unfold truthy. intros H%negb_true_iff. by apply bool_decide_eq_false in H. Qed.

Lemma cache_ok_insert cache type_cache arg ty :
  cache !! "type" = Some type_cache →
  (∀ a t, type_cache !! a = Some t → t ≠ "") →
  ty ≠ "" →
  cache_ok (<["type" := <[arg := ty]> type_cache]> cache).
Proof.
  intros Htc Hne Hty. exists (<[arg := ty]> type_cache).
  split; [by rewrite lookup_insert_eq|].
  intros a t. destruct (decide (arg = a)) as [->|Ha].
  - rewrite lookup_insert_eq. by intros [= <-].
  - rewrite lookup_insert_ne by done. apply Hne.
Qed.

Lemma arg_istype_func_cache_ok msg arguments cache tr b msg' cache' tr' :
  arg_istype_func cap msg arguments cache tr = (Ok (b, msg', cache'), tr') →
  cache_ok cache → cache_ok cache'.
Proof.
  unfold arg_istype_func.
  intros H Hok. pose proof Hok as (tc & Htc & Hne). rewrite Htc in H.
  mauto; try done; apply (cache_ok_insert _ _ _ _ Htc Hne);
    by apply truthy_nonempty.
Qed.

Lemma call_match_clause_cache_ok line msg cache tr b msg' cache' tr' :
  call_match_clause cap line msg cache tr = (Ok (b, msg', cache'), tr') →
  cache_ok cache → cache_ok cache'.
Proof.
  unfold call_match_clause, match_clauses. intros H Hc.
  repeat case_decide; minv;
    first [ by apply kind_is_func_msg in H as (_ & -> & _)
          | by apply arg_is_func_msg in H as (_ & -> & _)
          | by eapply arg_istype_func_cache_ok
          | by apply arg_matches_func_msg in H as (_ & -> & _)
          | by apply arg_rewrite_func_msg in H as (_ & -> & _)
          | by apply raise_ok in H ].
Qed.

Lemma run_match_lines_cache_ok lines msg cache tr b msg' cache' tr' :
  run_match_lines cap lines msg cache tr = (Ok (b, msg', cache'), tr') →
  cache_ok cache → cache_ok cache'.
Proof.
  revert msg cache tr. induction lines as [|l lines IH]; intros msg cache tr H Hc.
  - by apply ret_ok in H as [[= -> -> ->] ->].
  - apply run_match_lines_cons_inv in H as (b1 & msg1 & cache1 & tr1 & Hl & H).
    eapply call_match_clause_cache_ok in Hl; [|done].
    destruct b1; [by eapply IH|]. by destruct H as (_ & _ & -> & _).
Qed.

End CacheInvariant.

(** X17. The type cache during a run: whenever the loop of
    [handle_rules] comes to try a rule, the cache still has its
    dictionary of types and no value is cached with an empty type; so in
    a run [arg istype] never fails on the lookup of the cache itself, and
    a type served from the cache is never taken for "no type". *)
Theorem type_cache_invariant cap msg0 rules tr0 k msg cache tr :
  reaches cap rules msg0 {[ "type" := ∅ ]} tr0 k msg cache tr →
  cache_ok cache.
Proof.
  induction 1 as [|k r msg cache tr msg' cache' tr' Hreach IH Hr Hrun].
  - exists ∅. split; [apply lookup_singleton_eq|]. intros a t. by rewrite lookup_empty.
  - by eapply run_match_lines_cache_ok.
Qed.

(** ** The references of an argument string *)

Section References.

Lemma find_char_get c start s i :
  PyStr.find_char c start s = Some i → String.get i s = Some c.
Proof.
  revert start i. induction s as [|d s IH]; intros start i; [done|].
  cbn [PyStr.find_char]. destruct start as [|k].
  - destruct (decide (c = d)) as [->|]; [by intros [= <-]|].
    destruct (PyStr.find_char c 0 s) as [j|] eqn:Hj; [|done].
    intros [= <-]. simpl. by eapply IH.
  - destruct (PyStr.find_char c k s) as [j|] eqn:Hj; [|done].
    intros [= <-]. simpl. by eapply IH.
Qed.

(** [find] returns the first occurrence from [start] on. *)
Lemma find_char_first c start s i j :
  PyStr.find_char c start s = Some i →
  (start ≤ j < i)%nat → String.get j s ≠ Some c.
Proof.
  revert start i j. induction s as [|d s IH]; intros start i j; [done|].
  cbn [PyStr.find_char]. destruct start as [|k].
  - destruct (decide (c = d)) as [->|Hne]; [intros [= <-]; lia|].
    destruct (PyStr.find_char c 0 s) as [i'|] eqn:Hi; [|done].
    intros [= <-] Hj. destruct j as [|j]; simpl; [congruence|].
    eapply IH; [done|lia].
  - destruct (PyStr.find_char c k s) as [i'|] eqn:Hi; [|done].
    intros [= <-] Hj. destruct j as [|j]; [lia|]. simpl.
    eapply IH; [done|lia].
Qed.

(** [reference v]: [v] opens with a brace, closes with a brace, and has
    no closing brace before its last character. *)
Lemma slice_reference s i1 i2 :
  String.get i1 s = Some "{"%char →
  String.get i2 s = Some "}"%char →
  (i1 < i2 < String.length s)%nat →
  (∀ j, (S i1 ≤ j < i2)%nat → String.get j s ≠ Some "}"%char) →
  let v := PyStr.slice i1 (i2 + 1) s in
  String.get 0 v = Some "{"%char
  ∧ String.get (i2 - i1) v = Some "}"%char
  ∧ String.get (S (i2 - i1)) v = None
  ∧ ∀ j, (j < i2 - i1)%nat → String.get j v ≠ Some "}"%char.
Proof.
  intros H1 H2 Hlt Hfirst v. unfold v, PyStr.slice.
  replace (Nat.min (i2 + 1) (String.length s) - i1)%nat with (S (i2 - i1)) by lia.
  repeat split.
  - rewrite substring_correct1 by lia. done.
  - rewrite substring_correct1 by lia.
    by replace (i2 - i1 + i1)%nat with i2 by lia.
  - by rewrite substring_correct2 by lia.
  - intros j Hj. rewrite substring_correct1 by lia.
    destruct j as [|j]; [simpl; by rewrite H1|].
    apply Hfirst. lia.
Qed.

End References.

Lemma get_var_references_go_shape fuel s start :
  Forall is_reference (get_var_references_go fuel s start).
Proof.
  revert start. induction fuel as [|fuel IH]; intros start; [done|].
  cbn [get_var_references_go].
  destruct (PyStr.find_char "{" start s) as [i1|] eqn:Hp1; [|done].
  cbn [from_option].
  destruct (PyStr.find_char "}" (S i1) s) as [i2|] eqn:Hp2; [|done].
  constructor; [|apply IH].
  pose proof (find_char_bounds _ _ _ _ Hp1) as Hb1.
  pose proof (find_char_bounds _ _ _ _ Hp2) as Hb2.
  destruct (slice_reference s i1 i2) as (Hopen & Hclose & Hend & Hin).
  - by eapply find_char_get.
  - by eapply find_char_get.
  - lia.
  - intros j Hj. by eapply find_char_first.
  - exists (i2 - i1 - 1)%nat.
    replace (S (i2 - i1 - 1)) with (i2 - i1)%nat by lia.
    repeat split; try done. intros j Hj. apply Hin. lia.
Qed.

(** X18. Every reference [get_var_references] yields opens with a brace
    and ends with the first closing brace after it: it has at least two
    characters and no closing brace before its last one. *)
Theorem get_var_references_shape s : Forall is_reference (get_var_references s).
Proof. apply get_var_references_go_shape. Qed.

(** ** Results handed on to later actions *)

(** X19. [plumb save] hands its file on: when it returns, it returns
    true, it has written the data of the message to a fresh temporary
    file, the reference "{data_file}" of a later action resolves to the
    name of that file, and every other variable of the message is as it
    was. *)
Theorem save_exposes_file cap msg arguments tr b msg' tr' :
  plumb_save_func cap msg arguments tr = (Ok (b, msg'), tr') →
  ∃ name data,
    temp_file cap tr = Ok name
    ∧ ElasticDict.get "data" msg = Ok (VStr data)
    ∧ b = true
    ∧ tr' = tr ++ [EvTempFile name data]
    ∧ format_msg "{data_file}" msg' = Ok name
    ∧ ∀ key, key ≠ "data_file" →
        ElasticDict.get key msg' = ElasticDict.get key msg.
Proof.
  unfold plumb_save_func. intros H. mauto.
  eexists _, _. repeat split; try done.
  - unfold format_msg, PyFormat.format, ElasticDict.set. simpl.
    unfold PyFormat.format_field. simpl.
    cbv [PyStr.rev PyStr.rev_acc]. rewrite lookup_insert_eq. simpl.
    by rewrite app_empty_r.
  - intros key Hkey. by rewrite get_set_ne.
Qed.

(** X20. A failed request is not fatal to [arg istype]: for a message of
    kind url whose value is not in the cache, when the extension of the
    value gives no type and the HEAD request fails or carries no
    content-type header, the clause returns false with the message and
    the cache as they were, having recorded the detection and the
    request. *)
Theorem istype_request_failure cap msg target patterns cache tr arg type_cache :
  format_msg target msg = Ok arg →
  cache !! "type" = Some type_cache →
  type_cache !! arg = None →
  ElasticDict.get "kind" msg = Ok (VKind url) →
  truthy (guess_type cap arg) = false →
  http_head cap (tr ++ [EvDetect (VKind url) arg]) arg = None →
  arg_istype_func cap msg [AStr target; AList patterns] cache tr
  = (Ok (false, msg, cache), tr ++ [EvDetect (VKind url) arg; EvHttpHead arg]).
Proof.
  intros Hfmt Hcache Harg Hkind Hguess Hhead.
  assert (cached_or_detected cap msg type_cache arg tr
          = (Ok None, tr ++ [EvDetect (VKind url) arg; EvHttpHead arg])) as Hcd.
  { unfold cached_or_detected. rewrite Harg, Hkind.
    unfold bind, lift, emit, detect_mimetype. simpl. rewrite Hguess.
    unfold lookup_content_type, bind, history, emit. rewrite Hhead.
    unfold ret. by rewrite <- app_assoc. }
  by rewrite (arg_istype_func_eq cap _ _ patterns _ _ _ _ _ _ Hfmt Hcache Hcd).
Qed.

(** ** The further properties at concrete inputs *)

Lemma numbered_reference_resolves_witness :
  (format_msg (escape_match_group_references "{0}")
     (ElasticDict.update [("\0", VStr "1")] scenario_msg) = Ok "1"
   ∧ format_msg "{0}" (ElasticDict.update [("\0", VStr "1")] scenario_msg)
     = Raise IndexError)
  ∧ (format_msg (escape_match_group_references "{9223372036854775808}") scenario_msg
     = Raise (KeyError "\9223372036854775808")
     ∧ format_msg "{9223372036854775808}" scenario_msg = Raise ValueError)
  ∧ (format_msg (escape_match_group_references "{٣}") scenario_msg
     = Raise (KeyError "\٣")
     ∧ format_msg "{٣}" scenario_msg = Raise IndexError).
Proof.
  split; [|split].
  - apply (numbered_reference_resolves "0"
             (ElasticDict.update [("\0", VStr "1")] scenario_msg)).
    reflexivity.
  - apply (numbered_reference_resolves "9223372036854775808" scenario_msg).
    reflexivity.
  - apply (numbered_reference_resolves "٣" scenario_msg).
    reflexivity.
Defined.

Lemma captured_groups_resolve_witness :
  ∃ arg pattern groups,
    format_msg "{data}" scenario_msg = Ok arg
    ∧ pattern ∈ ["nomatch"; "foo(.)bar(.)"]
    ∧ re_search quiet_cap pattern arg = Ok (Some groups)
    ∧ ∀ i g, groups !! i = Some g →
        format_msg
          (escape_match_group_references (String "{" (PyStr.of_nat i +:+ "}")))
          (ElasticDict.update [("\0", VStr "1"); ("\1", VStr "2")] scenario_msg)
        = Ok (from_option id "None" g).
Proof.
  apply (captured_groups_resolve quiet_cap scenario_msg "{data}"
           ["nomatch"; "foo(.)bar(.)"] empty_cache []
           (ElasticDict.update [("\0", VStr "1"); ("\1", VStr "2")] scenario_msg)
           empty_cache []).
  vm_compute; reflexivity.
Defined.

Lemma arg_matches_first_success_witness :
  arg_matches_func quiet_cap scenario_msg
    [AStr "{data}"; AList (["nomatch"] ++ "foo(.)bar(.)" :: ["foo(.)"])] empty_cache []
  = (Ok (true,
         ElasticDict.update (group_items [Some "1"; Some "2"]) scenario_msg,
         empty_cache), [])
  ∧ arg_matches_func quiet_cap scenario_msg [AStr "{data}"; AList []] empty_cache []
    = (Ok (false, scenario_msg, empty_cache), []).
Proof.
  destruct (arg_matches_first_success quiet_cap scenario_msg "{data}" empty_cache []
              "foo1bar2" ltac:(vm_compute; reflexivity)) as [Hfirst Hnone].
  split.
  - apply Hfirst; [|vm_compute; reflexivity].
    repeat constructor.
  - apply Hnone. constructor.
Defined.

Lemma only_istype_uses_cache_witness :
  hello_cache = hello_cache
  ∧ [EvMatchCall "arg matches" [AStr "{data}"; AList ["foo(.)bar(.)"]]]
    = [] ++ [EvMatchCall "arg matches" [AStr "{data}"; AList ["foo(.)bar(.)"]]].
Proof.
  apply (only_istype_uses_cache quiet_cap
           (MatchLine "arg" "matches" [AStr "{data}"; AList ["foo(.)bar(.)"]])
           scenario_msg hello_cache [] true
           (ElasticDict.update [("\0", VStr "1"); ("\1", VStr "2")] scenario_msg)
           hello_cache
           [EvMatchCall "arg matches" [AStr "{data}"; AList ["foo(.)bar(.)"]]]).
  - vm_compute. discriminate.
  - vm_compute; reflexivity.
Defined.

Lemma kind_is_exact_witness :
  kind_is_func scenario_msg [AStr "raw"] empty_cache [] = (Ok (true, scenario_msg, empty_cache), [])
  ∧ kind_is_func scenario_msg [AStr "url"] empty_cache [] = (Ok (false, scenario_msg, empty_cache), []).
Proof.
  split.
  - apply (kind_is_exact scenario_msg (VKind raw) raw [] empty_cache []). reflexivity.
  - apply (kind_is_exact scenario_msg (VKind raw) url [] empty_cache []). reflexivity.
Defined.

Lemma istype_empty_patterns_raises_witness :
  arg_istype_func quiet_cap text_msg [AStr "{data}"; AList []] empty_cache []
  = (Raise (UnboundLocalError "m"), [EvDetect (VKind text) "hello"]).
Proof.
  apply (istype_empty_patterns_raises quiet_cap text_msg "{data}" empty_cache []
           "hello" ∅ "text/plain" [EvDetect (VKind text) "hello"]);
    try (vm_compute; reflexivity).
  discriminate.
Defined.

Lemma rewrite_malformed_substitution_witness :
  arg_rewrite_func oolong_msg [AStr "{data}"; AList (["oo,le"] ++ "jing" :: [])]
    empty_cache []
  = (Raise TypeError, []).
Proof.
  apply (rewrite_malformed_substitution oolong_msg "{data}" ["oo,le"] "jing" []
           empty_cache [] "oolong").
  - vm_compute; reflexivity.
  - repeat constructor.
  - vm_compute. discriminate.
Defined.


Lemma run_missing_executable_witness :
  plumb_run_func no_program_cap scenario_msg "editor {data}" []
  = (Raise IndexError, [EvSubprocess ["editor"; "foo1bar2"]]).
Proof.
  apply (run_missing_executable no_program_cap scenario_msg "editor {data}"
           ["editor"; "foo1bar2"] [] "No such file or directory");
    vm_compute; reflexivity.
Defined.

(** The pieces are split at white space, the no-break space U+00A0
    included. *)
Lemma run_plain_command_witness :
  plumb_run_func quiet_cap scenario_msg "firefox  --new-tab" []
  = (Ok (true, scenario_msg), [EvSubprocess ["firefox"; "--new-tab"]])
  ∧ plumb_run_func quiet_cap scenario_msg
      ("xdg-open" +:+ String (ascii_of_nat 194) (String (ascii_of_nat 160) "čaj.txt"))
      []
    = (Ok (true, scenario_msg), [EvSubprocess ["xdg-open"; "čaj.txt"]]).
Proof.
  split.
  - apply (proj2 (run_plain_command quiet_cap scenario_msg "firefox  --new-tab" []
                    ltac:(vm_compute; reflexivity)) 0%Z).
    vm_compute; reflexivity.
  - apply (proj2 (run_plain_command quiet_cap scenario_msg
                    ("xdg-open"
                     +:+ String (ascii_of_nat 194) (String (ascii_of_nat 160) "čaj.txt"))
                    [] ltac:(vm_compute; reflexivity)) 0%Z).
    vm_compute; reflexivity.
Defined.

Lemma unbound_reference_fails_action_witness :
  plumb_run_func quiet_cap scenario_msg "echo {data} {nosuch}" []
  = (Ok (false, scenario_msg), [])
  ∧ plumb_download_func quiet_cap scenario_msg "echo {data} {nosuch}" []
    = (Ok (false, scenario_msg), []).
Proof.
  apply (unbound_reference_fails_action quiet_cap scenario_msg
           "echo {data} {nosuch}" "{nosuch}" []).
  - vm_compute. right. left.
  - vm_compute; reflexivity.
Defined.

Lemma no_rule_matched_witness :
  handle_rules quiet_cap scenario_msg [text_rule] []
  = (Ok (ElasticDict.reverse (ElasticDict.update [("\0", VStr "1")] scenario_msg),
         empty_cache),
     [EvMatchingRule "text only";
      EvMatchCall "arg matches" [AStr "{data}"; AList ["foo(.)"]];
      EvMatchCall "kind is" [AStr "text"]] ++ [EvNoRuleMatched]).
Proof.
  apply (no_rule_matched quiet_cap scenario_msg [text_rule] []).
  apply (reaches_next quiet_cap _ _ _ _ 0 text_rule scenario_msg empty_cache []);
    [apply reaches_first | reflexivity | vm_compute; reflexivity].
Defined.

(** The rule [typed_rule] stores the type of the data of [text_msg] and
    then fails on the kind: the loop comes to the next rule with that
    type in the cache. *)
Lemma type_cache_invariant_witness :
  cache_ok (<["type" := <["hello" := "text/plain"]> ∅]> empty_cache).
Proof.
  apply (type_cache_invariant quiet_cap text_msg [typed_rule; text_rule] [] 1
           (ElasticDict.reverse text_msg)
           (<["type" := <["hello" := "text/plain"]> ∅]> empty_cache)
           [EvMatchingRule "typed";
            EvMatchCall "arg istype" [AStr "{data}"; AList ["text/plain"]];
            EvDetect (VKind text) "hello";
            EvMatchCall "kind is" [AStr "raw"]]).
  apply (reaches_next quiet_cap _ _ _ _ 0 typed_rule text_msg empty_cache []
           text_msg (<["type" := <["hello" := "text/plain"]> ∅]> empty_cache));
    [apply reaches_first | reflexivity | vm_compute; reflexivity].
Defined.

Lemma save_exposes_file_witness :
  ∃ name data,
    temp_file quiet_cap [] = Ok name
    ∧ ElasticDict.get "data" scenario_msg = Ok (VStr data)
    ∧ true = true
    ∧ [EvTempFile "/tmp/plumber-temp-0" "foo1bar2"] = [] ++ [EvTempFile name data]
    ∧ format_msg "{data_file}"
        (ElasticDict.set "data_file" (VStr "/tmp/plumber-temp-0") scenario_msg)
      = Ok name
    ∧ ∀ key, key ≠ "data_file" →
        ElasticDict.get key
          (ElasticDict.set "data_file" (VStr "/tmp/plumber-temp-0") scenario_msg)
        = ElasticDict.get key scenario_msg.
Proof.
  apply (save_exposes_file quiet_cap scenario_msg "" [] true
           (ElasticDict.set "data_file" (VStr "/tmp/plumber-temp-0") scenario_msg)
           [EvTempFile "/tmp/plumber-temp-0" "foo1bar2"]).
  vm_compute; reflexivity.
Defined.

Lemma istype_request_failure_witness :
  arg_istype_func quiet_cap url_msg [AStr "{data}"; AList ["text/html"]] empty_cache []
  = (Ok (false, url_msg, empty_cache),
     [] ++ [EvDetect (VKind url) "http://example.org/page";
            EvHttpHead "http://example.org/page"]).
Proof.
  apply (istype_request_failure quiet_cap url_msg "{data}" ["text/html"] empty_cache []
           "http://example.org/page" ∅);
    vm_compute; reflexivity.
Defined.
